(** * AuditoryIllusions: the illusion-synthesis engine, embedded and verified

    A shallow embedding of the signal generators of the repository
    (Shepard tone, cyclic and exponential Risset rhythm, tempo and pitch
    ramps) and proofs about their layer generation, envelopes, stamping
    and normalisation.

    Number model.  A Python/numpy [float] is an exact real ([R]): rounding
    and overflow to an infinity are not modelled, and the theorems whose
    content depends on them carry the range in which the doubles behave as
    the reals do ([clock_in_range], [layer_in_range], [sweep_in_range],
    [clear_of_integers]).  What the runtime does on a zero divisor is
    modelled explicitly where the generators divide by a value they
    compute: Python's scalar division raises [ZeroDivisionError]
    ([float_div]), the array division of the normalisers yields [nan] or an
    infinity ([np_true_divide]).  The division of a phase by the sample rate
    is a real division; a theorem that bounds the samples computed from
    such a phase assumes a positive sample rate.  Sample counts and indices
    are integers ([Z]) and buffers are lists of reals. *)

From Stdlib Require Import Reals Lra Lia List ZArith Bool.
Import ListNotations.
Open Scope R_scope.

(** ** Python runtime: exceptions, scalar float operations *)

Inductive exn : Type :=
| ZeroDivisionError
| ValueError.

(** What running a piece of code gives: a value, an exception, or, for the
    [while] loops, which the model runs on a budget of iterations,
    [OutOfFuel] when the budget did not suffice (no Python outcome). *)
Inductive result (A : Type) : Type :=
| Ok (a : A)
| Raise (e : exn)
| OutOfFuel.
Arguments Ok {A} a.
Arguments Raise {A} e.
Arguments OutOfFuel {A}.

Definition bind {A B : Type} (m : result A) (k : A -> result B) : result B :=
  match m with
  | Ok a => k a
  | Raise e => Raise e
  | OutOfFuel => OutOfFuel
  end.

Notation "x <- m ;; k" := (bind m (fun x => k))
  (at level 61, m at next level, right associativity).
Notation "' p <- m ;; k" := (bind m (fun x => let p := x in k))
  (at level 61, p pattern, m at next level, right associativity).

(** [x / y] on Python scalars: a zero divisor raises. *)
Definition float_div (x y : R) : result R :=
  if Req_dec_T y 0 then Raise ZeroDivisionError else Ok (x / y).

(** [x % 1.0]: the result has the sign of the divisor, so it is [x - floor x]. *)
Definition float_mod1 (x : R) : R := x - IZR (Zfloor x).

(** [int(x)] on a float truncates towards zero. *)
Definition py_int (x : R) : Z :=
  if Rle_dec 0 x then Zfloor x else (- Zfloor (- x))%Z.

(** [2 ** x] for a float exponent. *)
Definition pow2 (x : R) : R := Rpower 2 x.

(** ** numpy: arrays as lists *)

(** The values an array division can produce. *)
Inductive npfloat : Type :=
| Fin (r : R)
| PInf
| NInf
| NaN.

(** [x / d] inside an array operation: no exception, [0/0] is [nan]. *)
Definition np_true_divide (x d : R) : npfloat :=
  if Req_dec_T d 0 then
    if Req_dec_T x 0 then NaN
    else if Rlt_dec 0 x then PInf else NInf
  else Fin (x / d).

(** [np.zeros(n)]: a negative size is refused. *)
Definition np_zeros (n : Z) : result (list R) :=
  if (n <? 0)%Z then Raise ValueError else Ok (repeat 0 (Z.to_nat n)).

(** [np.linspace(start, stop, num, endpoint=False)]. *)
Definition linspace_open (start stop : R) (num : nat) : list R :=
  map (fun i => start + INR i * ((stop - start) / INR num)) (seq 0 num).

(** [np.linspace(start, stop, num)] (the endpoint included). *)
Definition linspace (start stop : R) (num : nat) : list R :=
  map (fun i => start + INR i * ((stop - start) / INR (num - 1))) (seq 0 num).

(** [np.cumsum]: the running sum, left to right. *)
Fixpoint cumsum_from (acc : R) (l : list R) : list R :=
  match l with
  | [] => []
  | x :: xs => (acc + x) :: cumsum_from (acc + x) xs
  end.

Definition cumsum (l : list R) : list R := cumsum_from 0 l.

(** [np.max] of a one-dimensional array: an empty array is refused. *)
Definition np_max (l : list R) : result R :=
  match l with
  | [] => Raise ValueError
  | x :: xs => Ok (fold_left Rmax xs x)
  end.

(** [np.clip(x, lo, hi)]. *)
Definition np_clip (x lo hi : R) : R := Rmin (Rmax x lo) hi.

(** [np.log2]. *)
Definition np_log2 (x : R) : R := ln x / ln 2.

(** [x % y] on arrays: [x - floor(x / y) * y]. *)
Definition np_mod (x y : R) : R := x - IZR (Zfloor (x / y)) * y.

(** Bounds of the slice [a[start:stop]] of an array of length [n]: a negative
    index counts from the end, and both are clipped to [0, n]. *)
Definition slice_index (n i : Z) : Z :=
  let j := if (i <? 0)%Z then (i + n)%Z else i in
  Z.max 0 (Z.min n j).

Definition py_slice (l : list R) (start stop : Z) : list R :=
  let n := Z.of_nat (length l) in
  let a := Z.to_nat (slice_index n start) in
  let b := Z.to_nat (slice_index n stop) in
  firstn (b - a) (skipn a l).

(** [a[:k]]. *)
Definition py_prefix (l : list R) (k : Z) : list R := py_slice l 0 k.

(** Element-wise sum of two arrays of one length. *)
Fixpoint vadd (a b : list R) : list R :=
  match a, b with
  | x :: xs, y :: ys => (x + y) :: vadd xs ys
  | _, _ => []
  end.

(** [a[start:stop] += v]: the right-hand side must have the length of the
    slice, or length one (it is then broadcast); anything else is refused. *)
Definition slice_iadd (l : list R) (start stop : Z) (v : list R) : result (list R) :=
  let n := Z.of_nat (length l) in
  let a := Z.to_nat (slice_index n start) in
  let b := Z.to_nat (slice_index n stop) in
  let len := (b - a)%nat in
  let target := firstn len (skipn a l) in
  if Nat.eqb (length v) len then
    Ok (firstn a l ++ vadd target v ++ skipn (a + len) l)
  else
    match v with
    | [c] => Ok (firstn a l ++ map (fun x => x + c) target ++ skipn (a + len) l)
    | _ => Raise ValueError
    end.

(** [a += b] on whole arrays, with the same broadcasting rule. *)
Definition array_iadd (a b : list R) : result (list R) :=
  if Nat.eqb (length b) (length a) then Ok (vadd a b)
  else
    match b with
    | [c] => Ok (map (fun x => x + c) a)
    | _ => Raise ValueError
    end.

(** ** Envelopes *)

(** [ShepardToneGenerator.gaussian_envelope] (shepard_tone_generator.py). *)
Definition gaussian_envelope (x center width : R) : R :=
  exp (- ((x - center) ^ 2) / (2 * width ^ 2)).

(** The Shepard fade of the event generators: [np.sin(np.pi * phase)]. *)
Definition sine_fade (phase : R) : R := sin (PI * phase).

(** The linear fade of [RissetRhythmGenerator.generate_layer] and
    [ClassicRissetRhythm.generate_voice]. *)
Definition linear_fade (progress : R) : R :=
  if Rlt_dec progress 0.25 then progress / 0.25
  else if Rlt_dec 0.75 progress then (1 - progress) / 0.25
  else 1.

(** The crossfade of the stronger exponential generator:
    [np.clip(progress * 1.3, 0, 1) * np.clip((1 - progress) * 1.3, 0, 1)]. *)
Definition smoothed_gate (progress k : R) : R :=
  np_clip (progress * k) 0 1 * np_clip ((1 - progress) * k) 0 1.

(** Element-wise product of two arrays of one length. *)
Fixpoint vmul (a b : list R) : list R :=
  match a, b with
  | x :: xs, y :: ys => (x * y) :: vmul xs ys
  | _, _ => []
  end.

(** [range(n)]. *)
Definition range (n : Z) : list Z := map Z.of_nat (seq 0 (Z.to_nat n)).

(** ** Normalisation *)

(** [x /= np.max(np.abs(x) + 1e-9)]: risset_true_cyclical.py line 97,
    backup.py line 430 and both exponential generators. *)
Definition normalize_guarded (x : list R) : result (list npfloat) :=
  m <- np_max (map (fun v => Rabs v + 1e-9) x) ;;
  Ok (map (fun v => np_true_divide v m) x).

(** [x /= np.max(np.abs(x))]: backup.py lines 314, 497 and 604. *)
Definition normalize_unguarded (x : list R) : result (list npfloat) :=
  m <- np_max (map Rabs x) ;;
  Ok (map (fun v => np_true_divide v m) x).

(** Multiplying an array that may hold [nan] or infinities by a positive
    constant. *)
Definition npfloat_scale (c : R) (v : npfloat) : npfloat :=
  match v with
  | Fin r => Fin (r * c)
  | other => other
  end.

(** [x / np.max(np.abs(x)) * 0.8]: shepard_tone_generator.py line 116. *)
Definition normalize_shepard (x : list R) : result (list npfloat) :=
  m <- np_max (map Rabs x) ;;
  Ok (map (fun v => npfloat_scale 0.8 (np_true_divide v m)) x).

(** The accumulation loop [for ...: mix += layer]: each layer is produced
    (which may raise) and added in turn. *)
Fixpoint mix_into (mix : list R) (layers : list (result (list R))) : result (list R) :=
  match layers with
  | [] => Ok mix
  | gen :: rest =>
      layer <- gen ;;
      mix' <- array_iadd mix layer ;;
      mix_into mix' rest
  end.

(** The mixing frame shared by the generators: a zero buffer of [samples]
    samples, the layers added one after the other, the generator's own
    normalisation at the end. *)
Definition mix_and_normalize (normalize : list R -> result (list npfloat))
  (samples : Z) (layers : list (result (list R))) : result (list npfloat) :=
  mix <- np_zeros samples ;;
  mix' <- mix_into mix layers ;;
  normalize mix'.

(** ** Event layers: the event clock shared by the three Risset generators *)

(** An onset: the time the cursor stood at and the gain the hit was scaled
    by.  The trace of onsets is not in the source; the model records it to
    state properties of the timing. *)
Record onset : Type := mk_onset { onset_time : R; onset_gain : R }.

Record loop_state : Type := mk_state {
  cursor : R;
  buffer : list R;
  trace : list onset
}.

(** The stamping lines shared by the three generators:
<<
    start = int(t * sample_rate)
    end = min(start + len(hit), samples)
    layer[start:end] += hit[: end - start] * gain
>> *)
Definition stamp (sample_rate samples : Z) (hit : list R) (t gain : R)
  (layer : list R) : result (list R) :=
  let start := py_int (t * IZR sample_rate) in
  let stop := Z.min (start + Z.of_nat (length hit)) samples in
  slice_iadd layer start stop (map (fun h => h * gain) (py_prefix hit (stop - start))).

Section EventClock.

(** What differs between the generators: the lines of the loop body that
    compute the interval to the next event and the gain of this one from
    the cursor, and the call that makes the hit. *)
Variable rate_law : R -> result (R * R).
Variable make_hit_call : result (list R).
Variables sample_rate samples : Z.
Variable total_duration : R.

(** One pass through the body of [while t < total_duration]. *)
Definition loop_body (st : loop_state) : result loop_state :=
  '(interval, gain) <- rate_law (cursor st) ;;
  hit <- make_hit_call ;;
  layer <- stamp sample_rate samples hit (cursor st) gain (buffer st) ;;
  Ok (mk_state (cursor st + interval) layer
        (trace st ++ [mk_onset (cursor st) gain])).

Fixpoint while_loop (fuel : nat) (st : loop_state) : result loop_state :=
  match fuel with
  | O => OutOfFuel
  | S fuel' =>
      if Rlt_dec (cursor st) total_duration then
        st' <- loop_body st ;;
        while_loop fuel' st'
      else Ok st
  end.

End EventClock.

(** The clock run on an allocated layer, from [t = 0.0]; it returns the
    layer and, in the model, the trace. *)
Definition run_clock (rate_law : R -> result (R * R)) (make_hit_call : result (list R))
  (sample_rate samples : Z) (total_duration : R) (fuel : nat) (layer : list R)
  : result (list R * list onset) :=
  st <- while_loop rate_law make_hit_call sample_rate samples total_duration fuel
          (mk_state 0 layer []) ;;
  Ok (buffer st, trace st).

(** What every [generate_layer] comes to once the constants of its rate law
    are computed: allocate, then run the clock. *)
Definition run_layer (rate_law : R -> result (R * R)) (make_hit_call : result (list R))
  (sample_rate : Z) (total_duration : R) (fuel : nat) : result (list R * list onset) :=
  let samples := py_int (total_duration * IZR sample_rate) in
  layer <- np_zeros samples ;;
  run_clock rate_law make_hit_call sample_rate samples total_duration fuel layer.

(** *** risset_true_cyclical.py *)
Module RissetCyclic.

Definition make_hit (sample_rate : Z) (duration_ms freq decay : R) : result (list R) :=
  let length := py_int (IZR sample_rate * duration_ms / 1000) in
  if (length <? 0)%Z then Raise ValueError else
  let t := linspace_open 0 (duration_ms / 1000) (Z.to_nat length) in
  let envelope := map (fun x => exp (- x * decay)) t in
  let signal := map (fun x => sin (2 * PI * freq * x)) t in
  signal' <- slice_iadd signal 0 5 [0.5] ;;
  Ok (vmul signal' envelope).

(** Lines 50-57 of [generate_layer]: phase, freq, interval, fade. *)
Definition rate_law (base_freq phase_offset cycle_duration direction : R) (t : R)
  : result (R * R) :=
  q <- float_div (direction * t) cycle_duration ;;
  let phase := float_mod1 (q + phase_offset) in
  let freq := base_freq * pow2 phase in
  interval <- float_div 1 freq ;;
  let fade := sin (PI * phase) in
  Ok (interval, fade).

Definition generate_layer (fuel : nat) (total_duration base_freq : R)
  (layer_index num_layers : Z) (cycle_duration : R) (accelerating : bool)
  (sample_rate : Z) : result (list R * list onset) :=
  let samples := py_int (total_duration * IZR sample_rate) in
  layer <- np_zeros samples ;;
  let direction := if accelerating then 1 else -1 in
  phase_offset <- float_div (IZR layer_index) (IZR num_layers) ;;
  run_clock (rate_law base_freq phase_offset cycle_duration direction)
    (make_hit sample_rate 35 (120 + IZR layer_index * 30) 45)
    sample_rate samples total_duration fuel layer.

(** [generate_risset] up to the normalised mix (the file export is left out). *)
Definition generate_risset (fuel : nat) (duration base_tempo : R) (num_layers : Z)
  (accelerating : bool) (cycle_duration : R) (sample_rate : Z)
  : result (list npfloat) :=
  let base_freq := base_tempo / 60 in
  mix_and_normalize normalize_guarded (py_int (duration * IZR sample_rate))
    (map (fun i =>
            r <- generate_layer fuel duration base_freq i num_layers
                   cycle_duration accelerating sample_rate ;;
            Ok (fst r))
       (range num_layers)).

End RissetCyclic.

(** *** Exponential Increase Version.py *)
Module RissetExponential.

Definition make_hit (sample_rate : Z) (duration_ms freq : R) : result (list R) :=
  let length := py_int (IZR sample_rate * duration_ms / 1000) in
  if (length <? 0)%Z then Raise ValueError else
  let t := linspace_open 0 (duration_ms / 1000) (Z.to_nat length) in
  let envelope := map (fun x => exp (- x * 30)) t in
  let signal := vmul (map (fun x => sin (2 * PI * freq * x)) t) envelope in
  Ok signal.

(** The instantaneous event rate of the loop body. *)
Definition freq_at (base_freq freq_offset : R) (accelerating : bool) (progress : R) : R :=
  if accelerating then base_freq * freq_offset * pow2 progress
  else base_freq * freq_offset * pow2 (- progress).

Definition rate_law (duration base_freq freq_offset : R) (accelerating : bool) (t : R)
  : result (R * R) :=
  progress <- float_div t duration ;;
  let freq := freq_at base_freq freq_offset accelerating progress in
  interval <- float_div 1 freq ;;
  let fade := sin (PI * progress) in
  Ok (interval, fade).

Definition generate_layer (fuel : nat) (duration base_freq : R)
  (layer_index num_layers : Z) (accelerating : bool) (sample_rate : Z)
  : result (list R * list onset) :=
  let samples := py_int (duration * IZR sample_rate) in
  layer <- np_zeros samples ;;
  q <- float_div (IZR layer_index) (IZR num_layers) ;;
  let freq_offset := pow2 q in
  run_clock (rate_law duration base_freq freq_offset accelerating)
    (make_hit sample_rate 60 (80 + IZR layer_index * 30))
    sample_rate samples duration fuel layer.

(** [generate_risset] up to the normalised mix (the file export is left out). *)
Definition generate_risset (fuel : nat) (duration base_tempo : R) (num_layers : Z)
  (accelerating : bool) (sample_rate : Z) : result (list npfloat) :=
  let base_freq := base_tempo / 60 in
  mix_and_normalize normalize_guarded (py_int (duration * IZR sample_rate))
    (map (fun i =>
            r <- generate_layer fuel duration base_freq i num_layers
                   accelerating sample_rate ;;
            Ok (fst r))
       (range num_layers)).

End RissetExponential.

(** *** Stronger Exponential Increase.py *)
Module RissetStronger.

Definition EXP_RANGE : R := 3.
Definition HIT_DECAY : R := 45.

Definition make_hit (sample_rate : Z) (duration_ms freq : R) : result (list R) :=
  let length := py_int (IZR sample_rate * duration_ms / 1000) in
  if (length <? 0)%Z then Raise ValueError else
  let t := linspace_open 0 (duration_ms / 1000) (Z.to_nat length) in
  let envelope := map (fun x => exp (- x * HIT_DECAY)) t in
  let signal := map (fun x => sin (2 * PI * freq * x)) t in
  signal' <- slice_iadd signal 0 5 [0.5] ;;
  Ok (vmul signal' envelope).

Definition freq_at (base_freq freq_offset : R) (accelerating : bool) (progress : R) : R :=
  if accelerating then base_freq * freq_offset * pow2 (progress * EXP_RANGE)
  else base_freq * freq_offset * pow2 (- progress * EXP_RANGE).

Definition loudness (accelerating : bool) (progress : R) : R :=
  if accelerating then 0.6 + 0.4 * progress
  else 0.6 + 0.4 * (1 - progress).

(** The hit is scaled by [fade * loudness]: that product is the onset's gain. *)
Definition rate_law (duration base_freq freq_offset : R) (accelerating : bool) (t : R)
  : result (R * R) :=
  progress <- float_div t duration ;;
  let freq := freq_at base_freq freq_offset accelerating progress in
  interval <- float_div 1 freq ;;
  let fade := smoothed_gate progress 1.3 in
  Ok (interval, fade * loudness accelerating progress).

Definition generate_layer (fuel : nat) (duration base_freq : R)
  (layer_index num_layers : Z) (accelerating : bool) (sample_rate : Z)
  : result (list R * list onset) :=
  let samples := py_int (duration * IZR sample_rate) in
  layer <- np_zeros samples ;;
  q <- float_div (IZR layer_index) (IZR num_layers) ;;
  let freq_offset := pow2 q in
  run_clock (rate_law duration base_freq freq_offset accelerating)
    (make_hit sample_rate 40 (120 + IZR layer_index * 40))
    sample_rate samples duration fuel layer.

(** [generate_risset] up to the normalised mix (the file export is left out). *)
Definition generate_risset (fuel : nat) (duration base_tempo : R) (num_layers : Z)
  (accelerating : bool) (sample_rate : Z) : result (list npfloat) :=
  let base_freq := base_tempo / 60 in
  mix_and_normalize normalize_guarded (py_int (duration * IZR sample_rate))
    (map (fun i =>
            r <- generate_layer fuel duration base_freq i num_layers
                   accelerating sample_rate ;;
            Ok (fst r))
       (range num_layers)).

End RissetStronger.

(** *** shepard_tone_generator.py *)
Module Shepard.

Inductive direction : Type := Up | Down.

(** The fields of [ShepardToneGenerator] the synthesis reads. *)
Record config : Type := mk_config {
  duration_seconds : R;
  base_frequency : R;
  num_octaves : Z;
  rise_rate : R;
  dir : direction;
  sample_rate : Z
}.

(** The time array of [generate_shepard_layer]. *)
Definition time_array (g : config) (num_samples : nat) : list R :=
  linspace_open 0 (duration_seconds g) num_samples.

(** Lines 76-83: the frequency array of one octave layer. *)
Definition frequency (g : config) (octave_index : nat) (num_samples : nat) : list R :=
  let octave_freq := base_frequency g * 2 ^ octave_index in
  match dir g with
  | Up =>
      map (fun t => octave_freq * pow2 (t / duration_seconds g * rise_rate g))
        (time_array g num_samples)
  | Down =>
      map (fun t => octave_freq * pow2 (- t / duration_seconds g * rise_rate g))
        (time_array g num_samples)
  end.

(** Line 91: where the frequency stands in the band of all octaves. *)
Definition freq_position (g : config) (f : R) : R :=
  np_mod (np_log2 (f / base_frequency g)) (IZR (num_octaves g)) / IZR (num_octaves g).

Definition generate_shepard_layer (g : config) (octave_index : nat) (num_samples : nat)
  : list R :=
  let freqs := frequency g octave_index num_samples in
  let phase := map (fun c => 2 * PI * c / IZR (sample_rate g)) (cumsum freqs) in
  let wave := map sin phase in
  let envelope := map (fun f => gaussian_envelope (freq_position g f) 0.5 0.3) freqs in
  vmul wave envelope.

(** [generate] up to the normalised output (conversion to 16 bits and the
    export are left out). *)
Definition generate (g : config) : result (list npfloat) :=
  let num_samples := py_int (duration_seconds g * IZR (sample_rate g)) in
  mix_and_normalize normalize_shepard num_samples
    (map (fun octave =>
            Ok (map (fun v => v / IZR (num_octaves g))
                  (generate_shepard_layer g (Z.to_nat octave) (Z.to_nat num_samples))))
       (range (num_octaves g))).

End Shepard.

(** *** backup.py: the pitch-ramp script *)
Module PitchRamp.

(** The body of [for ramp in ramps] for one ramp [[f0, f1, duration, amp]],
    up to the signal handed to the writer. *)
Definition signal (sr : Z) (f0 f1 duration amp : R) : result (list R) :=
  let n := py_int (IZR sr * duration) in
  if (n <? 0)%Z then Raise ValueError else
  let t := linspace 0 duration (Z.to_nat n) in
  let freqs := linspace f0 f1 (length t) in
  let phase := map (fun c => 2 * PI * c / IZR sr) (cumsum freqs) in
  Ok (map (fun p => amp * sin p) phase).

End PitchRamp.

(** *** backup.py: the tempo-ramp beep generators *)
Module TempoRamp.

(** [np.hanning(M)]. *)
Definition np_hanning (M : nat) : list R :=
  match M with
  | O => []
  | S O => [1]
  | _ => map (fun n => 0.5 - 0.5 * cos (2 * PI * INR n / INR (M - 1))) (seq 0 M)
  end.

(** The beep: a sine burst under a Hann window. *)
Definition make_beep (beep_freq beep_duration : R) (beep_samples : Z) : result (list R) :=
  if (beep_samples <? 0)%Z then Raise ValueError else
  let t_beep := linspace_open 0 beep_duration (Z.to_nat beep_samples) in
  let beep := map (fun x => sin (2 * PI * beep_freq * x)) t_beep in
  Ok (vmul beep (np_hanning (Z.to_nat beep_samples))).

(** The state of the accumulator loop; [beeps] lists the sample indices a
    beep was stamped at (not in the source, recorded by the model). *)
Record ramp_state : Type := mk_ramp {
  phase : R;
  signal : list R;
  beeps : list Z
}.

(** The body of [for i in range(len(t))]. *)
Definition ramp_step (beep : list R) (beep_samples sample_rate : Z)
  (st : ramp_state) (i : Z) (bpm_i : R) : result ramp_state :=
  let phase' := phase st + bpm_i / 60 / IZR sample_rate in
  if Rle_dec 1 phase' then
    let stop := Z.min (i + beep_samples) (Z.of_nat (length (signal st))) in
    signal' <- slice_iadd (signal st) i stop (py_prefix beep (stop - i)) ;;
    Ok (mk_ramp (phase' - 1) signal' (beeps st ++ [i]))
  else Ok (mk_ramp phase' (signal st) (beeps st)).

Fixpoint ramp_loop (beep : list R) (beep_samples sample_rate : Z)
  (st : ramp_state) (i : Z) (bpm : list R) : result ramp_state :=
  match bpm with
  | [] => Ok st
  | bpm_i :: rest =>
      st' <- ramp_step beep beep_samples sample_rate st i bpm_i ;;
      ramp_loop beep beep_samples sample_rate st' (i + 1) rest
  end.

(** The synthesis shared by [generate_ramp] and the two scripts, up to the
    normalisation: the beep, the BPM ramp and the accumulator loop. *)
Definition ramp_signal (bpm_start bpm_end duration beep_freq beep_duration : R)
  (sample_rate : Z) : result ramp_state :=
  let beep_samples := py_int (beep_duration * IZR sample_rate) in
  beep <- make_beep beep_freq beep_duration beep_samples ;;
  let n := py_int (IZR sample_rate * duration) in
  if (n <? 0)%Z then Raise ValueError else
  let t := linspace 0 duration (Z.to_nat n) in
  let bpm := linspace bpm_start bpm_end (length t) in
  ramp_loop beep beep_samples sample_rate
    (mk_ramp 0 (repeat 0 (length t)) []) 0 bpm.

(** [generate_ramp] (line 408), normalised with the guard of line 430. *)
Definition generate_ramp (bpm_start bpm_end duration beep_freq beep_duration : R)
  (sample_rate : Z) : result (list npfloat) :=
  st <- ramp_signal bpm_start bpm_end duration beep_freq beep_duration sample_rate ;;
  normalize_guarded (signal st).

(** The body of [for bpm0, bpm1 in tempo_ranges] of the older script
    (line 300), normalised as on line 314. *)
Definition tempo_ramp_script (bpm0 bpm1 duration beep_freq beep_duration : R) (sr : Z)
  : result (list npfloat) :=
  st <- ramp_signal bpm0 bpm1 duration beep_freq beep_duration sr ;;
  normalize_unguarded (signal st).

End TempoRamp.

(** *** backup.py and risset_rhythm_generator.py: the loop-based generators

    [RissetRhythmGenerator.generate_layer] and
    [ClassicRissetRhythm.generate_voice] overlay a drum pattern that pydub
    speeds up; the model keeps their arithmetic: the tempo range of a layer,
    the tempo and speed factor at a progress, the volume in decibels. *)
Module RissetRhythm.

Inductive direction : Type := Accelerating | Decelerating.

(** [start_tempo, end_tempo] of [generate_layer] (backup.py lines 111-119);
    [2 ** k] on integers is a float for a negative [k]. *)
Definition tempo_range (base_tempo : R) (num_layers : Z) (d : direction)
  (layer_index : Z) : R * R :=
  match d with
  | Accelerating =>
      (base_tempo * powerRZ 2 layer_index, base_tempo * powerRZ 2 (layer_index + 1))
  | Decelerating =>
      (base_tempo * powerRZ 2 (num_layers - layer_index),
       base_tempo * powerRZ 2 (num_layers - layer_index - 1))
  end.

(** [start_tempo, end_tempo] of [generate_voice]
    (risset_rhythm_generator.py lines 134-135). *)
Definition voice_tempo_range (base_tempo : R) (voice_index : Z) : R * R :=
  (base_tempo * powerRZ 2 voice_index, base_tempo * powerRZ 2 (voice_index + 1)).

(** [current_tempo = start_tempo + (end_tempo - start_tempo) * progress]. *)
Definition current_tempo (start_tempo end_tempo progress : R) : R :=
  start_tempo + (end_tempo - start_tempo) * progress.

(** [speed_factor = current_tempo / self.base_tempo]. *)
Definition speed_factor (base_tempo start_tempo end_tempo progress : R) : result R :=
  float_div (current_tempo start_tempo end_tempo progress) base_tempo.

(** [make_kick] (backup.py lines 44-54, risset_rhythm_generator.py lines
    67-83) up to the normalised kick: a sine on a falling frequency under a
    decaying envelope, divided by its peak and scaled to 0.8 (the formula
    of [normalize_shepard]).  The conversion to 16 bits and the round trip
    through a file are left out. *)
Definition make_kick (sample_rate : Z) (duration_ms : R) : result (list npfloat) :=
  let duration_samples := py_int (duration_ms / 1000 * IZR sample_rate) in
  if (duration_samples <? 0)%Z then Raise ValueError else
  let t := linspace 0 (duration_ms / 1000) (Z.to_nat duration_samples) in
  let freq := map (fun x => 150 * exp (- x * 10)) t in
  let phase := map (fun c => 2 * PI * c / IZR sample_rate) (cumsum freq) in
  let envelope := map (fun x => exp (- x * 7)) t in
  let kick := vmul (map sin phase) envelope in
  normalize_shepard kick.

(** The volume of a pattern in decibels (backup.py lines 138-149):
    [20 * np.log10(volume)] if the linear fade is positive, [-100] if not. *)
Definition volume_db (progress : R) : R :=
  let volume := linear_fade progress in
  if Rlt_dec 0 volume then 20 * (ln volume / ln 10) else -100.

End RissetRhythm.

(** *** Data Analysis.py: normalising the ratings of one participant *)
Module DataAnalysis.

(** [row.min()] and [row.max()] of a row with first entry [x]. *)
Definition row_min (x : R) (xs : list R) : R := fold_left Rmin xs x.
Definition row_max (x : R) (xs : list R) : R := fold_left Rmax xs x.

(** The body of [for index, row in df.iterrows()] (lines 392-401), on a
    row that is not empty, before the rounding to two decimals. *)
Definition normalize_row (x : R) (xs : list R) : list R :=
  let min_val := row_min x xs in
  let max_val := row_max x xs in
  if Req_dec_T (max_val - min_val) 0 then map (fun _ => 0) (x :: xs)
  else map (fun v => (v - min_val) / (max_val - min_val) * 10) (x :: xs).

End DataAnalysis.

(** *** Audio Rating.py: the rating application *)
Module AudioRating.

(** The summary [save_ratings] writes (lines 332-335): nothing when no file
    is loaded (the function returns on line 303), else the average, the
    highest and the lowest rating. *)
Definition summary (ratings : list R) : option (R * R * R) :=
  match ratings with
  | [] => None
  | r :: rs =>
      Some (fold_left Rplus ratings 0 / INR (length ratings),
            fold_left Rmax rs r, fold_left Rmin rs r)
  end.

(** What [toggle_play] reads and writes: the index that plays, the button
    of each file ([true] when it shows the pause sign), and what the mixer
    plays. *)
Record player : Type := mk_player {
  current_playing : option nat;
  pause_shown : list bool;
  mixer_busy : option nat
}.

(** [widgets[i]['play_btn'].config(text=...)]. *)
Fixpoint set_button (buttons : list bool) (i : nat) (b : bool) : list bool :=
  match buttons, i with
  | [], _ => []
  | _ :: rest, O => b :: rest
  | x :: rest, S i' => x :: set_button rest i' b
  end.

(** [toggle_play(index)] (lines 256-283): the new state and whether the
    error box was shown.  There is one widget per file, so the length of
    [pause_shown] is the number of files; [loads i] tells whether the mixer
    can load file [i]; an index past the list raises on the first line, and
    every exception ends in the error box with the state as it was left. *)
Definition toggle_play (loads : nat -> bool) (index : nat) (s : player) : player * bool :=
  if Nat.ltb index (length (pause_shown s)) then
    let s1 :=
      match current_playing s with
      | Some c =>
          if Nat.eqb c index then Some s
          else if Nat.ltb c (length (pause_shown s)) then
                 Some (mk_player (current_playing s)
                         (set_button (pause_shown s) c false) None)
               else None
      | None => Some s
      end in
    match s1 with
    | None => (mk_player (current_playing s) (pause_shown s) None, true)
    | Some s1 =>
        match current_playing s1 with
        | Some c =>
            if Nat.eqb c index then
              (mk_player None (set_button (pause_shown s1) index false) None, false)
            else if loads index then
              (mk_player (Some index) (set_button (pause_shown s1) index true)
                 (Some index), false)
            else (s1, true)
        | None =>
            if loads index then
              (mk_player (Some index) (set_button (pause_shown s1) index true)
                 (Some index), false)
            else (s1, true)
        end
    end
  else (s, true).

(** [check_audio_end(index)] (lines 285-291), one poll. *)
Definition check_audio_end (index : nat) (s : player) : player :=
  match mixer_busy s, current_playing s with
  | None, Some c =>
      if Nat.eqb c index then
        mk_player None (set_button (pause_shown s) index false) None
      else s
  | _, _ => s
  end.

End AudioRating.

(** ** Notions the properties are stated with *)

(** The player of the rating application is consistent when the file
    recorded as playing exists and a button shows the pause sign exactly
    when its file is that one. *)
Definition player_consistent (s : AudioRating.player) : Prop :=
  (forall c, AudioRating.current_playing s = Some c ->
             (c < length (AudioRating.pause_shown s))%nat)
  /\ (forall j, (j < length (AudioRating.pause_shown s))%nat ->
        (nth j (AudioRating.pause_shown s) false = true
         <-> AudioRating.current_playing s = Some j)).

(** The peak of a buffer: the largest absolute value of its samples. *)
Definition peak (l : list R) : R := fold_right Rmax 0 (map Rabs l).

(** The sample-wise sum of layers of [n] samples. *)
Definition layer_sum (n : nat) (layers : list (list R)) : list R :=
  fold_left vadd layers (repeat 0 n).

(** Onset times in strictly increasing order. *)
Definition strictly_increasing (ts : list R) : Prop :=
  forall i j, (i < j < length ts)%nat -> nth i ts 0 < nth j ts 0.

(** Onset times that are not on a fixed grid: two of the gaps between
    successive onsets differ. *)
Definition non_uniform (ts : list R) : Prop :=
  exists i j, (S i < length ts)%nat /\ (S j < length ts)%nat /\
    nth (S i) ts 0 - nth i ts 0 <> nth (S j) ts 0 - nth j ts 0.

(** The onsets an event clock with rate law [law] produces from cursor [t]
    on, up to [duration]: the trace the loop of [generate_layer] leaves. *)
Inductive onsets_from (law : R -> result (R * R)) (duration : R)
  : R -> list onset -> Prop :=
| onsets_done : forall t, ~ t < duration -> onsets_from law duration t []
| onsets_step : forall t interval gain rest,
    t < duration ->
    law t = Ok (interval, gain) ->
    onsets_from law duration (t + interval) rest ->
    onsets_from law duration t (mk_onset t gain :: rest).

(** The cyclic phase the loop body of risset_true_cyclical.py computes at
    cursor [t] (when [cycle_duration] is not zero). *)
Definition cyclic_phase (phase_offset cycle_duration direction t : R) : R :=
  float_mod1 (direction * t / cycle_duration + phase_offset).

(** The gains of the onsets that fall in the window [[a, b)]. *)
Definition in_window (a b : R) (o : onset) : bool :=
  if Rle_dec a (onset_time o) then
    if Rlt_dec (onset_time o) b then true else false
  else false.

Definition gains_in (a b : R) (tr : list onset) : list R :=
  map onset_gain (filter (in_window a b) tr).

(** Two gain sequences that agree, entry by entry, within a tolerance. *)
Definition gains_agree (tol : R) (g1 g2 : list R) : Prop :=
  Forall2 (fun x y => Rabs (x - y) <= tol) g1 g2.

(** *** The event clock of the specification, for the linear BPM law

    A second definition, written after the specification's section 4.3 and
    not after the code, to compare the tempo-ramp generator with: the cursor
    starts at [t = 0]; at each step a unit-gain onset is stamped at [t] and
    the cursor advances by [1 / freq(t)], with [freq(t) = bpm(t) / 60] and
    [bpm] interpolating linearly over the duration; the loop ends when
    [t >= duration]. *)
Definition spec_linear_bpm_law (bpm_start bpm_end duration : R) (t : R)
  : result (R * R) :=
  progress <- float_div t duration ;;
  let bpm := bpm_start + (bpm_end - bpm_start) * progress in
  interval <- float_div 1 (bpm / 60) ;;
  Ok (interval, 1).

Fixpoint spec_event_clock (law : R -> result (R * R)) (duration : R)
  (fuel : nat) (t : R) : result (list onset) :=
  match fuel with
  | O => OutOfFuel
  | S fuel' =>
      if Rlt_dec t duration then
        '(interval, gain) <- law t ;;
        rest <- spec_event_clock law duration fuel' (t + interval) ;;
        Ok (mk_onset t gain :: rest)
      else Ok []
  end.

(** The beat count the tempo ramp has integrated after its first [k]
    samples: the sum of the per-sample increments [bpm[i] / 60 / sample_rate]. *)
Definition beats (sample_rate : Z) (bpm : list R) (k : nat) : R :=
  fold_right Rplus 0 (map (fun b => b / 60 / IZR sample_rate) (firstn k bpm)).

(** Beeps of the generator and onsets of the clock that match: as many of
    the one as of the other, each beep within one sample of its onset, and
    every onset of gain 1. *)
Definition onsets_match (sample_rate : Z) (beeps : list Z) (spec : list onset) : Prop :=
  Forall2 (fun i o =>
             Rabs (IZR i - onset_time o * IZR sample_rate) <= 1 /\ onset_gain o = 1)
    beeps spec.

(** *** The range in which the reals stand for the program's doubles

    The model computes in exact reals.  Two things a double does and a
    real does not would change what the event clock does, and not merely
    round it: a rate beyond the largest double is [inf], whose reciprocal
    [0.0] stalls the cursor; and an interval far below the last bit of the
    cursor is absorbed by [t += interval].  The theorems on the progress of
    the clock are stated for rates inside the range below. *)

(** The largest finite double. *)
Definition DBL_MAX : R := (2 - / 2 ^ 52) * 2 ^ 1023.

(** A clock whose rate stays below [max_rate]: that rate is a finite
    double, and at that rate the duration holds at most [2 ^ 50] events. *)
Definition clock_in_range (max_rate total_duration : R) : Prop :=
  max_rate <= DBL_MAX /\ max_rate * total_duration <= 2 ^ 50.

(** The range of a layer in which every double the generator computes is a
    finite number: besides the clock's range, the cursor divided by the
    cycle length stays finite (going forwards up to the duration, going
    backwards until the interval is absorbed), the buffer, the sample rate
    and the layer count are at most [2 ^ 50], and the layer is one of the
    mix, so that [2 ** (layer_index / num_layers)] is below 2.  For the
    generators without a cycle the duration stands for the cycle length. *)
Definition layer_in_range (max_rate total_duration cycle_duration : R)
  (layer_index num_layers sample_rate : Z) : Prop :=
  clock_in_range max_rate total_duration
  /\ 1 <= 2 ^ 50 * (max_rate * Rabs cycle_duration)
  /\ total_duration <= 2 ^ 50 * Rabs cycle_duration
  /\ total_duration * IZR sample_rate <= 2 ^ 50
  /\ IZR sample_rate <= 2 ^ 50
  /\ (0 <= layer_index < num_layers)%Z
  /\ IZR num_layers <= 2 ^ 50.

(** The rounding an accumulator may have gathered over [n] additions of
    increments below 1. *)
Definition rounding_margin (n : nat) : R := INR n / 2 ^ 50.

(** The partial beat counts of a ramp keep the distance [margin] from the
    whole numbers: after each sample the integrated count is neither within
    [margin] below an integer nor within [margin] above one.  With [margin]
    above the rounding gathered so far, the accumulator of the program
    wraps on the same samples as the one of the model. *)
Definition clear_of_integers (margin : R) (sample_rate : Z) (bpm : list R) : Prop :=
  forall k, (1 <= k <= length bpm)%nat ->
    margin <= float_mod1 (beats sample_rate bpm k) <= 1 - margin.

(** The range of an octave layer of the Shepard tone in which its
    frequencies, their logarithms and their running sum are finite doubles
    away from 0. *)
Definition sweep_in_range (g : Shepard.config) (octave_index num_samples : nat)
  : Prop :=
  1e-100 <= Shepard.base_frequency g <= 1e100
  /\ 1e-100 <= Rabs (Shepard.duration_seconds g) <= 1e100
  /\ Rabs (Shepard.rise_rate g) <= 100
  /\ (0 < Shepard.sample_rate g)%Z /\ IZR (Shepard.sample_rate g) <= 2 ^ 50
  /\ Shepard.num_octaves g <> 0%Z /\ Rabs (IZR (Shepard.num_octaves g)) <= 2 ^ 50
  /\ (octave_index <= 100)%nat
  /\ INR num_samples <= 2 ^ 50.

(** * Proofs *)

(** ** The runtime *)

Lemma float_div_ok (x y : R) : y <> 0 -> float_div x y = Ok (x / y).
Proof.
  intros Hy. unfold float_div. destruct (Req_dec_T y 0) as [E | _]; [contradiction | reflexivity].
Qed.

Lemma float_div_zero (x : R) : float_div x 0 = Raise ZeroDivisionError.
Proof.
  unfold float_div. destruct (Req_dec_T 0 0) as [_ | N]; [reflexivity | exfalso; apply N; reflexivity].
Qed.

Lemma float_mod1_range (x : R) : 0 <= float_mod1 x < 1.
Proof.
  unfold float_mod1. pose proof (Zfloor_bound x) as [H1 H2]. lra.
Qed.

Lemma float_mod1_shift (x : R) (k : Z) : float_mod1 (x + IZR k) = float_mod1 x.
Proof.
  unfold float_mod1. rewrite Zfloor_addz, plus_IZR. lra.
Qed.

Lemma float_mod1_small (x : R) : 0 <= x < 1 -> float_mod1 x = x.
Proof.
  intros H. unfold float_mod1.
  rewrite (Zfloor_eq 0 x); simpl; lra.
Qed.

Lemma py_int_nonneg (x : R) : 0 <= x -> py_int x = Zfloor x.
Proof.
  intros H. unfold py_int. destruct (Rle_dec 0 x); [reflexivity | contradiction].
Qed.

Lemma py_int_IZR (z : Z) : py_int (IZR z) = z.
Proof.
  unfold py_int. destruct (Rle_dec 0 (IZR z)).
  - apply ZfloorZ.
  - rewrite <- opp_IZR, ZfloorZ. lia.
Qed.

Lemma pow2_pos (x : R) : 0 < pow2 x.
Proof. unfold pow2, Rpower. apply exp_pos. Qed.

Lemma pow2_0 : pow2 0 = 1.
Proof. unfold pow2. apply Rpower_O. lra. Qed.

Lemma pow2_1 : pow2 1 = 2.
Proof. unfold pow2. apply Rpower_1. lra. Qed.

Lemma pow2_lt (x y : R) : x < y -> pow2 x < pow2 y.
Proof. intros H. unfold pow2. apply Rpower_lt; lra. Qed.

Lemma pow2_le (x y : R) : x <= y -> pow2 x <= pow2 y.
Proof. intros H. unfold pow2. apply Rle_Rpower; lra. Qed.

(** ** Envelopes *)

Lemma gaussian_range (x center width : R) :
  width <> 0 -> 0 < gaussian_envelope x center width <= 1.
Proof.
  intros Hw. unfold gaussian_envelope. split; [apply exp_pos |].
  rewrite <- exp_0.
  assert (Hden : 0 < 2 * width ^ 2).
  { pose proof (pow2_ge_0 width) as Hw2.
    assert (width ^ 2 <> 0) by (apply pow_nonzero; exact Hw). lra. }
  assert (Hnum : 0 <= (x - center) ^ 2) by apply pow2_ge_0.
  assert (H : - (x - center) ^ 2 / (2 * width ^ 2) <= 0).
  { unfold Rdiv. assert (0 < / (2 * width ^ 2)) by (apply Rinv_0_lt_compat; exact Hden). nra. }
  destruct H as [H | H]; [left; apply exp_increasing; exact H | rewrite H; right; reflexivity].
Qed.

Lemma gaussian_center (center width : R) : gaussian_envelope center center width = 1.
Proof.
  unfold gaussian_envelope.
  replace (- (center - center) ^ 2 / (2 * width ^ 2)) with 0; [apply exp_0 |].
  unfold Rdiv. ring.
Qed.

Lemma sine_fade_range (x : R) : 0 <= x <= 1 -> 0 <= sine_fade x <= 1.
Proof.
  intros [H0 H1]. unfold sine_fade. pose proof PI_RGT_0 as Hpi. split.
  - apply sin_ge_0; nra.
  - pose proof (SIN_bound (PI * x)); lra.
Qed.

Lemma sine_fade_0 : sine_fade 0 = 0.
Proof. unfold sine_fade. rewrite Rmult_0_r. apply sin_0. Qed.

Lemma sine_fade_1 : sine_fade 1 = 0.
Proof. unfold sine_fade. rewrite Rmult_1_r. apply sin_PI. Qed.

Lemma sine_fade_half : sine_fade (1 / 2) = 1.
Proof.
  unfold sine_fade. replace (PI * (1 / 2)) with (PI / 2) by lra. apply sin_PI2.
Qed.

Lemma linear_fade_range (x : R) : 0 <= x <= 1 -> 0 <= linear_fade x <= 1.
Proof.
  intros [H0 H1]. unfold linear_fade.
  destruct (Rlt_dec x 0.25); [lra |].
  destruct (Rlt_dec 0.75 x); lra.
Qed.

Lemma np_clip_unit (x : R) : 0 <= np_clip x 0 1 <= 1.
Proof.
  unfold np_clip. unfold Rmin, Rmax.
  destruct (Rle_dec x 0); destruct (Rle_dec _ 1); lra.
Qed.

Lemma smoothed_gate_range (x k : R) : 0 <= smoothed_gate x k <= 1.
Proof.
  unfold smoothed_gate.
  pose proof (np_clip_unit (x * k)). pose proof (np_clip_unit ((1 - x) * k)). nra.
Qed.

(** ** Arrays *)

Lemma cumsum_from_length (l : list R) : forall acc, length (cumsum_from acc l) = length l.
Proof. induction l as [| x xs IH]; intros acc; simpl; [reflexivity | now rewrite IH]. Qed.

Lemma cumsum_from_nth (l : list R) :
  forall acc i, (i < length l)%nat ->
    nth i (cumsum_from acc l) 0 = acc + sum_f_R0 (fun k => nth k l 0) i.
Proof.
  induction l as [| x xs IH]; intros acc i Hi; simpl in Hi; [lia |].
  destruct i as [| i].
  - simpl. reflexivity.
  - change (nth (S i) (cumsum_from acc (x :: xs)) 0)
      with (nth i (cumsum_from (acc + x) xs) 0).
    rewrite IH by lia.
    rewrite (decomp_sum (fun k => nth k (x :: xs) 0) (S i)) by lia.
    cbn [nth Nat.pred]. lra.
Qed.

Lemma vmul_length (a b : list R) : length a = length b -> length (vmul a b) = length a.
Proof.
  revert b. induction a as [| x xs IH]; intros [| y ys] H; simpl in *; try lia.
  now rewrite IH by lia.
Qed.

Lemma vmul_nth (a b : list R) :
  forall i, length a = length b -> (i < length a)%nat ->
    nth i (vmul a b) 0 = nth i a 0 * nth i b 0.
Proof.
  revert b. induction a as [| x xs IH]; intros [| y ys] i H Hi; simpl in *; try lia.
  destruct i; [reflexivity | apply IH; lia].
Qed.

Lemma vadd_length (a b : list R) : length a = length b -> length (vadd a b) = length a.
Proof.
  revert b. induction a as [| x xs IH]; intros [| y ys] H; simpl in *; try lia.
  now rewrite IH by lia.
Qed.

Lemma linspace_length (a b : R) (n : nat) : length (linspace a b n) = n.
Proof. unfold linspace. now rewrite length_map, length_seq. Qed.

Lemma linspace_open_length (a b : R) (n : nat) : length (linspace_open a b n) = n.
Proof. unfold linspace_open. now rewrite length_map, length_seq. Qed.

(** A list is the table of its entries. *)
Lemma list_as_table (l : list R) (n : nat) (f : nat -> R) :
  length l = n -> (forall i, (i < n)%nat -> nth i l 0 = f i) -> l = map f (seq 0 n).
Proof.
  intros Hlen Hnth. apply (nth_ext _ _ 0 0).
  - now rewrite length_map, length_seq.
  - intros i Hi. rewrite Hlen in Hi. rewrite Hnth by exact Hi.
    rewrite (nth_indep _ 0 (f 0%nat)) by (rewrite length_map, length_seq; exact Hi).
    rewrite map_nth, seq_nth by exact Hi. reflexivity.
Qed.

Lemma map_nth_in (A : Type) (f : A -> R) (l : list A) (d : A) (i : nat) :
  (i < length l)%nat -> nth i (map f l) 0 = f (nth i l d).
Proof.
  intros Hi. rewrite (nth_indep _ 0 (f d)) by (rewrite length_map; exact Hi).
  apply map_nth.
Qed.

(** The oscillator skeleton shared by the Shepard layer and the pitch ramp:
    sample [i] is the sine of the integrated frequency. *)
Lemma integrated_phase_nth (freqs : list R) (sr : R) (i : nat) :
  (i < length freqs)%nat ->
  nth i (map sin (map (fun c => 2 * PI * c / sr) (cumsum freqs))) 0 =
  sin (2 * PI * sum_f_R0 (fun k => nth k freqs 0) i / sr).
Proof.
  intros Hi. unfold cumsum.
  rewrite (map_nth_in _ sin _ 0) by (rewrite length_map, cumsum_from_length; exact Hi).
  rewrite (map_nth_in _ _ _ 0) by (rewrite cumsum_from_length; exact Hi).
  rewrite cumsum_from_nth by exact Hi. rewrite Rplus_0_l. reflexivity.
Qed.

Lemma shepard_frequency_length g octave n : length (Shepard.frequency g octave n) = n.
Proof.
  unfold Shepard.frequency, Shepard.time_array.
  destruct (Shepard.dir g); rewrite length_map; apply linspace_open_length.
Qed.

(** ** Peaks and maxima *)

Lemma fold_left_Rmax_ge (l : list R) : forall a, a <= fold_left Rmax l a.
Proof.
  induction l as [| x xs IH]; intros a; simpl; [lra |].
  eapply Rle_trans; [apply (Rmax_l a x) | apply IH].
Qed.

Lemma fold_left_Rmax_upper (l : list R) :
  forall a x, In x l -> x <= fold_left Rmax l a.
Proof.
  induction l as [| y ys IH]; intros a x Hin; [contradiction |].
  simpl. destruct Hin as [-> | Hin].
  - eapply Rle_trans; [apply (Rmax_r a x) | apply fold_left_Rmax_ge].
  - apply IH; exact Hin.
Qed.

Lemma fold_left_Rmax_in (l : list R) : forall a, In (fold_left Rmax l a) (a :: l).
Proof.
  induction l as [| y ys IH]; intros a; simpl; [left; reflexivity |].
  destruct (IH (Rmax a y)) as [H | H].
  - unfold Rmax in H at 1. destruct (Rle_dec a y); rewrite <- H; auto.
  - right; right; exact H.
Qed.

Lemma peak_nonneg (l : list R) : 0 <= peak l.
Proof.
  unfold peak. induction l as [| x xs IH]; simpl; [lra |].
  eapply Rle_trans; [exact IH | apply Rmax_r].
Qed.

Lemma peak_upper (l : list R) (x : R) : In x l -> Rabs x <= peak l.
Proof.
  unfold peak. induction l as [| y ys IH]; intros Hin; [contradiction |].
  simpl. destruct Hin as [-> | Hin].
  - apply Rmax_l.
  - eapply Rle_trans; [apply IH; exact Hin | apply Rmax_r].
Qed.

Lemma peak_attained (l : list R) : l <> [] -> exists x, In x l /\ peak l = Rabs x.
Proof.
  unfold peak. induction l as [| y ys IH]; intros Hne; [contradiction |].
  destruct ys as [| z zs].
  - exists y. split; [left; reflexivity |]. simpl.
    rewrite Rmax_left; [reflexivity | apply Rabs_pos].
  - destruct IH as [x [Hin Hx]]; [discriminate |].
    change (fold_right Rmax 0 (map Rabs (y :: z :: zs)))
      with (Rmax (Rabs y) (fold_right Rmax 0 (map Rabs (z :: zs)))).
    rewrite Hx. unfold Rmax. destruct (Rle_dec (Rabs y) (Rabs x)).
    + exists x. split; [right; exact Hin | reflexivity].
    + exists y. split; [left; reflexivity | reflexivity].
Qed.

Lemma peak_zero_iff (l : list R) : peak l = 0 <-> Forall (fun x => x = 0) l.
Proof.
  split.
  - intros H. apply Forall_forall. intros x Hin.
    pose proof (peak_upper l x Hin) as Hu. pose proof (Rabs_pos x) as Hp.
    assert (Rabs x = 0) by lra.
    destruct (Req_dec x 0) as [E | N]; [exact E |].
    apply Rabs_no_R0 in N. contradiction.
  - intros H. unfold peak. induction H as [| x xs Hx _ IH]; simpl; [reflexivity |].
    rewrite IH, Hx, Rabs_R0. apply Rmax_left. lra.
Qed.

(** The maximum numpy takes, with the guard added to every sample, is the
    peak plus the guard. *)
Lemma np_max_shifted_abs (l : list R) (eps : R) :
  l <> [] -> np_max (map (fun v => Rabs v + eps) l) = Ok (peak l + eps).
Proof.
  intros Hne. destruct l as [| x xs]; [contradiction |].
  cbn [map np_max]. f_equal.
  set (m := fold_left Rmax (map (fun v => Rabs v + eps) xs) (Rabs x + eps)).
  destruct (peak_attained (x :: xs) Hne) as [p [Hp Hpk]].
  apply Rle_antisym.
  - pose proof (fold_left_Rmax_in (map (fun v => Rabs v + eps) xs) (Rabs x + eps)) as Hin.
    fold m in Hin.
    assert (Hm : In m (map (fun v => Rabs v + eps) (x :: xs))) by exact Hin.
    apply in_map_iff in Hm. destruct Hm as [y [Hy Hyin]].
    pose proof (peak_upper (x :: xs) y Hyin). lra.
  - rewrite Hpk.
    destruct Hp as [<- | Hp].
    + apply fold_left_Rmax_ge.
    + apply fold_left_Rmax_upper. apply in_map_iff. exists p. split; [reflexivity | exact Hp].
Qed.

Lemma np_max_abs (l : list R) : l <> [] -> np_max (map Rabs l) = Ok (peak l).
Proof.
  intros Hne. pose proof (np_max_shifted_abs l 0 Hne) as H.
  rewrite Rplus_0_r in H. rewrite <- H. f_equal.
  apply map_ext. intros v. lra.
Qed.

Lemma Rmax_div (a b c : R) : 0 < c -> Rmax (a / c) (b / c) = Rmax a b / c.
Proof.
  intros Hc. assert (Hi : 0 < / c) by (apply Rinv_0_lt_compat; exact Hc).
  unfold Rmax, Rdiv.
  destruct (Rle_dec (a * / c) (b * / c)) as [H | H];
    destruct (Rle_dec a b) as [H' | H']; try reflexivity; exfalso.
  - apply H'. apply (Rmult_le_reg_r (/ c)); assumption.
  - apply H. apply Rmult_le_compat_r; lra.
Qed.

Lemma peak_scaled (l : list R) (c : R) :
  0 < c -> peak (map (fun v => v / c) l) = peak l / c.
Proof.
  intros Hc. unfold peak. induction l as [| x xs IH]; simpl.
  - unfold Rdiv. ring.
  - rewrite IH. replace (Rabs (x / c)) with (Rabs x / c).
    + apply Rmax_div. exact Hc.
    + unfold Rdiv. rewrite Rabs_mult. f_equal. symmetry. apply Rabs_pos_eq.
      left. apply Rinv_0_lt_compat. exact Hc.
Qed.

Lemma np_true_divide_finite (x d : R) : d <> 0 -> np_true_divide x d = Fin (x / d).
Proof.
  intros Hd. unfold np_true_divide. destruct (Req_dec_T d 0); [contradiction | reflexivity].
Qed.

Lemma np_true_divide_nan : np_true_divide 0 0 = NaN.
Proof.
  unfold np_true_divide.
  destruct (Req_dec_T 0 0) as [_ | N]; [| exfalso; apply N; reflexivity].
  reflexivity.
Qed.

(** ** Mixing *)

Lemma array_iadd_same_length (a b : list R) :
  length b = length a -> array_iadd a b = Ok (vadd a b).
Proof.
  intros H. unfold array_iadd. rewrite H, Nat.eqb_refl. reflexivity.
Qed.

Lemma layer_sum_length (layers : list (list R)) :
  forall mix n, length mix = n -> Forall (fun l => length l = n) layers ->
    length (fold_left vadd layers mix) = n.
Proof.
  induction layers as [| l ls IH]; intros mix n Hm Hall; simpl; [exact Hm |].
  inversion Hall as [| ? ? Hl Hls]; subst.
  apply IH; [| exact Hls]. rewrite vadd_length; lia.
Qed.

Lemma mix_into_layers (layers : list (list R)) :
  forall mix n, length mix = n -> Forall (fun l => length l = n) layers ->
    mix_into mix (map Ok layers) = Ok (fold_left vadd layers mix).
Proof.
  induction layers as [| l ls IH]; intros mix n Hm Hall; simpl; [reflexivity |].
  inversion Hall as [| ? ? Hl Hls]; subst.
  rewrite array_iadd_same_length by lia. simpl.
  apply (IH _ (length mix)); [| exact Hls]. rewrite vadd_length; lia.
Qed.

Lemma np_zeros_of_nat (n : nat) : np_zeros (Z.of_nat n) = Ok (repeat 0 n).
Proof.
  unfold np_zeros. destruct (Z.ltb_spec (Z.of_nat n) 0); [lia |].
  now rewrite Nat2Z.id.
Qed.

Lemma normalize_guarded_value (x : list R) :
  x <> [] ->
  normalize_guarded x = Ok (map Fin (map (fun v => v / (peak x + 1e-9)) x)).
Proof.
  intros Hne. unfold normalize_guarded. rewrite np_max_shifted_abs by exact Hne.
  simpl. f_equal. rewrite map_map. apply map_ext. intros v.
  apply np_true_divide_finite. pose proof (peak_nonneg x). lra.
Qed.

Lemma normalize_shepard_value (x : list R) :
  peak x <> 0 ->
  normalize_shepard x = Ok (map Fin (map (fun v => v / peak x * 0.8) x)).
Proof.
  intros Hpk. assert (Hne : x <> []) by (intros ->; apply Hpk; reflexivity).
  unfold normalize_shepard. rewrite np_max_abs by exact Hne.
  simpl. f_equal. rewrite map_map. apply map_ext. intros v.
  rewrite np_true_divide_finite by exact Hpk. reflexivity.
Qed.

(** ** Oscillator layers *)

(** C1. In both oscillator generators the phase of sample [i] is [2 * PI]
    times the running sum of the frequency samples [f 0 .. f i] over the
    sample rate, and the sample is the sine of that phase times its envelope
    value: the Gaussian of the frequency's position for the Shepard layer
    (exponential law), the constant amplitude for the pitch ramp (linear
    law). *)
Theorem phase_is_integrated_frequency
  (g : Shepard.config) (octave_index num_samples : nat)
  (sr : Z) (f0 f1 duration amp : R) :
  Shepard.generate_shepard_layer g octave_index num_samples =
    map (fun i =>
           sin (2 * PI
                * sum_f_R0 (fun k => nth k (Shepard.frequency g octave_index num_samples) 0) i
                / IZR (Shepard.sample_rate g))
           * gaussian_envelope
               (Shepard.freq_position g
                  (nth i (Shepard.frequency g octave_index num_samples) 0))
               0.5 0.3)
      (seq 0 num_samples)
  /\
  PitchRamp.signal sr f0 f1 duration amp =
    if (py_int (IZR sr * duration) <? 0)%Z then Raise ValueError
    else
      Ok (map (fun i =>
                 amp * sin (2 * PI
                            * sum_f_R0
                                (fun k => nth k (linspace f0 f1
                                                   (Z.to_nat (py_int (IZR sr * duration)))) 0) i
                            / IZR sr))
            (seq 0 (Z.to_nat (py_int (IZR sr * duration))))).
Proof.
  split.
  - pose proof (shepard_frequency_length g octave_index num_samples) as Hlen.
    unfold Shepard.generate_shepard_layer.
    set (freqs := Shepard.frequency g octave_index num_samples) in *.
    assert (Hw : length (map sin (map (fun c => 2 * PI * c / IZR (Shepard.sample_rate g))
                                    (cumsum freqs))) = num_samples).
    { unfold cumsum. now rewrite !length_map, cumsum_from_length. }
    apply list_as_table.
    + rewrite vmul_length; [exact Hw | now rewrite Hw, length_map].
    + intros i Hi.
      rewrite vmul_nth by (rewrite ?Hw, ?length_map; lia).
      rewrite integrated_phase_nth by lia.
      rewrite (map_nth_in _ _ _ 0) by lia. reflexivity.
  - unfold PitchRamp.signal.
    destruct (py_int (IZR sr * duration) <? 0)%Z; [reflexivity |].
    f_equal. rewrite linspace_length.
    set (n := Z.to_nat (py_int (IZR sr * duration))).
    set (freqs := linspace f0 f1 n).
    assert (Hlen : length freqs = n) by apply linspace_length.
    apply list_as_table.
    + unfold cumsum. now rewrite !length_map, cumsum_from_length.
    + intros i Hi.
      rewrite <- integrated_phase_nth by lia.
      rewrite <- map_map.
      rewrite (map_nth_in _ (fun p => amp * p) _ 0); [reflexivity |].
      unfold cumsum. rewrite !length_map, cumsum_from_length. lia.
Qed.

(** ** The mixer *)

Lemma mix_and_normalize_layers normalize (n : nat) (layers : list (list R)) :
  Forall (fun l => length l = n) layers ->
  mix_and_normalize normalize (Z.of_nat n) (map Ok layers) =
  normalize (layer_sum n layers).
Proof.
  intros Hall. unfold mix_and_normalize. rewrite np_zeros_of_nat. cbn [bind].
  rewrite (mix_into_layers layers (repeat 0 n) n); [reflexivity | apply repeat_length | exact Hall].
Qed.

Lemma layer_sum_nonempty (n : nat) (layers : list (list R)) :
  (0 < n)%nat -> Forall (fun l => length l = n) layers -> layer_sum n layers <> [].
Proof.
  intros Hn Hall E.
  pose proof (layer_sum_length layers (repeat 0 n) n (repeat_length _ _) Hall) as Hl.
  unfold layer_sum in E. rewrite E in Hl. simpl in Hl. lia.
Qed.

(** C2, as amended.  The mix of equal-length layers is their sample-wise
    sum divided by its peak [M] plus the guard [1e-9] (target peak 1): the
    output's peak is [M / (M + 1e-9)], so it never exceeds the target and
    falls short of it by [1e-9 / (M + 1e-9)].  The Shepard mixer, which has
    no guard and targets 0.8, reaches exactly 0.8 when the sum is not
    silent. *)
Theorem mixer_peak_below_target (n : nat) (layers : list (list R))
  (Hn : (0 < n)%nat) (Hlen : Forall (fun l => length l = n) layers) :
  let s := layer_sum n layers in
  let M := peak s in
  (mix_and_normalize normalize_guarded (Z.of_nat n) (map Ok layers) =
     Ok (map Fin (map (fun v => v / (M + 1e-9)) s))
   /\ peak (map (fun v => v / (M + 1e-9)) s) = M / (M + 1e-9)
   /\ peak (map (fun v => v / (M + 1e-9)) s) < 1
   /\ 1 - peak (map (fun v => v / (M + 1e-9)) s) = 1e-9 / (M + 1e-9))
  /\
  (M <> 0 ->
   mix_and_normalize normalize_shepard (Z.of_nat n) (map Ok layers) =
     Ok (map Fin (map (fun v => v / M * 0.8) s))
   /\ peak (map (fun v => v / M * 0.8) s) = 0.8).
Proof.
  intros s M.
  pose proof (layer_sum_nonempty n layers Hn Hlen) as Hne. fold s in Hne.
  pose proof (peak_nonneg s) as HM. fold M in HM.
  assert (Hpos : 0 < M + 1e-9) by lra.
  split; [split; [| split; [| split]] |].
  - rewrite mix_and_normalize_layers by exact Hlen. fold s.
    apply normalize_guarded_value. exact Hne.
  - apply peak_scaled. exact Hpos.
  - rewrite peak_scaled by exact Hpos. fold M.
    apply (Rmult_lt_reg_r (M + 1e-9)); [exact Hpos |].
    unfold Rdiv. rewrite Rmult_assoc, Rinv_l by lra. lra.
  - rewrite peak_scaled by exact Hpos. fold M. field. lra.
  - intros HM0. split.
    + rewrite mix_and_normalize_layers by exact Hlen. fold s.
      apply normalize_shepard_value. exact HM0.
    + assert (HMpos : 0 < M) by lra.
      rewrite (map_ext _ (fun v => v / (M / 0.8))) by (intros v; field; lra).
      rewrite peak_scaled by (apply Rdiv_lt_0_compat; lra).
      fold M. field. lra.
Qed.

Lemma mixer_peak_below_target_witness :
  let s := layer_sum 1 [[1]] in
  let M := peak s in
  (mix_and_normalize normalize_guarded (Z.of_nat 1) (map Ok [[1]]) =
     Ok (map Fin (map (fun v => v / (M + 1e-9)) s))
   /\ peak (map (fun v => v / (M + 1e-9)) s) = M / (M + 1e-9)
   /\ peak (map (fun v => v / (M + 1e-9)) s) < 1
   /\ 1 - peak (map (fun v => v / (M + 1e-9)) s) = 1e-9 / (M + 1e-9))
  /\
  (M <> 0 ->
   mix_and_normalize normalize_shepard (Z.of_nat 1) (map Ok [[1]]) =
     Ok (map Fin (map (fun v => v / M * 0.8) s))
   /\ peak (map (fun v => v / M * 0.8) s) = 0.8).
Proof.
  apply (mixer_peak_below_target 1 [[1]]).
  - lia.
  - constructor; [reflexivity | constructor].
Defined.

(** C2 as stated fails: one layer holding the single sample [1e-9] is
    non-empty and not silent, yet the normalised output peaks at one half,
    far from the target peak 1. *)
Lemma mixer_peak_counterexample :
  mix_and_normalize normalize_guarded 1 [Ok [1e-9]] = Ok [Fin (1 / 2)]
  /\ Rabs (peak [1 / 2] - 1) > 1e-6.
Proof.
  split.
  - assert (Hall : Forall (fun l : list R => length l = 1%nat) [[1e-9]])
      by (constructor; [reflexivity | constructor]).
    etransitivity; [exact (mix_and_normalize_layers normalize_guarded 1 [[1e-9]] Hall) |].
    rewrite normalize_guarded_value by discriminate.
    assert (Hpk : peak (layer_sum 1 [[1e-9]]) = 1e-9).
    { unfold peak, layer_sum. cbn [fold_left vadd repeat map fold_right].
      rewrite Rplus_0_l. rewrite Rabs_pos_eq by lra. apply Rmax_left. lra. }
    rewrite Hpk. unfold layer_sum. cbn [fold_left vadd repeat map].
    replace (1e-9 + 1e-9) with 2e-9 by lra.
    replace ((0 + 1e-9) / 2e-9) with (1 / 2) by lra. reflexivity.
  - unfold peak. cbn [map fold_right]. rewrite (Rabs_pos_eq (1 / 2)) by lra.
    rewrite Rmax_left by lra. rewrite Rabs_left by lra. lra.
Qed.

(** ** Envelopes *)

(** C8, as amended.  On [[0, 1]] every envelope returns a value in
    [[0, 1]]; the sine fade is 0 at both edges and 1 at the centre; the
    Gaussian is 1 at its centre, which is its maximum, and strictly positive
    everywhere, the edges included. *)
Theorem envelope_bounds (x : R) (Hx : 0 <= x <= 1) :
  (forall center width, width <> 0 ->
     0 < gaussian_envelope x center width <= 1
     /\ gaussian_envelope center center width = 1)
  /\ 0 <= sine_fade x <= 1
  /\ sine_fade 0 = 0 /\ sine_fade 1 = 0 /\ sine_fade (1 / 2) = 1
  /\ 0 <= linear_fade x <= 1
  /\ (forall k, 0 <= smoothed_gate x k <= 1).
Proof.
  repeat split; try (apply gaussian_range; assumption);
    try apply gaussian_center; try (apply sine_fade_range; exact Hx);
    try apply sine_fade_0; try apply sine_fade_1; try apply sine_fade_half;
    try (apply linear_fade_range; exact Hx); try apply smoothed_gate_range.
Qed.

Lemma envelope_bounds_witness :
  (forall center width, width <> 0 ->
     0 < gaussian_envelope (1 / 4) center width <= 1
     /\ gaussian_envelope center center width = 1)
  /\ 0 <= sine_fade (1 / 4) <= 1
  /\ sine_fade 0 = 0 /\ sine_fade 1 = 0 /\ sine_fade (1 / 2) = 1
  /\ 0 <= linear_fade (1 / 4) <= 1
  /\ (forall k, 0 <= smoothed_gate (1 / 4) k <= 1).
Proof. apply (envelope_bounds (1 / 4)). lra. Defined.

(** C8 as stated fails: the Gaussian envelope of the Shepard generator
    (centre 0.5, width 0.3) is not 0 at the edges of the domain. *)
Lemma gaussian_edges_counterexample :
  gaussian_envelope 0 0.5 0.3 <> 0 /\ gaussian_envelope 1 0.5 0.3 <> 0.
Proof.
  split; apply Rgt_not_eq; apply gaussian_range; lra.
Qed.

(** ** Slices and stamping *)

Lemma py_int_ge_0 (x : R) : 0 <= x -> (0 <= py_int x)%Z.
Proof.
  intros H. rewrite py_int_nonneg by exact H. apply (Zfloor_lub 0). exact H.
Qed.

Lemma py_int_le (x y : R) : 0 <= x -> x <= y -> (py_int x <= py_int y)%Z.
Proof.
  intros H0 Hxy. rewrite !py_int_nonneg by lra. apply Zfloor_le. exact Hxy.
Qed.

Lemma py_int_value (x : R) (z : Z) : 0 <= x -> IZR z <= x < IZR z + 1 -> py_int x = z.
Proof.
  intros H0 H. rewrite py_int_nonneg by exact H0. apply Zfloor_eq. exact H.
Qed.

Lemma slice_index_inside (n i : Z) : (0 <= i <= n)%Z -> slice_index n i = i.
Proof.
  intros H. unfold slice_index. destruct (Z.ltb_spec i 0); lia.
Qed.

Lemma py_prefix_length (l : list R) (k : Z) :
  (0 <= k <= Z.of_nat (length l))%Z -> py_prefix l k = firstn (Z.to_nat k) l.
Proof.
  intros H. unfold py_prefix, py_slice.
  rewrite (slice_index_inside _ 0) by lia.
  rewrite (slice_index_inside _ k) by lia.
  simpl. now rewrite Nat.sub_0_r.
Qed.

Lemma vadd_nth (a b : list R) :
  forall i, length a = length b -> (i < length a)%nat ->
    nth i (vadd a b) 0 = nth i a 0 + nth i b 0.
Proof.
  revert b. induction a as [| x xs IH]; intros [| y ys] i H Hi; simpl in *; try lia.
  destruct i; [reflexivity | apply IH; lia].
Qed.

(** Adding into a slice that lies inside the array: the array keeps its
    length, the samples outside the slice are untouched and those inside
    receive the right-hand side. *)
Lemma slice_iadd_inside (l v : list R) (start stop : Z) :
  (0 <= start <= stop)%Z -> (stop <= Z.of_nat (length l))%Z ->
  length v = Z.to_nat (stop - start) ->
  exists l',
    slice_iadd l start stop v = Ok l'
    /\ length l' = length l
    /\ (forall i, (Z.of_nat i < start \/ stop <= Z.of_nat i)%Z -> nth i l' 0 = nth i l 0)
    /\ (forall i, (start <= Z.of_nat i < stop)%Z ->
          nth i l' 0 = nth i l 0 + nth (i - Z.to_nat start) v 0).
Proof.
  intros Hs He Hv. unfold slice_iadd.
  rewrite (slice_index_inside _ start) by lia.
  rewrite (slice_index_inside _ stop) by lia.
  set (a := Z.to_nat start). set (b := Z.to_nat stop).
  assert (Hab : (a <= b <= length l)%nat) by (unfold a, b; lia).
  assert (Hlen : length v = (b - a)%nat) by (unfold a, b; lia).
  rewrite Hlen, Nat.eqb_refl.
  set (target := firstn (b - a) (skipn a l)).
  assert (Ht : length target = (b - a)%nat).
  { unfold target. rewrite length_firstn, length_skipn. lia. }
  eexists. split; [reflexivity |].
  assert (Hva : length (vadd target v) = (b - a)%nat) by (rewrite vadd_length; lia).
  split; [| split].
  - rewrite !length_app, length_firstn, length_skipn, Hva. lia.
  - intros i Hi. destruct Hi as [Hi | Hi].
    + rewrite app_nth1 by (rewrite length_firstn; lia).
      rewrite nth_firstn. destruct (Nat.ltb_spec i a); [reflexivity | lia].
    + rewrite app_nth2 by (rewrite length_firstn; lia).
      rewrite app_nth2 by (rewrite length_firstn, Hva; lia).
      rewrite length_firstn, Hva, nth_skipn. f_equal. lia.
  - intros i Hi.
    rewrite app_nth2 by (rewrite length_firstn; lia).
    rewrite app_nth1 by (rewrite length_firstn, Hva; lia).
    rewrite length_firstn.
    replace (i - Nat.min a (length l))%nat with (i - a)%nat by lia.
    rewrite vadd_nth by lia. f_equal.
    unfold target. rewrite nth_firstn.
    destruct (Nat.ltb_spec (i - a) (b - a)); [| lia].
    rewrite nth_skipn. f_equal. lia.
Qed.

(** Where an onset is stamped: for a cursor in [[0, duration)] the first
    index is inside the buffer and the last one is cut at its end. *)
Lemma stamp_indices (sample_rate : Z) (duration t : R) (hit_length : nat) :
  (0 < sample_rate)%Z -> 0 <= t < duration ->
  let samples := py_int (duration * IZR sample_rate) in
  let start := py_int (t * IZR sample_rate) in
  let stop := Z.min (start + Z.of_nat hit_length) samples in
  (0 <= start <= stop)%Z /\ (stop <= samples)%Z.
Proof.
  intros Hsr Ht samples start stop.
  assert (Hr : 0 < IZR sample_rate) by (apply IZR_lt; exact Hsr).
  assert (H0 : 0 <= t * IZR sample_rate) by nra.
  assert (H1 : t * IZR sample_rate <= duration * IZR sample_rate) by nra.
  pose proof (py_int_ge_0 _ H0). pose proof (py_int_le _ _ H0 H1).
  unfold stop, start, samples. lia.
Qed.

Lemma stamp_inside (sample_rate : Z) (duration t gain : R) (hit layer : list R) :
  (0 < sample_rate)%Z -> 0 <= t < duration ->
  Z.of_nat (length layer) = py_int (duration * IZR sample_rate) ->
  let samples := py_int (duration * IZR sample_rate) in
  let start := py_int (t * IZR sample_rate) in
  let stop := Z.min (start + Z.of_nat (length hit)) samples in
  exists layer',
    stamp sample_rate samples hit t gain layer = Ok layer'
    /\ length layer' = length layer
    /\ (forall i, (Z.of_nat i < start \/ stop <= Z.of_nat i)%Z ->
          nth i layer' 0 = nth i layer 0)
    /\ (forall i, (start <= Z.of_nat i < stop)%Z ->
          nth i layer' 0 = nth i layer 0 + nth (i - Z.to_nat start) hit 0 * gain).
Proof.
  intros Hsr Ht Hlayer samples start stop.
  destruct (stamp_indices sample_rate duration t (length hit) Hsr Ht) as [Hs He].
  fold samples start stop in Hs, He.
  unfold stamp. fold samples start stop.
  assert (Hk : (0 <= stop - start <= Z.of_nat (length hit))%Z) by (unfold stop in *; lia).
  rewrite py_prefix_length by exact Hk.
  destruct (slice_iadd_inside layer
              (map (fun h => h * gain) (firstn (Z.to_nat (stop - start)) hit))
              start stop Hs) as [layer' [E [Hlen [Hout Hin]]]].
  - rewrite Hlayer. exact He.
  - rewrite length_map, length_firstn. lia.
  - exists layer'. split; [exact E |]. split; [exact Hlen |]. split; [exact Hout |].
    intros i Hi. rewrite (Hin i Hi). f_equal.
    rewrite (map_nth_in _ (fun h => h * gain) _ 0) by (rewrite length_firstn; lia).
    rewrite nth_firstn.
    destruct (Nat.ltb_spec (i - Z.to_nat start) (Z.to_nat (stop - start))); [reflexivity | lia].
Qed.

(** ** The event clock *)

Lemma bind_ok (A B : Type) (m : result A) (k : A -> result B) (b : B) :
  bind m k = Ok b -> exists a, m = Ok a /\ k a = Ok b.
Proof.
  destruct m as [a | e |]; simpl; intros H; try discriminate.
  exists a. split; [reflexivity | exact H].
Qed.

Lemma nat_above (x : R) : exists k : nat, x <= INR k.
Proof.
  destruct (archimed x) as [Hup _].
  exists (Z.to_nat (up x)).
  destruct (Z.le_gt_cases 0 (up x)) as [H | H].
  - rewrite INR_IZR_INZ, Z2Nat.id by exact H. lra.
  - assert (IZR (up x) < 0) by (apply IZR_lt; lia).
    pose proof (pos_INR (Z.to_nat (up x))). lra.
Qed.

Section EventClockFacts.

Variable rate_law : R -> result (R * R).
Variable make_hit_call : result (list R).
Variable sample_rate : Z.
Variable total_duration : R.

Let samples := py_int (total_duration * IZR sample_rate).
Let body := loop_body rate_law make_hit_call sample_rate samples.
Let loop := while_loop rate_law make_hit_call sample_rate samples total_duration.

(** What a pass that does not raise has done. *)
Lemma loop_body_ok (st st' : loop_state) :
  body st = Ok st' ->
  exists interval gain hit,
    rate_law (cursor st) = Ok (interval, gain)
    /\ make_hit_call = Ok hit
    /\ stamp sample_rate samples hit (cursor st) gain (buffer st) = Ok (buffer st')
    /\ cursor st' = cursor st + interval
    /\ trace st' = trace st ++ [mk_onset (cursor st) gain].
Proof.
  unfold body, loop_body. intros H.
  apply bind_ok in H. destruct H as [[interval gain] [Hlaw H]].
  apply bind_ok in H. destruct H as [hit [Hhit H]].
  apply bind_ok in H. destruct H as [layer [Hstamp H]].
  injection H as <-. exists interval, gain, hit. simpl. auto.
Qed.

(** Every run that returns has left the trace the clock prescribes, and
    has left the loop because the cursor reached the duration. *)
Lemma while_loop_sound (fuel : nat) :
  forall st st', loop fuel st = Ok st' ->
    ~ cursor st' < total_duration
    /\ exists tr, trace st' = trace st ++ tr
                  /\ onsets_from rate_law total_duration (cursor st) tr.
Proof.
  induction fuel as [| fuel IH]; intros st st' H; [discriminate |].
  unfold loop in H. cbn [while_loop] in H.
  destruct (Rlt_dec (cursor st) total_duration) as [Hlt | Hge].
  - apply bind_ok in H. destruct H as [st1 [Hbody Hrest]].
    destruct (loop_body_ok st st1 Hbody) as [iv [g [hit [Hlaw [_ [_ [Hc Ht]]]]]]].
    destruct (IH st1 st' Hrest) as [Hexit [tr [Htr Hon]]].
    split; [exact Hexit |].
    exists (mk_onset (cursor st) g :: tr). split.
    + rewrite Htr, Ht, <- app_assoc. reflexivity.
    + eapply onsets_step; [exact Hlt | exact Hlaw |]. rewrite <- Hc. exact Hon.
  - injection H as <-. split; [exact Hge |].
    exists []. split; [now rewrite app_nil_r | constructor; exact Hge].
Qed.

Lemma while_loop_buffer_length (fuel : nat) :
  (0 < sample_rate)%Z ->
  forall st st', loop fuel st = Ok st' ->
    0 <= cursor st ->
    (forall t iv g, 0 <= t -> rate_law t = Ok (iv, g) -> 0 <= iv) ->
    Z.of_nat (length (buffer st)) = samples ->
    length (buffer st') = length (buffer st).
Proof.
  intros Hsr. induction fuel as [| fuel IH]; intros st st' H H0 Hpos Hlen; [discriminate |].
  unfold loop in H. cbn [while_loop] in H.
  destruct (Rlt_dec (cursor st) total_duration) as [Hlt | Hge].
  - apply bind_ok in H. destruct H as [st1 [Hbody Hrest]].
    destruct (loop_body_ok st st1 Hbody) as [iv [g [hit [Hlaw [_ [Hst [Hc _]]]]]]].
    destruct (stamp_inside sample_rate total_duration (cursor st) g hit (buffer st) Hsr
                (conj H0 Hlt) Hlen) as [layer' [E [Hl _]]].
    fold samples in E. rewrite E in Hst. injection Hst as Hst.
    assert (Hl1 : length (buffer st1) = length (buffer st)) by (rewrite <- Hst; exact Hl).
    rewrite <- Hl1. apply IH; [exact Hrest | | exact Hpos | rewrite Hl1; exact Hlen].
    rewrite Hc. pose proof (Hpos _ _ _ H0 Hlaw). lra.
  - injection H as <-. reflexivity.
Qed.

(** Termination: when every interval the law gives on [[0, duration)] is at
    least [delta > 0], some budget suffices and the run returns. *)
Lemma while_loop_terminates (delta : R) (hit : list R) :
  (0 < sample_rate)%Z -> 0 < delta -> make_hit_call = Ok hit ->
  (forall t, 0 <= t < total_duration ->
     exists iv g, rate_law t = Ok (iv, g) /\ delta <= iv) ->
  forall (k : nat) st,
    0 <= cursor st -> total_duration - cursor st <= INR k * delta ->
    Z.of_nat (length (buffer st)) = samples ->
    exists fuel st', loop fuel st = Ok st'.
Proof.
  intros Hsr Hdelta Hhit Hlaw.
  induction k as [| k IH]; intros st H0 Hk Hlen.
  - exists 1%nat, st. unfold loop. cbn [while_loop].
    destruct (Rlt_dec (cursor st) total_duration) as [Hlt | Hge]; [| reflexivity].
    simpl in Hk. lra.
  - destruct (Rlt_dec (cursor st) total_duration) as [Hlt | Hge].
    + destruct (Hlaw (cursor st) (conj H0 Hlt)) as [iv [g [El Hiv]]].
      destruct (stamp_inside sample_rate total_duration (cursor st) g hit (buffer st) Hsr
                  (conj H0 Hlt) Hlen) as [layer' [E [Hl _]]].
      fold samples in E.
      set (st1 := mk_state (cursor st + iv) layer'
                    (trace st ++ [mk_onset (cursor st) g])).
      assert (Hb : body st = Ok st1).
      { unfold body, loop_body. rewrite El. cbn [bind]. rewrite Hhit. cbn [bind].
        rewrite E. reflexivity. }
      destruct (IH st1) as [fuel [st' Hrun]].
      * simpl. lra.
      * simpl. rewrite S_INR in Hk. nra.
      * simpl. rewrite Hl. exact Hlen.
      * exists (S fuel), st'. unfold loop. cbn [while_loop].
        destruct (Rlt_dec (cursor st) total_duration); [| contradiction].
        fold body. rewrite Hb. exact Hrun.
    + exists 1%nat, st. unfold loop. cbn [while_loop].
      destruct (Rlt_dec (cursor st) total_duration); [contradiction | reflexivity].
Qed.

(** A clock that steps backwards never leaves the loop. *)
Lemma while_loop_backwards (fuel : nat) :
  0 < total_duration ->
  (forall t iv g, rate_law t = Ok (iv, g) -> iv < 0) ->
  forall st st', cursor st <= 0 -> loop fuel st <> Ok st'.
Proof.
  intros Hd Hneg. induction fuel as [| fuel IH]; intros st st' H0 H; [discriminate |].
  unfold loop in H. cbn [while_loop] in H.
  destruct (Rlt_dec (cursor st) total_duration) as [Hlt | Hge]; [| lra].
  apply bind_ok in H. destruct H as [st1 [Hbody Hrest]].
  destruct (loop_body_ok st st1 Hbody) as [iv [g [hit [Hlaw [_ [_ [Hc _]]]]]]].
  apply (IH st1 st'); [| exact Hrest].
  rewrite Hc. pose proof (Hneg _ _ _ Hlaw). lra.
Qed.

End EventClockFacts.

(** *** Traces *)

Section Traces.

Variable law : R -> result (R * R).
Variable duration : R.

Lemma onsets_from_before_duration (t : R) (tr : list onset) :
  onsets_from law duration t tr -> Forall (fun o => onset_time o < duration) tr.
Proof.
  induction 1 as [| t iv g rest Hlt Hlaw _ IH]; constructor; [exact Hlt | exact IH].
Qed.

Hypothesis forward : forall t iv g, 0 <= t -> law t = Ok (iv, g) -> 0 < iv.

Lemma onsets_from_after_start (t : R) (tr : list onset) :
  onsets_from law duration t tr -> 0 <= t -> Forall (fun o => t <= onset_time o) tr.
Proof.
  induction 1 as [| t iv g rest Hlt Hlaw _ IH]; intros H0; constructor.
  - simpl. lra.
  - pose proof (forward _ _ _ H0 Hlaw) as Hiv.
    eapply Forall_impl; [| apply IH; lra]. intros o Ho. simpl in Ho. lra.
Qed.

Lemma onsets_from_increasing (t : R) (tr : list onset) :
  onsets_from law duration t tr -> 0 <= t -> strictly_increasing (map onset_time tr).
Proof.
  induction 1 as [| t iv g rest Hlt Hlaw Hrest IH]; intros H0 i j Hij.
  - simpl in Hij. lia.
  - pose proof (forward _ _ _ H0 Hlaw) as Hiv.
    cbn [map length] in *. destruct j as [| j]; [lia |].
    destruct i as [| i].
    + cbn [nth onset_time].
      pose proof (onsets_from_after_start _ _ Hrest ltac:(lra)) as Hall.
      rewrite length_map in Hij.
      rewrite (map_nth_in _ onset_time _ (mk_onset 0 0)) by lia.
      rewrite Forall_forall in Hall.
      specialize (Hall (nth j rest (mk_onset 0 0)) ltac:(apply nth_In; lia)). lra.
    + cbn [nth]. apply IH; [lra | lia].
Qed.

(** Successive onsets are one interval of the law apart. *)
Lemma onsets_from_gap (t : R) (tr : list onset) :
  onsets_from law duration t tr ->
  forall i, (S i < length tr)%nat ->
    exists g, law (nth i (map onset_time tr) 0)
              = Ok (nth (S i) (map onset_time tr) 0 - nth i (map onset_time tr) 0, g).
Proof.
  induction 1 as [| t iv g rest Hlt Hlaw Hrest IH]; intros i Hi.
  - simpl in Hi. lia.
  - destruct i as [| i].
    + inversion Hrest as [| t' iv' g' rest' Hlt' Hlaw' Hrest' Et]; subst.
      * simpl in Hi. lia.
      * exists g. cbn [map nth onset_time]. rewrite Hlaw. do 2 f_equal. lra.
    + cbn [map nth]. apply IH. simpl in Hi. lia.
Qed.

End Traces.

(** *** Reading a trace off the clock *)

Lemma onsets_from_next law duration t tr iv g :
  onsets_from law duration t tr -> t < duration -> law t = Ok (iv, g) ->
  exists rest, tr = mk_onset t g :: rest /\ onsets_from law duration (t + iv) rest.
Proof.
  intros H Hlt Hlaw. inversion H as [t' Hge | t' iv' g' rest Hlt' Hlaw' Hrest]; subst.
  - contradiction.
  - rewrite Hlaw in Hlaw'. injection Hlaw' as <- <-.
    exists rest. split; [reflexivity | exact Hrest].
Qed.

Lemma onsets_from_end law duration t tr :
  onsets_from law duration t tr -> ~ t < duration -> tr = [].
Proof.
  intros H Hge. inversion H; subst; [reflexivity | contradiction].
Qed.

(** A property of every gain the law gives on [[0, duration)] holds of
    every onset. *)
Lemma onsets_from_gains law duration (P : R -> Prop) :
  (forall t iv g, 0 <= t < duration -> law t = Ok (iv, g) -> 0 <= iv /\ P g) ->
  forall t tr, onsets_from law duration t tr -> 0 <= t ->
    Forall (fun o => P (onset_gain o)) tr.
Proof.
  intros Hlaw t tr H. induction H as [t Hge | t iv g rest Hlt E Hrest IH]; intros H0.
  - constructor.
  - destruct (Hlaw t iv g (conj H0 Hlt) E) as [Hiv Hg].
    constructor; [exact Hg | apply IH; lra].
Qed.

(** When every interval lies in [[lo, hi]], the number of onsets between
    the cursor and the duration is bounded on both sides. *)
Lemma onsets_from_count law duration lo hi :
  0 < lo ->
  (forall t iv g, 0 <= t < duration -> law t = Ok (iv, g) -> lo <= iv <= hi) ->
  forall t tr, onsets_from law duration t tr -> 0 <= t ->
    duration - t <= INR (length tr) * hi
    /\ (tr <> [] -> (INR (length tr) - 1) * lo < duration - t).
Proof.
  intros Hlo Hlaw t tr H. induction H as [t Hge | t iv g rest Hlt E Hrest IH]; intros H0.
  - split; [simpl; lra | intros N; contradiction].
  - destruct (Hlaw t iv g (conj H0 Hlt) E) as [Hiv1 Hiv2].
    destruct (IH ltac:(lra)) as [Hup Hdown].
    change (length (mk_onset t g :: rest)) with (S (length rest)).
    rewrite S_INR. split; [nra |].
    intros _. destruct rest as [| o rest'].
    + simpl. lra.
    + specialize (Hdown ltac:(discriminate)). nra.
Qed.

(** The number of passes of a clock whose intervals are at least [lo]. *)
Lemma onsets_from_passes law duration lo :
  0 < lo ->
  (forall t iv g, 0 <= t < duration -> law t = Ok (iv, g) -> lo <= iv) ->
  forall t tr, onsets_from law duration t tr -> 0 <= t ->
    tr <> [] -> (INR (length tr) - 1) * lo < duration - t.
Proof.
  intros Hlo Hlaw t tr H. induction H as [t Hge | t iv g rest Hlt E Hrest IH];
    intros H0 Hne; [contradiction |].
  pose proof (Hlaw t iv g (conj H0 Hlt) E) as Hiv.
  change (length (mk_onset t g :: rest)) with (S (length rest)). rewrite S_INR.
  destruct rest as [| o rest'].
  - simpl. lra.
  - specialize (IH ltac:(lra) ltac:(discriminate)). nra.
Qed.

(** The first pass of a clock that starts before the duration. *)
Lemma onsets_from_first law duration tr iv g :
  0 < duration -> law 0 = Ok (iv, g) -> onsets_from law duration 0 tr ->
  exists rest, tr = mk_onset 0 g :: rest.
Proof.
  intros Hd E H.
  destruct (onsets_from_next law duration 0 tr iv g H Hd E) as [rest [-> _]].
  exists rest. reflexivity.
Qed.

(** The cursor of every onset of a clock that moves forwards. *)
Lemma onsets_from_nth_range law duration tr i :
  (forall t iv g, 0 <= t -> law t = Ok (iv, g) -> 0 < iv) ->
  onsets_from law duration 0 tr -> (i < length tr)%nat ->
  0 <= nth i (map onset_time tr) 0 < duration.
Proof.
  intros Hiv Hon Hi.
  pose proof (onsets_from_before_duration _ _ _ _ Hon) as Hb.
  pose proof (onsets_from_after_start law duration Hiv 0 tr Hon ltac:(lra)) as Ha.
  rewrite Forall_forall in Hb, Ha.
  assert (Hin : In (nth i tr (mk_onset 0 0)) tr) by (apply nth_In; exact Hi).
  rewrite (map_nth_in _ onset_time tr (mk_onset 0 0)) by exact Hi.
  split; [apply Ha | apply Hb]; exact Hin.
Qed.

Lemma progress_in_unit (t duration : R) :
  0 < duration -> 0 <= t < duration -> 0 <= t / duration < 1.
Proof.
  intros Hd Ht. split; [apply Rle_mult_inv_pos; lra |].
  apply (Rmult_lt_reg_r duration); [exact Hd |].
  unfold Rdiv. rewrite Rmult_assoc, Rinv_l by lra. lra.
Qed.

(** *** The frame of [generate_layer] *)

Lemma run_layer_ok rate_law make_hit_call sample_rate total_duration fuel layer tr :
  run_layer rate_law make_hit_call sample_rate total_duration fuel = Ok (layer, tr) ->
  (0 <= py_int (total_duration * IZR sample_rate))%Z
  /\ exists st,
       while_loop rate_law make_hit_call sample_rate
         (py_int (total_duration * IZR sample_rate)) total_duration fuel
         (mk_state 0 (repeat 0 (Z.to_nat (py_int (total_duration * IZR sample_rate)))) [])
       = Ok st
       /\ layer = buffer st /\ tr = trace st.
Proof.
  unfold run_layer, run_clock, np_zeros. intros H.
  destruct (Z.ltb_spec (py_int (total_duration * IZR sample_rate)) 0) as [Hneg | Hpos];
    [discriminate |].
  cbn [bind] in H. apply bind_ok in H. destruct H as [st [Hrun H]].
  injection H as <- <-. split; [exact Hpos |]. exists st. auto.
Qed.

(** Every layer an event generator returns: its trace is the clock's, from
    cursor 0, and with a positive sample rate and intervals that are not
    negative the buffer has [int(duration * sample_rate)] samples. *)
Lemma run_layer_sound rate_law make_hit_call sample_rate total_duration fuel layer tr :
  run_layer rate_law make_hit_call sample_rate total_duration fuel = Ok (layer, tr) ->
  onsets_from rate_law total_duration 0 tr
  /\ ((0 < sample_rate)%Z ->
      (forall t iv g, 0 <= t -> rate_law t = Ok (iv, g) -> 0 <= iv) ->
      Z.of_nat (length layer) = py_int (total_duration * IZR sample_rate)).
Proof.
  intros H. apply run_layer_ok in H. destruct H as [Hpos [st [Hrun [-> ->]]]].
  split.
  - destruct (while_loop_sound _ _ _ _ _ _ _ Hrun) as [_ [tr [Htr Hon]]].
    simpl in Htr, Hon. rewrite Htr. exact Hon.
  - intros Hsr Hiv.
    rewrite (while_loop_buffer_length _ _ _ _ _ Hsr _ _ Hrun); simpl;
      try rewrite repeat_length; try lia; try lra; exact Hiv.
Qed.

Lemma run_layer_terminates rate_law make_hit_call sample_rate total_duration
  (delta : R) (hit : list R) :
  (0 < sample_rate)%Z -> 0 <= total_duration -> 0 < delta -> make_hit_call = Ok hit ->
  (forall t, 0 <= t < total_duration ->
     exists iv g, rate_law t = Ok (iv, g) /\ delta <= iv) ->
  exists fuel layer tr,
    run_layer rate_law make_hit_call sample_rate total_duration fuel = Ok (layer, tr).
Proof.
  intros Hsr Hd Hdelta Hhit Hlaw.
  assert (Hs : (0 <= py_int (total_duration * IZR sample_rate))%Z).
  { apply py_int_ge_0. assert (0 < IZR sample_rate) by (apply IZR_lt; exact Hsr). nra. }
  destruct (nat_above (total_duration / delta)) as [k Hk].
  destruct (while_loop_terminates rate_law make_hit_call sample_rate total_duration
              delta hit Hsr Hdelta Hhit Hlaw k
              (mk_state 0 (repeat 0 (Z.to_nat (py_int (total_duration * IZR sample_rate)))) []))
    as [fuel [st Hrun]].
  - simpl. lra.
  - simpl. rewrite Rminus_0_r.
    apply (Rmult_le_compat_r delta) in Hk; [| lra].
    unfold Rdiv in Hk. rewrite Rmult_assoc, Rinv_l in Hk by lra. lra.
  - simpl. rewrite repeat_length. lia.
  - exists fuel, (buffer st), (trace st). unfold run_layer, run_clock, np_zeros.
    destruct (Z.ltb_spec (py_int (total_duration * IZR sample_rate)) 0); [lia |].
    cbn [bind]. rewrite Hrun. reflexivity.
Qed.

(** ** The generators' rate laws and hits *)

Lemma IZR_nonzero (z : Z) : z <> 0%Z -> IZR z <> 0.
Proof. intros H E. apply H. apply eq_IZR. exact E. Qed.

Lemma transient_ok (signal : list R) : exists s, slice_iadd signal 0 5 [0.5] = Ok s.
Proof.
  unfold slice_iadd.
  destruct (Nat.eqb (length [0.5]) _); eexists; reflexivity.
Qed.

Lemma cyclic_make_hit_ok (sample_rate : Z) (duration_ms freq decay : R) :
  (0 <= sample_rate)%Z -> 0 <= duration_ms ->
  exists hit, RissetCyclic.make_hit sample_rate duration_ms freq decay = Ok hit.
Proof.
  intros Hsr Hd. unfold RissetCyclic.make_hit.
  assert (H : (0 <= py_int (IZR sample_rate * duration_ms / 1000))%Z).
  { apply py_int_ge_0. assert (0 <= IZR sample_rate) by (apply IZR_le; exact Hsr).
    apply Rmult_le_pos; [nra | lra]. }
  destruct (Z.ltb_spec (py_int (IZR sample_rate * duration_ms / 1000)) 0); [lia |].
  match goal with |- context [slice_iadd ?s 0 5 [0.5]] =>
    destruct (transient_ok s) as [s' ->] end.
  eexists. reflexivity.
Qed.

Lemma stronger_make_hit_ok (sample_rate : Z) (duration_ms freq : R) :
  (0 <= sample_rate)%Z -> 0 <= duration_ms ->
  exists hit, RissetStronger.make_hit sample_rate duration_ms freq = Ok hit.
Proof.
  intros Hsr Hd. unfold RissetStronger.make_hit.
  assert (H : (0 <= py_int (IZR sample_rate * duration_ms / 1000))%Z).
  { apply py_int_ge_0. assert (0 <= IZR sample_rate) by (apply IZR_le; exact Hsr).
    apply Rmult_le_pos; [nra | lra]. }
  destruct (Z.ltb_spec (py_int (IZR sample_rate * duration_ms / 1000)) 0); [lia |].
  match goal with |- context [slice_iadd ?s 0 5 [0.5]] =>
    destruct (transient_ok s) as [s' ->] end.
  eexists. reflexivity.
Qed.

Lemma transient_value (signal : list R) (c : R) :
  slice_iadd signal 0 5 [c]
  = Ok (map (fun x => x + c) (firstn 5 signal) ++ skipn 5 signal).
Proof.
  unfold slice_iadd.
  assert (Ha : Z.to_nat (slice_index (Z.of_nat (length signal)) 0) = 0%nat).
  { unfold slice_index. change (0 <? 0)%Z with false. cbv iota. lia. }
  assert (Hb : Z.to_nat (slice_index (Z.of_nat (length signal)) 5)
               = Nat.min 5 (length signal)).
  { unfold slice_index. change (5 <? 0)%Z with false. cbv iota. lia. }
  rewrite Ha, Hb. cbn [firstn skipn app Nat.add]. rewrite Nat.sub_0_r.
  assert (Hf : firstn (Nat.min 5 (length signal)) signal = firstn 5 signal).
  { destruct (Nat.le_ge_cases 5 (length signal)) as [H | H].
    - now rewrite Nat.min_l by exact H.
    - rewrite Nat.min_r by exact H. rewrite !firstn_all2 by lia. reflexivity. }
  assert (Hs : skipn (Nat.min 5 (length signal)) signal = skipn 5 signal).
  { destruct (Nat.le_ge_cases 5 (length signal)) as [H | H].
    - now rewrite Nat.min_l by exact H.
    - rewrite Nat.min_r by exact H. rewrite !skipn_all2 by lia. reflexivity. }
  rewrite Hf, Hs.
  destruct (Nat.eqb_spec (length [c]) (Nat.min 5 (length signal))) as [E | N];
    [| reflexivity].
  simpl in E.
  destruct signal as [| x [| y l]]; simpl in E; try lia. reflexivity.
Qed.

Lemma transient_nth (signal : list R) (c : R) (i : nat) :
  (i < length signal)%nat ->
  nth i (map (fun x => x + c) (firstn 5 signal) ++ skipn 5 signal) 0
  = nth i signal 0 + (if Nat.ltb i 5 then c else 0).
Proof.
  intros Hi. destruct (Nat.ltb_spec i 5) as [H5 | H5].
  - rewrite app_nth1 by (rewrite length_map, length_firstn; lia).
    rewrite (map_nth_in _ (fun x => x + c) _ 0) by (rewrite length_firstn; lia).
    rewrite nth_firstn. destruct (Nat.ltb_spec i 5); [reflexivity | lia].
  - rewrite app_nth2 by (rewrite length_map, length_firstn; lia).
    rewrite length_map, length_firstn, nth_skipn.
    replace (5 + (i - Nat.min 5 (length signal)))%nat with i by lia. lra.
Qed.

Lemma transient_length (signal : list R) (c : R) :
  length (map (fun x => x + c) (firstn 5 signal) ++ skipn 5 signal) = length signal.
Proof. rewrite length_app, length_map, length_firstn, length_skipn. lia. Qed.

Lemma exp_decay_unit (t decay : R) : 0 <= t -> 0 <= decay -> 0 < exp (- t * decay) <= 1.
Proof.
  intros Ht Hd. split; [apply exp_pos |].
  rewrite <- exp_0. destruct (Req_dec (- t * decay) 0) as [-> | N].
  - right. reflexivity.
  - left. apply exp_increasing. nra.
Qed.

Lemma linspace_open_nth (a b : R) (n i : nat) :
  (i < n)%nat -> nth i (linspace_open a b n) 0 = a + INR i * ((b - a) / INR n).
Proof.
  intros Hi. unfold linspace_open.
  rewrite (map_nth_in _ _ _ 0%nat) by (rewrite length_seq; exact Hi).
  rewrite seq_nth by exact Hi. reflexivity.
Qed.

Lemma cyclic_make_hit_length (sample_rate : Z) (duration_ms freq decay : R) :
  (0 <= sample_rate)%Z -> 0 <= duration_ms ->
  exists hit,
    RissetCyclic.make_hit sample_rate duration_ms freq decay = Ok hit
    /\ Z.of_nat (length hit) = py_int (IZR sample_rate * duration_ms / 1000).
Proof.
  intros Hsr Hms. unfold RissetCyclic.make_hit.
  assert (Hlen : (0 <= py_int (IZR sample_rate * duration_ms / 1000))%Z).
  { apply py_int_ge_0. assert (0 <= IZR sample_rate) by (apply IZR_le; exact Hsr).
    apply Rmult_le_pos; [nra | lra]. }
  destruct (Z.ltb_spec (py_int (IZR sample_rate * duration_ms / 1000)) 0); [lia |].
  rewrite transient_value. cbn [bind]. eexists. split; [reflexivity |].
  rewrite vmul_length; rewrite transient_length, !length_map, !linspace_open_length;
    [lia | reflexivity].
Qed.

Lemma cyclic_rate_law_value (base_freq phase_offset cycle_duration direction t : R) :
  cycle_duration <> 0 -> base_freq <> 0 ->
  RissetCyclic.rate_law base_freq phase_offset cycle_duration direction t =
  Ok (1 / (base_freq * pow2 (cyclic_phase phase_offset cycle_duration direction t)),
      sin (PI * cyclic_phase phase_offset cycle_duration direction t)).
Proof.
  intros Hc Hb. unfold RissetCyclic.rate_law.
  rewrite float_div_ok by exact Hc. cbn [bind].
  fold (cyclic_phase phase_offset cycle_duration direction t).
  rewrite float_div_ok; [reflexivity |].
  pose proof (pow2_pos (cyclic_phase phase_offset cycle_duration direction t)). nra.
Qed.

Lemma pow2_unit_interval (p : R) : 0 <= p < 1 -> 1 <= pow2 p < 2.
Proof.
  intros [H0 H1]. rewrite <- pow2_0, <- pow2_1.
  split; [apply pow2_le; exact H0 | apply pow2_lt; exact H1].
Qed.

Lemma inv_bounds (a x b : R) : 0 < a -> a <= x <= b -> 1 / b <= 1 / x <= 1 / a.
Proof.
  intros Ha [H1 H2]. unfold Rdiv. rewrite !Rmult_1_l.
  split; apply Rinv_le_contravar; lra.
Qed.

Lemma cyclic_interval_bounds (base_freq phase_offset cycle_duration direction t iv g : R) :
  cycle_duration <> 0 -> 0 < base_freq ->
  RissetCyclic.rate_law base_freq phase_offset cycle_duration direction t = Ok (iv, g) ->
  1 / (2 * base_freq) <= iv <= 1 / base_freq.
Proof.
  intros Hc Hb H. rewrite cyclic_rate_law_value in H by lra.
  injection H as <- _.
  pose proof (pow2_unit_interval _
                (float_mod1_range (direction * t / cycle_duration + phase_offset))) as Hp.
  fold (cyclic_phase phase_offset cycle_duration direction t) in Hp.
  apply inv_bounds; nra.
Qed.

Lemma cyclic_generate_layer_unfold fuel total_duration base_freq layer_index num_layers
  cycle_duration accelerating sample_rate :
  num_layers <> 0%Z ->
  RissetCyclic.generate_layer fuel total_duration base_freq layer_index num_layers
    cycle_duration accelerating sample_rate =
  run_layer
    (RissetCyclic.rate_law base_freq (IZR layer_index / IZR num_layers) cycle_duration
       (if accelerating then 1 else -1))
    (RissetCyclic.make_hit sample_rate 35 (120 + IZR layer_index * 30) 45)
    sample_rate total_duration fuel.
Proof.
  intros Hn. unfold RissetCyclic.generate_layer, run_layer.
  rewrite float_div_ok by (apply IZR_nonzero; exact Hn).
  destruct (np_zeros _); reflexivity.
Qed.

Lemma stronger_freq_pos (base_freq freq_offset : R) (accelerating : bool) (p : R) :
  0 < base_freq -> 0 < freq_offset ->
  0 < RissetStronger.freq_at base_freq freq_offset accelerating p.
Proof.
  intros Hb Ho. unfold RissetStronger.freq_at.
  destruct accelerating;
    (apply Rmult_lt_0_compat; [apply Rmult_lt_0_compat; assumption | apply pow2_pos]).
Qed.

(** The rate of the stronger exponential generator. *)
Lemma stronger_rate_law_value (duration base_freq freq_offset : R) (accelerating : bool)
  (t : R) :
  duration <> 0 -> 0 < base_freq -> 0 < freq_offset ->
  RissetStronger.rate_law duration base_freq freq_offset accelerating t =
  Ok (1 / RissetStronger.freq_at base_freq freq_offset accelerating (t / duration),
      smoothed_gate (t / duration) 1.3
      * RissetStronger.loudness accelerating (t / duration)).
Proof.
  intros Hd Hb Ho. unfold RissetStronger.rate_law.
  rewrite float_div_ok by exact Hd. cbn [bind].
  rewrite float_div_ok; [reflexivity |].
  apply Rgt_not_eq. apply stronger_freq_pos; assumption.
Qed.

Lemma stronger_freq_upper (base_freq freq_offset : R) (accelerating : bool) (p : R) :
  0 < base_freq -> 0 < freq_offset -> 0 <= p < 1 ->
  RissetStronger.freq_at base_freq freq_offset accelerating p
  <= base_freq * freq_offset * pow2 3.
Proof.
  intros Hb Ho Hp. unfold RissetStronger.freq_at, RissetStronger.EXP_RANGE.
  assert (Hbo : 0 < base_freq * freq_offset) by nra.
  destruct accelerating; apply Rmult_le_compat_l; try lra; apply pow2_le; lra.
Qed.

(** The rate moves strictly with the progress: up when accelerating, down
    otherwise. *)
Lemma stronger_freq_strict (base_freq freq_offset : R) (accelerating : bool) (p q : R) :
  0 < base_freq -> 0 < freq_offset -> p < q ->
  RissetStronger.freq_at base_freq freq_offset accelerating p
  <> RissetStronger.freq_at base_freq freq_offset accelerating q.
Proof.
  intros Hb Ho Hpq. unfold RissetStronger.freq_at, RissetStronger.EXP_RANGE.
  assert (Hbo : 0 < base_freq * freq_offset) by nra.
  destruct accelerating.
  - assert (pow2 (p * 3) < pow2 (q * 3)) by (apply pow2_lt; lra). nra.
  - assert (pow2 (- q * 3) < pow2 (- p * 3)) by (apply pow2_lt; lra). nra.
Qed.

Lemma stronger_generate_layer_unfold fuel duration base_freq layer_index num_layers
  accelerating sample_rate :
  num_layers <> 0%Z ->
  RissetStronger.generate_layer fuel duration base_freq layer_index num_layers
    accelerating sample_rate =
  run_layer
    (RissetStronger.rate_law duration base_freq (pow2 (IZR layer_index / IZR num_layers))
       accelerating)
    (RissetStronger.make_hit sample_rate 40 (120 + IZR layer_index * 40))
    sample_rate duration fuel.
Proof.
  intros Hn. unfold RissetStronger.generate_layer, run_layer.
  rewrite float_div_ok by (apply IZR_nonzero; exact Hn).
  destruct (np_zeros _); reflexivity.
Qed.

Lemma inv_injective (x y : R) : 0 < x -> 0 < y -> 1 / x = 1 / y -> x = y.
Proof.
  intros Hx Hy H. unfold Rdiv in H. rewrite !Rmult_1_l in H.
  apply Rinv_eq_reg in H. exact H.
Qed.

(** *** The range of the doubles *)

Lemma DBL_MAX_above : 2 ^ 50 <= DBL_MAX.
Proof.
  unfold DBL_MAX.
  assert (H1 : 2 ^ 50 <= 2 ^ 1023) by (apply Rle_pow; [lra | lia]).
  assert (H2 : 0 < / 2 ^ 52 <= 1).
  { split; [apply Rinv_0_lt_compat; apply pow_lt; lra |].
    rewrite <- Rinv_1. apply Rinv_le_contravar; [lra |].
    apply pow_R1_Rle. lra. }
  assert (0 < 2 ^ 50) by (apply pow_lt; lra).
  nra.
Qed.

Lemma clock_in_range_small (max_rate total_duration : R) :
  max_rate <= 2 ^ 50 -> max_rate * total_duration <= 2 ^ 50 ->
  clock_in_range max_rate total_duration.
Proof.
  intros H1 H2. split; [| exact H2].
  pose proof DBL_MAX_above. lra.
Qed.

Lemma layer_in_range_small (max_rate total_duration cycle_duration : R)
  (layer_index num_layers sample_rate : Z) :
  max_rate <= 2 ^ 50 -> max_rate * total_duration <= 2 ^ 50 ->
  0 < cycle_duration ->
  1 <= 2 ^ 50 * (max_rate * cycle_duration) ->
  total_duration <= 2 ^ 50 * cycle_duration ->
  total_duration * IZR sample_rate <= 2 ^ 50 ->
  IZR sample_rate <= 2 ^ 50 ->
  (0 <= layer_index < num_layers)%Z -> IZR num_layers <= 2 ^ 50 ->
  layer_in_range max_rate total_duration cycle_duration layer_index num_layers
    sample_rate.
Proof.
  intros H1 H2 Hc H3 H4 H5 H6 H7 H8. unfold layer_in_range.
  rewrite (Rabs_pos_eq cycle_duration) by lra.
  split; [apply clock_in_range_small; assumption |].
  repeat (split; [assumption |]). assumption.
Qed.

Lemma layer_in_range_clock (max_rate total_duration cycle_duration : R)
  (layer_index num_layers sample_rate : Z) :
  layer_in_range max_rate total_duration cycle_duration layer_index num_layers
    sample_rate ->
  clock_in_range max_rate total_duration /\ num_layers <> 0%Z.
Proof. intros [H [_ [_ [_ [_ [Hi _]]]]]]. split; [exact H | lia]. Qed.

Lemma pow2_3 : pow2 3 = 8.
Proof.
  unfold pow2. replace 3 with (INR 3) by (simpl; lra).
  rewrite Rpower_pow by lra. simpl. lra.
Qed.

Lemma passes_in_range (max_rate total_duration : R) (n : nat) :
  0 < max_rate -> clock_in_range max_rate total_duration ->
  (INR n - 1) * (1 / max_rate) < total_duration ->
  INR n <= 2 ^ 50 + 1.
Proof.
  intros Hr [_ Hp] H.
  apply (Rmult_lt_compat_l max_rate) in H; [| exact Hr].
  replace (max_rate * ((INR n - 1) * (1 / max_rate))) with (INR n - 1) in H
    by (field; lra).
  lra.
Qed.

(** ** Event layers: termination, order, buffer *)

Lemma cyclic_layer_returns total_duration base_freq layer_index num_layers
  cycle_duration accelerating sample_rate :
  0 <= total_duration -> 0 < base_freq -> cycle_duration <> 0 ->
  num_layers <> 0%Z -> (0 < sample_rate)%Z ->
  exists fuel layer tr,
    RissetCyclic.generate_layer fuel total_duration base_freq layer_index num_layers
      cycle_duration accelerating sample_rate = Ok (layer, tr).
Proof.
  intros Hd Hb Hc Hn Hsr.
  destruct (cyclic_make_hit_ok sample_rate 35 (120 + IZR layer_index * 30) 45)
    as [hit Hhit]; [lia | lra |].
  destruct (run_layer_terminates
              (RissetCyclic.rate_law base_freq (IZR layer_index / IZR num_layers)
                 cycle_duration (if accelerating then 1 else -1))
              (RissetCyclic.make_hit sample_rate 35 (120 + IZR layer_index * 30) 45)
              sample_rate total_duration (1 / (2 * base_freq)) hit Hsr Hd)
    as [fuel [layer [tr H]]].
  - apply Rdiv_lt_0_compat; lra.
  - exact Hhit.
  - intros t _.
    pose proof (cyclic_rate_law_value base_freq (IZR layer_index / IZR num_layers)
                  cycle_duration (if accelerating then 1 else -1) t Hc
                  ltac:(lra)) as E.
    eexists _, _. split; [exact E |].
    apply (cyclic_interval_bounds _ _ _ _ _ _ _ Hc Hb E).
  - exists fuel, layer, tr. rewrite cyclic_generate_layer_unfold by exact Hn. exact H.
Qed.

Lemma cyclic_layer_sound fuel total_duration base_freq layer_index num_layers
  cycle_duration accelerating sample_rate layer tr :
  0 < base_freq -> cycle_duration <> 0 -> num_layers <> 0%Z ->
  RissetCyclic.generate_layer fuel total_duration base_freq layer_index num_layers
    cycle_duration accelerating sample_rate = Ok (layer, tr) ->
  onsets_from
    (RissetCyclic.rate_law base_freq (IZR layer_index / IZR num_layers) cycle_duration
       (if accelerating then 1 else -1)) total_duration 0 tr
  /\ strictly_increasing (map onset_time tr)
  /\ ((0 < sample_rate)%Z ->
      Z.of_nat (length layer) = py_int (total_duration * IZR sample_rate)).
Proof.
  intros Hb Hc Hn H. rewrite cyclic_generate_layer_unfold in H by exact Hn.
  destruct (run_layer_sound _ _ _ _ _ _ _ H) as [Hon Hlen].
  assert (Hiv : forall t iv g, 0 <= t ->
            RissetCyclic.rate_law base_freq (IZR layer_index / IZR num_layers)
              cycle_duration (if accelerating then 1 else -1) t = Ok (iv, g) -> 0 < iv).
  { intros t iv g _ E.
    pose proof (cyclic_interval_bounds _ _ _ _ _ _ _ Hc Hb E) as [Hlo _].
    assert (0 < 1 / (2 * base_freq)) by (apply Rdiv_lt_0_compat; lra). lra. }
  split; [exact Hon |]. split.
  - eapply onsets_from_increasing; [exact Hiv | exact Hon | lra].
  - intros Hsr. apply Hlen; [exact Hsr |].
    intros t iv g H0 E. left. eapply Hiv; eassumption.
Qed.

Lemma stronger_interval_lower (duration base_freq freq_offset : R) (accelerating : bool)
  (t : R) :
  0 < duration -> 0 < base_freq -> 0 < freq_offset -> 0 <= t < duration ->
  1 / (base_freq * freq_offset * pow2 3)
  <= 1 / RissetStronger.freq_at base_freq freq_offset accelerating (t / duration).
Proof.
  intros Hd Hb Ho Ht.
  assert (Hp : 0 <= t / duration < 1).
  { split; [apply Rle_mult_inv_pos; lra |].
    apply (Rmult_lt_reg_r duration); [exact Hd |].
    unfold Rdiv. rewrite Rmult_assoc, Rinv_l by lra. lra. }
  pose proof (stronger_freq_pos base_freq freq_offset accelerating (t / duration) Hb Ho).
  pose proof (stronger_freq_upper base_freq freq_offset accelerating (t / duration) Hb Ho Hp).
  unfold Rdiv. rewrite !Rmult_1_l. apply Rinv_le_contravar; lra.
Qed.

Lemma stronger_layer_returns duration base_freq layer_index num_layers
  accelerating sample_rate :
  0 < duration -> 0 < base_freq -> num_layers <> 0%Z -> (0 < sample_rate)%Z ->
  exists fuel layer tr,
    RissetStronger.generate_layer fuel duration base_freq layer_index num_layers
      accelerating sample_rate = Ok (layer, tr).
Proof.
  intros Hd Hb Hn Hsr.
  pose proof (pow2_pos (IZR layer_index / IZR num_layers)) as Ho.
  destruct (stronger_make_hit_ok sample_rate 40 (120 + IZR layer_index * 40))
    as [hit Hhit]; [lia | lra |].
  destruct (run_layer_terminates
              (RissetStronger.rate_law duration base_freq
                 (pow2 (IZR layer_index / IZR num_layers)) accelerating)
              (RissetStronger.make_hit sample_rate 40 (120 + IZR layer_index * 40))
              sample_rate duration
              (1 / (base_freq * pow2 (IZR layer_index / IZR num_layers) * pow2 3))
              hit Hsr)
    as [fuel [layer [tr H]]].
  - lra.
  - apply Rdiv_lt_0_compat; [lra |].
    apply Rmult_lt_0_compat; [apply Rmult_lt_0_compat; assumption | apply pow2_pos].
  - exact Hhit.
  - intros t Ht. rewrite stronger_rate_law_value by lra.
    eexists _, _. split; [reflexivity |].
    apply stronger_interval_lower; assumption.
  - exists fuel, layer, tr. rewrite stronger_generate_layer_unfold by exact Hn. exact H.
Qed.

Lemma stronger_layer_sound fuel duration base_freq layer_index num_layers
  accelerating sample_rate layer tr :
  0 < duration -> 0 < base_freq -> num_layers <> 0%Z ->
  RissetStronger.generate_layer fuel duration base_freq layer_index num_layers
    accelerating sample_rate = Ok (layer, tr) ->
  strictly_increasing (map onset_time tr)
  /\ ((3 <= length tr)%nat -> non_uniform (map onset_time tr))
  /\ ((0 < sample_rate)%Z ->
      Z.of_nat (length layer) = py_int (duration * IZR sample_rate)).
Proof.
  intros Hd Hb Hn H. rewrite stronger_generate_layer_unfold in H by exact Hn.
  pose proof (pow2_pos (IZR layer_index / IZR num_layers)) as Ho.
  set (law := RissetStronger.rate_law duration base_freq
                (pow2 (IZR layer_index / IZR num_layers)) accelerating) in *.
  destruct (run_layer_sound _ _ _ _ _ _ _ H) as [Hon Hlen].
  assert (Hiv : forall t iv g, 0 <= t -> law t = Ok (iv, g) -> 0 < iv).
  { intros t iv g _ E. unfold law in E. rewrite stronger_rate_law_value in E by lra.
    injection E as <- _. apply Rdiv_lt_0_compat; [lra |].
    apply stronger_freq_pos; assumption. }
  assert (Hinc : strictly_increasing (map onset_time tr)).
  { eapply onsets_from_increasing; [exact Hiv | exact Hon | lra]. }
  split; [exact Hinc |]. split.
  - intros H3. exists 0%nat, 1%nat. rewrite length_map.
    split; [lia |]. split; [lia |].
    destruct (onsets_from_gap law duration 0 tr Hon 0 ltac:(lia)) as [g0 E0].
    destruct (onsets_from_gap law duration 0 tr Hon 1 ltac:(lia)) as [g1 E1].
    unfold law in E0, E1. rewrite stronger_rate_law_value in E0, E1 by lra.
    injection E0 as E0 _. injection E1 as E1 _.
    rewrite <- E0, <- E1. intros E.
    apply inv_injective in E; try (apply stronger_freq_pos; assumption).
    revert E. apply stronger_freq_strict; try assumption.
    assert (Hlt : nth 0 (map onset_time tr) 0 < nth 1 (map onset_time tr) 0).
    { apply Hinc. rewrite length_map. lia. }
    unfold Rdiv. apply Rmult_lt_compat_r; [apply Rinv_0_lt_compat; exact Hd | exact Hlt].
  - intros Hsr. apply Hlen; [exact Hsr |].
    intros t iv g H0 E. left. eapply Hiv; eassumption.
Qed.

Lemma cyclic_layer_steps fuel total_duration base_freq layer_index num_layers
  cycle_duration accelerating sample_rate layer tr :
  0 < total_duration -> 0 < base_freq -> cycle_duration <> 0 -> num_layers <> 0%Z ->
  RissetCyclic.generate_layer fuel total_duration base_freq layer_index num_layers
    cycle_duration accelerating sample_rate = Ok (layer, tr) ->
  (forall i, (S i < length tr)%nat ->
     1 / (2 * base_freq)
     <= nth (S i) (map onset_time tr) 0 - nth i (map onset_time tr) 0)
  /\ (INR (length tr) - 1) * (1 / (2 * base_freq)) < total_duration.
Proof.
  intros Hd Hb Hc Hn H.
  destruct (cyclic_layer_sound _ _ _ _ _ _ _ _ _ _ Hb Hc Hn H) as [Hon _].
  set (law := RissetCyclic.rate_law base_freq (IZR layer_index / IZR num_layers)
                cycle_duration (if accelerating then 1 else -1)) in *.
  assert (Hlo : 0 < 1 / (2 * base_freq)) by (apply Rdiv_lt_0_compat; lra).
  split.
  - intros i Hi. destruct (onsets_from_gap law total_duration 0 tr Hon i Hi) as [g E].
    apply (cyclic_interval_bounds _ _ _ _ _ _ _ Hc Hb E).
  - destruct tr as [| o rest]; [simpl; nra |].
    pose proof (onsets_from_passes law total_duration (1 / (2 * base_freq)) Hlo) as Hp.
    specialize (Hp ltac:(intros t iv g _ E;
                         apply (cyclic_interval_bounds _ _ _ _ _ _ _ Hc Hb E))
                  0 (o :: rest) Hon ltac:(lra) ltac:(discriminate)).
    lra.
Qed.

Lemma stronger_layer_steps fuel duration base_freq layer_index num_layers
  accelerating sample_rate layer tr :
  0 < duration -> 0 < base_freq -> num_layers <> 0%Z ->
  RissetStronger.generate_layer fuel duration base_freq layer_index num_layers
    accelerating sample_rate = Ok (layer, tr) ->
  (forall i, (S i < length tr)%nat ->
     1 / (8 * (base_freq * pow2 (IZR layer_index / IZR num_layers)))
     <= nth (S i) (map onset_time tr) 0 - nth i (map onset_time tr) 0)
  /\ (INR (length tr) - 1)
     * (1 / (8 * (base_freq * pow2 (IZR layer_index / IZR num_layers)))) < duration.
Proof.
  intros Hd Hb Hn H. rewrite stronger_generate_layer_unfold in H by exact Hn.
  pose proof (pow2_pos (IZR layer_index / IZR num_layers)) as Ho.
  set (off := pow2 (IZR layer_index / IZR num_layers)) in *.
  set (law := RissetStronger.rate_law duration base_freq off accelerating) in *.
  destruct (run_layer_sound _ _ _ _ _ _ _ H) as [Hon _].
  assert (Hval : forall t, law t =
            Ok (1 / RissetStronger.freq_at base_freq off accelerating (t / duration),
                smoothed_gate (t / duration) 1.3
                * RissetStronger.loudness accelerating (t / duration))).
  { intros t. unfold law. apply stronger_rate_law_value; lra. }
  assert (Hiv : forall t iv g, 0 <= t -> law t = Ok (iv, g) -> 0 < iv).
  { intros t iv g _ E. rewrite Hval in E. injection E as <- _.
    apply Rdiv_lt_0_compat; [lra | apply stronger_freq_pos; assumption]. }
  assert (Hlow : forall t iv g, 0 <= t < duration -> law t = Ok (iv, g) ->
            1 / (8 * (base_freq * off)) <= iv).
  { intros t iv g Ht E. rewrite Hval in E. injection E as <- _.
    pose proof (stronger_interval_lower duration base_freq off accelerating t
                  Hd Hb Ho Ht) as Hl.
    rewrite pow2_3 in Hl.
    replace (8 * (base_freq * off)) with (base_freq * off * 8) by ring. exact Hl. }
  assert (Hbo : 0 < 8 * (base_freq * off)) by nra.
  assert (Hlo : 0 < 1 / (8 * (base_freq * off))) by (apply Rdiv_lt_0_compat; lra).
  split.
  - intros i Hi. destruct (onsets_from_gap law duration 0 tr Hon i Hi) as [g E].
    apply (Hlow _ _ _ (onsets_from_nth_range law duration tr i Hiv Hon ltac:(lia)) E).
  - destruct tr as [| o rest]; [simpl; nra |].
    pose proof (onsets_from_passes law duration _ Hlo Hlow 0 (o :: rest) Hon
                  ltac:(lra) ltac:(discriminate)) as Hp.
    lra.
Qed.

(** C4, as amended.  With positive base frequency and duration, a cycle
    length that is not zero and parameters inside the range of the doubles,
    both event generators leave their onset loop: some budget of iterations
    suffices.  Each step advances the cursor by at least
    [1 / (2 * base_freq)] under the cyclic law and by at least
    [1 / (8 * base_freq * 2 ** (layer_index / num_layers))] under the law of
    the stronger generator, so the loop makes at most [2 ^ 50 + 1] passes,
    and every layer returned has strictly increasing onset times.  Under
    the exponential law of the stronger generator the spacing is never
    uniform once there are three onsets; under the cyclic law nothing of the
    kind holds. *)
Theorem onset_loop_terminates (total_duration base_freq cycle_duration : R)
  (layer_index num_layers sample_rate : Z) (accelerating : bool)
  (Hd : 0 < total_duration) (Hb : 0 < base_freq) (Hc : cycle_duration <> 0)
  (Hsr : (0 < sample_rate)%Z)
  (Hrc : layer_in_range (2 * base_freq) total_duration cycle_duration
           layer_index num_layers sample_rate)
  (Hrs : layer_in_range (8 * (base_freq * pow2 (IZR layer_index / IZR num_layers)))
           total_duration total_duration layer_index num_layers sample_rate) :
  ((exists fuel layer tr,
      RissetCyclic.generate_layer fuel total_duration base_freq layer_index num_layers
        cycle_duration accelerating sample_rate = Ok (layer, tr))
   /\ (forall fuel layer tr,
         RissetCyclic.generate_layer fuel total_duration base_freq layer_index num_layers
           cycle_duration accelerating sample_rate = Ok (layer, tr) ->
         strictly_increasing (map onset_time tr)
         /\ (forall i, (S i < length tr)%nat ->
               1 / (2 * base_freq)
               <= nth (S i) (map onset_time tr) 0 - nth i (map onset_time tr) 0)
         /\ INR (length tr) <= 2 ^ 50 + 1))
  /\
  ((exists fuel layer tr,
      RissetStronger.generate_layer fuel total_duration base_freq layer_index num_layers
        accelerating sample_rate = Ok (layer, tr))
   /\ (forall fuel layer tr,
         RissetStronger.generate_layer fuel total_duration base_freq layer_index num_layers
           accelerating sample_rate = Ok (layer, tr) ->
         strictly_increasing (map onset_time tr)
         /\ ((3 <= length tr)%nat -> non_uniform (map onset_time tr))
         /\ (forall i, (S i < length tr)%nat ->
               1 / (8 * (base_freq * pow2 (IZR layer_index / IZR num_layers)))
               <= nth (S i) (map onset_time tr) 0 - nth i (map onset_time tr) 0)
         /\ INR (length tr) <= 2 ^ 50 + 1)).
Proof.
  pose proof (pow2_pos (IZR layer_index / IZR num_layers)) as Ho.
  apply layer_in_range_clock in Hrc. destruct Hrc as [Hrc Hn].
  apply layer_in_range_clock in Hrs. destruct Hrs as [Hrs _].
  split; split.
  - apply cyclic_layer_returns; (assumption || lra).
  - intros fuel layer tr H.
    destruct (cyclic_layer_sound _ _ _ _ _ _ _ _ _ _ Hb Hc Hn H) as [_ [Hinc _]].
    destruct (cyclic_layer_steps _ _ _ _ _ _ _ _ _ _ Hd Hb Hc Hn H) as [Hgap Hcount].
    split; [exact Hinc |]. split; [exact Hgap |].
    apply (passes_in_range (2 * base_freq) total_duration); [lra | exact Hrc | exact Hcount].
  - apply stronger_layer_returns; assumption.
  - intros fuel layer tr H.
    destruct (stronger_layer_sound _ _ _ _ _ _ _ _ _ Hd Hb Hn H) as [Hinc [Hnon _]].
    destruct (stronger_layer_steps _ _ _ _ _ _ _ _ _ Hd Hb Hn H) as [Hgap Hcount].
    split; [exact Hinc |]. split; [exact Hnon |]. split; [exact Hgap |].
    apply (passes_in_range (8 * (base_freq * pow2 (IZR layer_index / IZR num_layers)))
             total_duration); [nra | exact Hrs | exact Hcount].
Qed.

Lemma onset_loop_terminates_witness :
  (exists fuel layer tr,
     RissetCyclic.generate_layer fuel 30 1.5 0 6 6 true 44100 = Ok (layer, tr))
  /\ (exists fuel layer tr,
        RissetStronger.generate_layer fuel 30 1.5 0 6 true 44100 = Ok (layer, tr)).
Proof.
  assert (E : pow2 (IZR 0 / IZR 6) = 1).
  { replace (IZR 0 / IZR 6) with 0 by lra. apply pow2_0. }
  assert (Hrc : layer_in_range (2 * 1.5) 30 6 0 6 44100)
    by (apply layer_in_range_small; (lra || lia)).
  assert (Hrs : layer_in_range (8 * (1.5 * pow2 (IZR 0 / IZR 6))) 30 30 0 6 44100).
  { rewrite E. apply layer_in_range_small; (lra || lia). }
  destruct (onset_loop_terminates 30 1.5 6 0 6 44100 true
              ltac:(lra) ltac:(lra) ltac:(lra) ltac:(lia) Hrc Hrs)
    as [[H1 _] [H2 _]].
  split; [exact H1 | exact H2].
Defined.

(** C9.  An onset at a cursor in [[0, duration)] is stamped inside the
    layer buffer: the first index is in the buffer, the last is cut at its
    end, the write succeeds, the buffer keeps its length and no sample
    outside [[start, stop)] changes.  The layers both generators return
    have exactly [int(duration * sample_rate)] samples. *)
Theorem stamping_stays_in_buffer (sample_rate : Z) (duration t gain : R)
  (hit layer : list R)
  (Hsr : (0 < sample_rate)%Z) (Ht : 0 <= t < duration)
  (Hlayer : Z.of_nat (length layer) = py_int (duration * IZR sample_rate)) :
  let samples := py_int (duration * IZR sample_rate) in
  let start := py_int (t * IZR sample_rate) in
  let stop := Z.min (start + Z.of_nat (length hit)) samples in
  ((0 <= start <= stop)%Z /\ (stop <= samples)%Z
   /\ exists layer',
        stamp sample_rate samples hit t gain layer = Ok layer'
        /\ length layer' = length layer
        /\ (forall i, (Z.of_nat i < start \/ stop <= Z.of_nat i)%Z ->
              nth i layer' 0 = nth i layer 0)
        /\ (forall i, (start <= Z.of_nat i < stop)%Z ->
              nth i layer' 0 = nth i layer 0 + nth (i - Z.to_nat start) hit 0 * gain))
  /\
  (forall base_freq cycle_duration layer_index num_layers accelerating,
     0 < base_freq -> cycle_duration <> 0 -> num_layers <> 0%Z ->
     (exists fuel out tr,
        RissetCyclic.generate_layer fuel duration base_freq layer_index num_layers
          cycle_duration accelerating sample_rate = Ok (out, tr))
     /\ (forall fuel out tr,
           RissetCyclic.generate_layer fuel duration base_freq layer_index num_layers
             cycle_duration accelerating sample_rate = Ok (out, tr) ->
           Z.of_nat (length out) = samples))
  /\
  (forall base_freq layer_index num_layers accelerating,
     0 < base_freq -> num_layers <> 0%Z ->
     (exists fuel out tr,
        RissetStronger.generate_layer fuel duration base_freq layer_index num_layers
          accelerating sample_rate = Ok (out, tr))
     /\ (forall fuel out tr,
           RissetStronger.generate_layer fuel duration base_freq layer_index num_layers
             accelerating sample_rate = Ok (out, tr) ->
           Z.of_nat (length out) = samples)).
Proof.
  intros samples start stop.
  assert (Hd : 0 < duration) by lra.
  split; [| split].
  - destruct (stamp_indices sample_rate duration t (length hit) Hsr Ht) as [Hs He].
    split; [exact Hs |]. split; [exact He |].
    apply stamp_inside; assumption.
  - intros base_freq cycle_duration layer_index num_layers accelerating Hb Hc Hn. split.
    + apply cyclic_layer_returns; try assumption. lra.
    + intros fuel out tr H.
      destruct (cyclic_layer_sound _ _ _ _ _ _ _ sample_rate _ _ Hb Hc Hn H) as [_ [_ Hl]].
      apply Hl. exact Hsr.
  - intros base_freq layer_index num_layers accelerating Hb Hn. split.
    + apply stronger_layer_returns; assumption.
    + intros fuel out tr H.
      destruct (stronger_layer_sound _ _ _ _ _ _ sample_rate _ _ Hd Hb Hn H) as [_ [_ Hl]].
      apply Hl. exact Hsr.
Qed.

Lemma stamping_stays_in_buffer_witness :
  (0 < 4)%Z /\ 0 <= 1 < 2
  /\ Z.of_nat (length (repeat 0 8)) = py_int (2 * IZR 4)
  /\ exists layer',
       stamp 4 (py_int (2 * IZR 4)) [1; 1] 1 1 (repeat 0 8) = Ok layer'
       /\ length layer' = length (repeat 0 8).
Proof.
  assert (Hlen : Z.of_nat (length (repeat 0 8)) = py_int (2 * IZR 4)).
  { replace (2 * IZR 4) with (IZR 8) by lra. rewrite py_int_IZR. reflexivity. }
  split; [lia |]. split; [lra |]. split; [exact Hlen |].
  destruct (stamping_stays_in_buffer 4 2 1 1 [1; 1] (repeat 0 8)
              ltac:(lia) ltac:(lra) Hlen)
    as [[_ [_ [layer' [E [Hl _]]]]] _].
  exists layer'. split; [exact E | exact Hl].
Defined.

(** *** The cyclic law on the grid of its own period *)

Lemma float_mod1_integer (k : Z) : float_mod1 (IZR k) = 0.
Proof. unfold float_mod1. rewrite ZfloorZ. lra. Qed.

Lemma unit_cycle_law (k : Z) :
  RissetCyclic.rate_law 1 (IZR 0 / IZR 1) 1 1 (IZR k) = Ok (1, sin (PI * 0)).
Proof.
  rewrite cyclic_rate_law_value by lra.
  assert (E : cyclic_phase (IZR 0 / IZR 1) 1 1 (IZR k) = 0).
  { unfold cyclic_phase.
    replace (1 * IZR k / 1 + IZR 0 / IZR 1) with (IZR k) by lra.
    apply float_mod1_integer. }
  rewrite E, pow2_0. do 2 f_equal. lra.
Qed.

(** C4 as stated fails for the cyclic law: with a base frequency of 1 Hz
    (60 BPM) and a cycle of 1 s, the layer that starts at phase 0 has its
    onsets at 0, 1 and 2 s over a duration of 3 s, a uniform grid. *)
Lemma uniform_grid_counterexample :
  exists fuel layer tr,
    RissetCyclic.generate_layer fuel 3 1 0 1 1 true 44100 = Ok (layer, tr)
    /\ map onset_time tr = [0; 1; 2]
    /\ ~ non_uniform (map onset_time tr).
Proof.
  destruct (cyclic_layer_returns 3 1 0 1 1 true 44100) as [fuel [layer [tr H]]];
    try lra; try lia.
  exists fuel, layer, tr. split; [exact H |].
  destruct (cyclic_layer_sound fuel 3 1 0 1 1 true 44100 layer tr) as [Hon _];
    [lra | lra | lia | exact H |].
  cbv iota in Hon.
  destruct (onsets_from_next _ _ _ _ _ _ Hon ltac:(lra) (unit_cycle_law 0))
    as [r1 [-> H1]].
  replace (0 + 1) with (IZR 1) in H1 by lra.
  destruct (onsets_from_next _ _ _ _ _ _ H1 ltac:(lra) (unit_cycle_law 1))
    as [r2 [-> H2]].
  replace (1 + 1) with (IZR 2) in H2 by lra.
  destruct (onsets_from_next _ _ _ _ _ _ H2 ltac:(lra) (unit_cycle_law 2))
    as [r3 [-> H3]].
  rewrite (onsets_from_end _ _ _ _ H3) by lra.
  assert (E : map onset_time
                [mk_onset 0 (sin (PI * 0)); mk_onset 1 (sin (PI * 0));
                 mk_onset 2 (sin (PI * 0))] = [0; 1; 2]) by reflexivity.
  split; [exact E |]. rewrite E.
  intros [i [j [Hi [Hj Hne]]]]. simpl in Hi, Hj. apply Hne.
  assert (Hi' : (i = 0 \/ i = 1)%nat) by lia.
  assert (Hj' : (j = 0 \/ j = 1)%nat) by lia.
  destruct Hi' as [-> | ->]; destruct Hj' as [-> | ->]; simpl; lra.
Qed.

(** ** The cyclic law: periodic in the cursor *)

Lemma cyclic_phase_periodic (phase_offset cycle_duration : R) (accelerating : bool)
  (k : Z) (t : R) :
  cycle_duration <> 0 ->
  cyclic_phase phase_offset cycle_duration (if accelerating then 1 else -1)
    (t + IZR k * cycle_duration)
  = cyclic_phase phase_offset cycle_duration (if accelerating then 1 else -1) t.
Proof.
  intros Hc. unfold cyclic_phase. destruct accelerating.
  - replace (1 * (t + IZR k * cycle_duration) / cycle_duration + phase_offset)
      with (1 * t / cycle_duration + phase_offset + IZR k) by (field; exact Hc).
    apply float_mod1_shift.
  - replace (-1 * (t + IZR k * cycle_duration) / cycle_duration + phase_offset)
      with (-1 * t / cycle_duration + phase_offset + IZR (- k))
      by (rewrite opp_IZR; field; exact Hc).
    apply float_mod1_shift.
Qed.

(** What is periodic is the rate law: at cursors [t] and
    [t + k * cycle_duration] the loop body computes the same phase, the
    same interval to the next event and the same gain. *)
Lemma cyclic_law_periodic (base_freq phase_offset cycle_duration : R)
  (accelerating : bool) (k : Z) (t : R) (Hc : cycle_duration <> 0) :
  cyclic_phase phase_offset cycle_duration (if accelerating then 1 else -1)
    (t + IZR k * cycle_duration)
  = cyclic_phase phase_offset cycle_duration (if accelerating then 1 else -1) t
  /\
  RissetCyclic.rate_law base_freq phase_offset cycle_duration
    (if accelerating then 1 else -1) (t + IZR k * cycle_duration)
  = RissetCyclic.rate_law base_freq phase_offset cycle_duration
      (if accelerating then 1 else -1) t.
Proof.
  pose proof (cyclic_phase_periodic phase_offset cycle_duration accelerating k t Hc) as E.
  split; [exact E |].
  unfold RissetCyclic.rate_law. rewrite !float_div_ok by exact Hc. cbn [bind].
  unfold cyclic_phase in E. rewrite E. reflexivity.
Qed.

(** *** The onsets of one layer over its first two cycles *)

Lemma pow2_add (x y : R) : pow2 (x + y) = pow2 x * pow2 y.
Proof. unfold pow2. apply Rpower_plus. Qed.

Lemma pow2_two_thirds : 3 / 2 < pow2 (2 / 3) < 8 / 5.
Proof.
  pose proof (pow2_pos (2 / 3)) as Hpos.
  assert (Hcube : pow2 (2 / 3) * pow2 (2 / 3) * pow2 (2 / 3) = 4).
  { rewrite <- !pow2_add. replace (2 / 3 + 2 / 3 + 2 / 3) with (1 + 1) by lra.
    rewrite pow2_add, pow2_1. lra. }
  set (x := pow2 (2 / 3)) in *.
  split.
  - destruct (Rlt_le_dec (3 / 2) x) as [H | H]; [exact H | exfalso].
    assert (x * x <= 9 / 4) by nra.
    assert (x * x * x <= 27 / 8) by nra. lra.
  - destruct (Rlt_le_dec x (8 / 5)) as [H | H]; [exact H | exfalso].
    assert (64 / 25 <= x * x) by nra.
    assert (512 / 125 <= x * x * x) by nra. lra.
Qed.

Lemma sin_PI12_lower : 1 / 4 <= sin (PI / 12).
Proof.
  pose proof PI_RGT_0 as Hpi.
  pose proof sin_PI6 as H6.
  replace (PI / 6) with (2 * (PI / 12)) in H6 by lra.
  rewrite sin_2a in H6.
  assert (Hs : 0 < sin (PI / 12)) by (apply sin_gt_0; lra).
  pose proof (COS_bound (PI / 12)) as [_ Hc].
  nra.
Qed.

Lemma sine_fade_lower (p : R) : 1 / 12 < p <= 1 / 2 -> 1 / 4 < sin (PI * p).
Proof.
  intros [Hlo Hhi]. pose proof PI_RGT_0 as Hpi.
  apply Rle_lt_trans with (sin (PI / 12)); [apply sin_PI12_lower |].
  apply sin_increasing_1; nra.
Qed.

Lemma in_window_inside (a b : R) (o : onset) :
  a <= onset_time o < b -> in_window a b o = true.
Proof.
  intros [H1 H2]. unfold in_window.
  destruct (Rle_dec a (onset_time o)); [| contradiction].
  destruct (Rlt_dec (onset_time o) b); [reflexivity | contradiction].
Qed.

Lemma in_window_before (a b : R) (o : onset) :
  onset_time o < a -> in_window a b o = false.
Proof.
  intros H. unfold in_window.
  destruct (Rle_dec a (onset_time o)); [lra | reflexivity].
Qed.

(** The layer of the counterexample: base tempo 15 BPM (0.25 Hz), one
    layer, cycle 6 s. *)
Lemma slow_law_at_0 :
  RissetCyclic.rate_law (1 / 4) (IZR 0 / IZR 1) 6 1 0 = Ok (4, sin (PI * 0)).
Proof.
  rewrite cyclic_rate_law_value by lra.
  assert (E : cyclic_phase (IZR 0 / IZR 1) 6 1 0 = 0).
  { unfold cyclic_phase. replace (1 * 0 / 6 + IZR 0 / IZR 1) with (IZR 0) by lra.
    apply float_mod1_integer. }
  rewrite E, pow2_0. do 2 f_equal. lra.
Qed.

Lemma slow_law_at_4 :
  RissetCyclic.rate_law (1 / 4) (IZR 0 / IZR 1) 6 1 (0 + 4)
  = Ok (1 / (1 / 4 * pow2 (2 / 3)), sin (PI * (2 / 3))).
Proof.
  rewrite cyclic_rate_law_value by lra.
  assert (E : cyclic_phase (IZR 0 / IZR 1) 6 1 (0 + 4) = 2 / 3).
  { unfold cyclic_phase. replace (1 * (0 + 4) / 6 + IZR 0 / IZR 1) with (2 / 3) by lra.
    apply float_mod1_small. lra. }
  rewrite E. reflexivity.
Qed.

Lemma third_onset_time :
  13 / 2 < 0 + 4 + 1 / (1 / 4 * pow2 (2 / 3)) < 20 / 3.
Proof.
  pose proof pow2_two_thirds as [Hlo Hhi].
  assert (E : 1 / (1 / 4 * pow2 (2 / 3)) = 4 / pow2 (2 / 3)) by (field; lra).
  rewrite E.
  assert (H1 : 4 / (8 / 5) < 4 / pow2 (2 / 3)).
  { unfold Rdiv. apply Rmult_lt_compat_l; [lra |].
    apply Rinv_lt_contravar; [nra | exact Hhi]. }
  assert (H2 : 4 / pow2 (2 / 3) < 4 / (3 / 2)).
  { unfold Rdiv. apply Rmult_lt_compat_l; [lra |].
    apply Rinv_lt_contravar; [nra | exact Hlo]. }
  lra.
Qed.

Lemma third_onset_gain (t g iv : R) :
  13 / 2 < t < 20 / 3 ->
  RissetCyclic.rate_law (1 / 4) (IZR 0 / IZR 1) 6 1 t = Ok (iv, g) ->
  1 / 4 < g.
Proof.
  intros Ht H. rewrite cyclic_rate_law_value in H by lra. injection H as _ <-.
  assert (E : cyclic_phase (IZR 0 / IZR 1) 6 1 t = t / 6 - 1).
  { unfold cyclic_phase.
    replace (1 * t / 6 + IZR 0 / IZR 1) with (t / 6 - 1 + IZR 1) by lra.
    rewrite float_mod1_shift. apply float_mod1_small. lra. }
  rewrite E. apply sine_fade_lower. lra.
Qed.

(** C6.  The code breaks the claim, and with it the "seamlessly loopable"
    of its own module docstring: the rate law is periodic, but the onsets
    are placed by iterating [t += interval] from 0 and nothing puts one on
    a cycle boundary.  At 15 BPM with one layer and a cycle of 6 s over
    30 s, the first onset of the window [[0, 6)] has gain 0 while the first
    onset of [[6, 12)] has a gain above 1/4: the gain sequences of the two
    windows do not agree within the tolerance. *)
Theorem cyclic_windows_differ :
  exists fuel layer tr,
    RissetCyclic.generate_layer fuel 30 (1 / 4) 0 1 6 true 44100 = Ok (layer, tr)
    /\ ~ gains_agree 1e-6 (gains_in 0 6 tr) (gains_in 6 12 tr).
Proof.
  destruct (cyclic_layer_returns 30 (1 / 4) 0 1 6 true 44100) as [fuel [layer [tr H]]];
    try lra; try lia.
  exists fuel, layer, tr. split; [exact H |].
  destruct (cyclic_layer_sound fuel 30 (1 / 4) 0 1 6 true 44100 layer tr) as [Hon _];
    [lra | lra | lia | exact H |].
  cbv iota in Hon.
  destruct (onsets_from_next _ _ _ _ _ _ Hon ltac:(lra) slow_law_at_0) as [r1 [-> H1]].
  destruct (onsets_from_next _ _ _ _ _ _ H1 ltac:(lra) slow_law_at_4) as [r2 [-> H2]].
  pose proof third_onset_time as Ht2.
  set (t2 := 0 + 4 + 1 / (1 / 4 * pow2 (2 / 3))) in *.
  inversion H2 as [? Hge | ? iv2 g2 r3 Hlt2 Hlaw2 H3]; subst; [lra |].
  pose proof (third_onset_gain _ _ _ Ht2 Hlaw2) as Hg2.
  unfold gains_agree, gains_in. cbn [filter].
  rewrite (in_window_inside 0 6 (mk_onset 0 _)) by (simpl; lra).
  rewrite (in_window_before 6 12 (mk_onset 0 _)) by (simpl; lra).
  rewrite (in_window_before 6 12 (mk_onset (0 + 4) _)) by (simpl; lra).
  rewrite (in_window_inside 6 12 (mk_onset t2 _)) by (simpl; lra).
  cbn [map onset_gain]. intros HF. inversion HF as [| ? ? ? ? Hhead _]; subst.
  rewrite Rmult_0_r, sin_0 in Hhead.
  rewrite Rminus_0_l, Rabs_Ropp, Rabs_pos_eq in Hhead by lra. lra.
Qed.

(** ** A frequency that is not positive *)

Lemma float_div_by_zero (x y : R) : y = 0 -> float_div x y = Raise ZeroDivisionError.
Proof. intros ->. apply float_div_zero. Qed.

Lemma cyclic_law_zero_base phase_offset cycle_duration direction t :
  cycle_duration <> 0 ->
  RissetCyclic.rate_law 0 phase_offset cycle_duration direction t
  = Raise ZeroDivisionError.
Proof.
  intros Hc. unfold RissetCyclic.rate_law. rewrite float_div_ok by exact Hc. cbn [bind].
  rewrite float_div_by_zero by lra. reflexivity.
Qed.

Lemma stronger_law_zero_base duration freq_offset accelerating t :
  duration <> 0 ->
  RissetStronger.rate_law duration 0 freq_offset accelerating t
  = Raise ZeroDivisionError.
Proof.
  intros Hd. unfold RissetStronger.rate_law. rewrite float_div_ok by exact Hd. cbn [bind].
  rewrite float_div_by_zero; [reflexivity |].
  unfold RissetStronger.freq_at. destruct accelerating; lra.
Qed.

Lemma cyclic_law_backwards base_freq phase_offset cycle_duration direction t iv g :
  base_freq <= 0 ->
  RissetCyclic.rate_law base_freq phase_offset cycle_duration direction t = Ok (iv, g) ->
  iv < 0.
Proof.
  intros Hb H. unfold RissetCyclic.rate_law in H.
  apply bind_ok in H. destruct H as [q [_ H]].
  apply bind_ok in H. destruct H as [iv' [Hdiv H]]. injection H as <- _.
  unfold float_div in Hdiv.
  destruct (Req_dec_T (base_freq * pow2 (float_mod1 (q + phase_offset))) 0) as [E | N];
    [discriminate |].
  injection Hdiv as <-.
  pose proof (pow2_pos (float_mod1 (q + phase_offset))) as Hp.
  assert (Hneg : base_freq * pow2 (float_mod1 (q + phase_offset)) < 0) by nra.
  unfold Rdiv. rewrite Rmult_1_l. apply Rinv_lt_0_compat. exact Hneg.
Qed.

Lemma stronger_law_backwards duration base_freq freq_offset accelerating t iv g :
  base_freq <= 0 -> 0 < freq_offset ->
  RissetStronger.rate_law duration base_freq freq_offset accelerating t = Ok (iv, g) ->
  iv < 0.
Proof.
  intros Hb Ho H. unfold RissetStronger.rate_law in H.
  apply bind_ok in H. destruct H as [p [_ H]].
  apply bind_ok in H. destruct H as [iv' [Hdiv H]]. injection H as <- _.
  unfold float_div in Hdiv.
  destruct (Req_dec_T (RissetStronger.freq_at base_freq freq_offset accelerating p) 0)
    as [E | N]; [discriminate |].
  injection Hdiv as <-.
  assert (Hneg : RissetStronger.freq_at base_freq freq_offset accelerating p < 0).
  { assert (Hle : RissetStronger.freq_at base_freq freq_offset accelerating p <= 0).
    { unfold RissetStronger.freq_at.
      destruct accelerating;
        match goal with |- context [pow2 ?e] => pose proof (pow2_pos e) end;
        assert (base_freq * freq_offset <= 0) by nra; nra. }
    lra. }
  unfold Rdiv. rewrite Rmult_1_l. apply Rinv_lt_0_compat. exact Hneg.
Qed.

Lemma run_layer_first_pass_raises law make_hit_call sample_rate duration fuel e :
  (0 < sample_rate)%Z -> 0 < duration -> law 0 = Raise e ->
  run_layer law make_hit_call sample_rate duration (S fuel) = Raise e.
Proof.
  intros Hsr Hd Hlaw. unfold run_layer, run_clock, np_zeros.
  assert (Hs : (0 <= py_int (duration * IZR sample_rate))%Z).
  { apply py_int_ge_0. assert (0 < IZR sample_rate) by (apply IZR_lt; exact Hsr). nra. }
  destruct (Z.ltb_spec (py_int (duration * IZR sample_rate)) 0); [lia |].
  cbn [bind while_loop cursor].
  destruct (Rlt_dec 0 duration); [| contradiction].
  unfold loop_body. cbn [cursor]. rewrite Hlaw. reflexivity.
Qed.

Lemma run_layer_backwards law make_hit_call sample_rate duration fuel layer tr :
  0 < duration -> (forall t iv g, law t = Ok (iv, g) -> iv < 0) ->
  run_layer law make_hit_call sample_rate duration fuel <> Ok (layer, tr).
Proof.
  intros Hd Hneg H. apply run_layer_ok in H. destruct H as [_ [st [Hrun _]]].
  revert Hrun. apply while_loop_backwards; [exact Hd | exact Hneg | simpl; lra].
Qed.

(** *** A clock that runs backwards *)

(** A stamp returns the layer or raises [ValueError]: nothing else. *)
Lemma stamp_outcome sample_rate samples hit t gain layer :
  (exists layer', stamp sample_rate samples hit t gain layer = Ok layer')
  \/ stamp sample_rate samples hit t gain layer = Raise ValueError.
Proof.
  unfold stamp, slice_iadd.
  match goal with |- context [Nat.eqb ?a ?b] => destruct (Nat.eqb a b) end;
    [left; eexists; reflexivity |].
  match goal with |- context [match ?v with [] => _ | _ :: _ => _ end] =>
    destruct v as [| c [| d rest]] end;
    [right; reflexivity | left; eexists; reflexivity | right; reflexivity].
Qed.

(** With a law that always gives a negative interval, a run from a cursor
    at or below 0 is still running when its budget ends, unless a stamp
    has raised [ValueError]. *)
Lemma while_loop_backwards_outcome rate_law make_hit_call sample_rate samples
  total_duration (hit : list R) :
  0 < total_duration -> make_hit_call = Ok hit ->
  (forall t, exists iv g, rate_law t = Ok (iv, g) /\ iv < 0) ->
  forall fuel st, cursor st <= 0 ->
    while_loop rate_law make_hit_call sample_rate samples total_duration fuel st
    = OutOfFuel
    \/ while_loop rate_law make_hit_call sample_rate samples total_duration fuel st
       = Raise ValueError.
Proof.
  intros Hd Hhit Hlaw. subst make_hit_call.
  induction fuel as [| fuel IH]; intros st H0; [left; reflexivity |].
  cbn [while_loop]. destruct (Rlt_dec (cursor st) total_duration) as [_ | Hge]; [| lra].
  unfold loop_body. destruct (Hlaw (cursor st)) as [iv [g [E Hiv]]].
  rewrite E. cbn [bind].
  destruct (stamp_outcome sample_rate samples hit (cursor st) g (buffer st))
    as [[layer' ->] | ->]; cbn [bind]; [| right; reflexivity].
  apply IH. cbn [cursor]. lra.
Qed.

Lemma first_pass_backwards rate_law make_hit_call sample_rate total_duration
  (hit : list R) (iv g : R) :
  (0 < sample_rate)%Z -> 0 < total_duration -> make_hit_call = Ok hit ->
  rate_law 0 = Ok (iv, g) -> iv < 0 ->
  let samples := py_int (total_duration * IZR sample_rate) in
  exists st1,
    loop_body rate_law make_hit_call sample_rate samples
      (mk_state 0 (repeat 0 (Z.to_nat samples)) []) = Ok st1
    /\ cursor st1 < 0
    /\ trace st1 = [mk_onset 0 g].
Proof.
  intros Hsr Hd Hhit Hlaw Hiv samples.
  assert (Hs : (0 <= samples)%Z).
  { apply py_int_ge_0. assert (0 < IZR sample_rate) by (apply IZR_lt; exact Hsr). nra. }
  destruct (stamp_inside sample_rate total_duration 0 g hit
              (repeat 0 (Z.to_nat samples))) as [layer' [E _]].
  - exact Hsr.
  - lra.
  - rewrite repeat_length. fold samples. lia.
  - fold samples in E. eexists. split.
    + unfold loop_body. cbn [cursor buffer trace]. rewrite Hlaw. cbn [bind].
      rewrite Hhit. cbn [bind]. rewrite E. reflexivity.
    + cbn [cursor trace app]. split; [lra | reflexivity].
Qed.

Lemma cyclic_law_negative base_freq phase_offset cycle_duration direction t :
  base_freq < 0 -> cycle_duration <> 0 ->
  exists iv g,
    RissetCyclic.rate_law base_freq phase_offset cycle_duration direction t = Ok (iv, g)
    /\ iv < 0.
Proof.
  intros Hb Hc.
  pose proof (cyclic_rate_law_value base_freq phase_offset cycle_duration direction t
                Hc ltac:(lra)) as E.
  eexists _, _. split; [exact E |].
  eapply cyclic_law_backwards; [| exact E]. lra.
Qed.

Lemma stronger_law_negative duration base_freq freq_offset accelerating t :
  duration <> 0 -> base_freq < 0 -> 0 < freq_offset ->
  exists iv g,
    RissetStronger.rate_law duration base_freq freq_offset accelerating t = Ok (iv, g)
    /\ iv < 0.
Proof.
  intros Hd Hb Ho.
  assert (Hf : RissetStronger.freq_at base_freq freq_offset accelerating (t / duration)
               <> 0).
  { unfold RissetStronger.freq_at.
    destruct accelerating;
      match goal with |- context [pow2 ?e] => pose proof (pow2_pos e) end;
      assert (base_freq * freq_offset < 0) by nra; nra. }
  assert (E : RissetStronger.rate_law duration base_freq freq_offset accelerating t
              = Ok (1 / RissetStronger.freq_at base_freq freq_offset accelerating
                          (t / duration),
                    smoothed_gate (t / duration) 1.3
                    * RissetStronger.loudness accelerating (t / duration))).
  { unfold RissetStronger.rate_law. rewrite float_div_ok by exact Hd. cbn [bind].
    rewrite float_div_ok by exact Hf. reflexivity. }
  eexists _, _. split; [exact E |].
  eapply stronger_law_backwards; [| exact Ho | exact E]. lra.
Qed.

Lemma run_layer_backwards_outcome law make_hit_call sample_rate duration fuel
  (hit : list R) :
  (0 < sample_rate)%Z -> 0 < duration -> make_hit_call = Ok hit ->
  (forall t, exists iv g, law t = Ok (iv, g) /\ iv < 0) ->
  run_layer law make_hit_call sample_rate duration fuel = OutOfFuel
  \/ run_layer law make_hit_call sample_rate duration fuel = Raise ValueError.
Proof.
  intros Hsr Hd Hhit Hlaw. unfold run_layer, run_clock, np_zeros.
  assert (Hs : (0 <= py_int (duration * IZR sample_rate))%Z).
  { apply py_int_ge_0. assert (0 < IZR sample_rate) by (apply IZR_lt; exact Hsr). nra. }
  destruct (Z.ltb_spec (py_int (duration * IZR sample_rate)) 0); [lia |].
  cbn [bind].
  destruct (while_loop_backwards_outcome law make_hit_call sample_rate
              (py_int (duration * IZR sample_rate)) duration hit Hd Hhit Hlaw fuel
              (mk_state 0 (repeat 0 (Z.to_nat (py_int (duration * IZR sample_rate)))) []))
    as [-> | ->]; [simpl; lra | left; reflexivity | right; reflexivity].
Qed.



(** *** Base frequency -1: three passes, then [ValueError] *)

(** A slice assignment whose right-hand side has the length of the slice
    keeps the length of the array; one whose right-hand side has another
    length, and not length one, is refused. *)
Lemma slice_iadd_fits (l v : list R) (start stop : Z) :
  let n := Z.of_nat (length l) in
  let a := Z.to_nat (slice_index n start) in
  let b := Z.to_nat (slice_index n stop) in
  length v = (b - a)%nat ->
  exists l', slice_iadd l start stop v = Ok l' /\ length l' = length l.
Proof.
  intros n a b Hv. unfold slice_iadd. fold n. fold a. fold b.
  rewrite Hv, Nat.eqb_refl. eexists. split; [reflexivity |].
  assert (Ha : (a <= length l)%nat) by (unfold a, slice_index, n; lia).
  assert (Hb : (b <= length l)%nat) by (unfold b, slice_index, n; lia).
  rewrite !length_app, length_firstn, length_skipn.
  assert (Hvadd : length (vadd (firstn (b - a) (skipn a l)) v) = (b - a)%nat).
  { rewrite vadd_length; rewrite length_firstn, length_skipn; lia. }
  rewrite Hvadd. lia.
Qed.

Lemma slice_iadd_mismatch (l v : list R) (start stop : Z) :
  let n := Z.of_nat (length l) in
  let a := Z.to_nat (slice_index n start) in
  let b := Z.to_nat (slice_index n stop) in
  length v <> (b - a)%nat -> length v <> 1%nat ->
  slice_iadd l start stop v = Raise ValueError.
Proof.
  intros n a b Hv H1. unfold slice_iadd. fold n. fold a. fold b.
  destruct (Nat.eqb_spec (length v) (b - a)) as [E | _]; [contradiction |].
  destruct v as [| c [| d rest]]; [reflexivity | simpl in H1; lia | reflexivity].
Qed.

Lemma backward_unit_law (k : Z) :
  RissetCyclic.rate_law (-1) (IZR 0 / IZR 1) 1 1 (IZR k) = Ok (-1, 0).
Proof.
  rewrite cyclic_rate_law_value by lra.
  assert (E : cyclic_phase (IZR 0 / IZR 1) 1 1 (IZR k) = 0).
  { unfold cyclic_phase.
    replace (1 * IZR k / 1 + IZR 0 / IZR 1) with (IZR k) by lra.
    apply float_mod1_integer. }
  rewrite E, pow2_0, Rmult_0_r, sin_0. do 2 f_equal. lra.
Qed.

Section BackwardRun.

(** The layer of the counterexample: 2 s at 100 samples per second, base
    frequency -1 Hz, one layer, cycle 1 s; its hit has 3 samples. *)
Let law := RissetCyclic.rate_law (-1) (IZR 0 / IZR 1) 1 1.
Let hit_call := RissetCyclic.make_hit 100 35 (120 + IZR 0 * 30) 45.

Variable hit : list R.
Hypothesis hit_made : hit_call = Ok hit.
Hypothesis hit_length : length hit = 3%nat.

Lemma backward_stamp_fits (k : Z) (layer : list R) :
  length layer = 200%nat -> (-2 <= k <= 0)%Z ->
  exists layer',
    stamp 100 200 hit (IZR k) 0 layer = Ok layer' /\ length layer' = 200%nat.
Proof.
  intros Hl Hk. unfold stamp.
  replace (IZR k * IZR 100) with (IZR (k * 100)) by (rewrite mult_IZR; reflexivity).
  rewrite py_int_IZR, hit_length.
  assert (Hstop : Z.min (k * 100 + Z.of_nat 3) 200 = (k * 100 + 3)%Z) by lia.
  rewrite Hstop.
  replace (k * 100 + 3 - k * 100)%Z with 3%Z by lia.
  rewrite py_prefix_length by (rewrite hit_length; lia).
  destruct (slice_iadd_fits layer (map (fun h => h * 0) (firstn (Z.to_nat 3) hit))
              (k * 100) (k * 100 + 3)) as [layer' [E Hl']].
  - rewrite length_map, length_firstn, hit_length, Hl. unfold slice_index.
    assert (Hcase : (k = 0 \/ k = -1 \/ k = -2)%Z) by lia.
    destruct Hcase as [-> | [-> | ->]]; reflexivity.
  - exists layer'. split; [exact E | lia].
Qed.

Lemma backward_stamp_raises (layer : list R) :
  length layer = 200%nat ->
  stamp 100 200 hit (IZR (-3)) 0 layer = Raise ValueError.
Proof.
  intros Hl. unfold stamp.
  replace (IZR (-3) * IZR 100) with (IZR (-300)) by lra.
  rewrite py_int_IZR, hit_length.
  change (Z.min (-300 + Z.of_nat 3) 200) with (-297)%Z.
  change (-297 - -300)%Z with 3%Z.
  rewrite py_prefix_length by (rewrite hit_length; lia).
  apply slice_iadd_mismatch;
    rewrite length_map, length_firstn, hit_length, ?Hl; unfold slice_index; simpl; lia.
Qed.

Lemma backward_pass (k : Z) (layer : list R) (tr : list onset) :
  length layer = 200%nat -> (-2 <= k <= 0)%Z ->
  exists layer',
    loop_body law hit_call 100 200 (mk_state (IZR k) layer tr)
    = Ok (mk_state (IZR (k - 1)) layer' (tr ++ [mk_onset (IZR k) 0]))
    /\ length layer' = 200%nat.
Proof.
  intros Hl Hk. destruct (backward_stamp_fits k layer Hl Hk) as [layer' [E Hl']].
  exists layer'. split; [| exact Hl'].
  unfold loop_body. cbn [cursor buffer trace]. unfold law.
  rewrite backward_unit_law. cbn [bind]. rewrite hit_made. cbn [bind].
  rewrite E. cbn [bind]. do 2 f_equal. rewrite minus_IZR. lra.
Qed.

Lemma backward_pass_raises (layer : list R) (tr : list onset) :
  length layer = 200%nat ->
  loop_body law hit_call 100 200 (mk_state (IZR (-3)) layer tr) = Raise ValueError.
Proof.
  intros Hl. unfold loop_body. cbn [cursor buffer trace]. unfold law.
  rewrite backward_unit_law. cbn [bind]. rewrite hit_made. cbn [bind].
  rewrite backward_stamp_raises by exact Hl. reflexivity.
Qed.

(** Three passes go through, stamping at the cursors 0, -1 and -2 (from
    the second on through negative start indices, which count from the end
    of the buffer); the fourth raises. *)
Lemma backward_run (layer : list R) :
  length layer = 200%nat ->
  while_loop law hit_call 100 200 2 3 (mk_state (IZR 0) layer []) = OutOfFuel
  /\ while_loop law hit_call 100 200 2 4 (mk_state (IZR 0) layer []) = Raise ValueError.
Proof.
  intros Hl.
  destruct (backward_pass 0 layer [] Hl ltac:(lia)) as [l1 [E1 Hl1]].
  destruct (backward_pass (-1) l1 ([] ++ [mk_onset (IZR 0) 0]) Hl1 ltac:(lia))
    as [l2 [E2 Hl2]].
  destruct (backward_pass (-2) l2
              (([] ++ [mk_onset (IZR 0) 0]) ++ [mk_onset (IZR (-1)) 0]) Hl2 ltac:(lia))
    as [l3 [E3 Hl3]].
  change (0 - 1)%Z with (-1)%Z in E1. change (-1 - 1)%Z with (-2)%Z in E2.
  change (-2 - 1)%Z with (-3)%Z in E3.
  split.
  - cbn [while_loop cursor].
    destruct (Rlt_dec (IZR 0) 2); [| lra]. rewrite E1. cbn [bind cursor].
    destruct (Rlt_dec (IZR (-1)) 2); [| lra]. rewrite E2. cbn [bind cursor].
    destruct (Rlt_dec (IZR (-2)) 2); [| lra]. rewrite E3. reflexivity.
  - cbn [while_loop cursor].
    destruct (Rlt_dec (IZR 0) 2); [| lra]. rewrite E1. cbn [bind cursor].
    destruct (Rlt_dec (IZR (-1)) 2); [| lra]. rewrite E2. cbn [bind cursor].
    destruct (Rlt_dec (IZR (-2)) 2); [| lra]. rewrite E3. cbn [bind cursor].
    destruct (Rlt_dec (IZR (-3)) 2); [| lra].
    rewrite backward_pass_raises by exact Hl3. reflexivity.
Qed.

End BackwardRun.


(** ** The exponential frequency law *)

Lemma exponential_rate_law_value (duration base_freq freq_offset : R)
  (accelerating : bool) (t : R) :
  duration <> 0 -> 0 < base_freq -> 0 < freq_offset ->
  RissetExponential.rate_law duration base_freq freq_offset accelerating t =
  Ok (1 / (base_freq * freq_offset
           * pow2 (if accelerating then t / duration else - (t / duration))),
      sin (PI * (t / duration))).
Proof.
  intros Hd Hb Ho. unfold RissetExponential.rate_law.
  rewrite float_div_ok by exact Hd. cbn [bind].
  unfold RissetExponential.freq_at.
  assert (Hbo : 0 < base_freq * freq_offset) by (apply Rmult_lt_0_compat; assumption).
  destruct accelerating;
    (rewrite float_div_ok;
     [reflexivity
     | apply Rgt_not_eq; apply Rmult_lt_0_compat; [exact Hbo | apply pow2_pos]]).
Qed.

Lemma shepard_frequency_table (g : Shepard.config) (octave_index num_samples : nat) :
  Shepard.duration_seconds g <> 0 ->
  Shepard.frequency g octave_index num_samples =
  map (fun i =>
         Shepard.base_frequency g * 2 ^ octave_index
         * pow2 ((match Shepard.dir g with Shepard.Up => 1 | Shepard.Down => -1 end)
                 * (INR i / INR num_samples) * Shepard.rise_rate g))
    (seq 0 num_samples).
Proof.
  intros Hd. unfold Shepard.frequency, Shepard.time_array, linspace_open.
  destruct (Shepard.dir g); rewrite map_map; apply map_ext_in; intros i Hi;
    apply in_seq in Hi;
    assert (Hn : INR num_samples <> 0) by (apply not_0_INR; lia);
    f_equal; f_equal; field; split; assumption.
Qed.

(** C5, as amended.  The event generators follow
    [base * 2^(layer_index / num_layers) * 2^(+-progress * range)], with
    range 1 in the exponential version and [EXP_RANGE] = 3 in the stronger
    one, the sign following the direction.  The Shepard oscillator offsets
    its layers by whole octaves instead: sample [i] of layer [octave_index]
    has frequency [base * 2^octave_index * 2^(+-(i / N) * rise_rate)]. *)
Theorem exponential_frequency_law (duration base_freq : R)
  (layer_index num_layers : Z) (accelerating : bool)
  (g : Shepard.config) (octave_index num_samples : nat)
  (Hd : duration <> 0) (Hb : 0 < base_freq) (Hn : num_layers <> 0%Z)
  (Hg : Shepard.duration_seconds g <> 0) :
  (forall fuel sample_rate,
     RissetExponential.generate_layer fuel duration base_freq layer_index num_layers
       accelerating sample_rate
     = run_layer
         (RissetExponential.rate_law duration base_freq
            (pow2 (IZR layer_index / IZR num_layers)) accelerating)
         (RissetExponential.make_hit sample_rate 60 (80 + IZR layer_index * 30))
         sample_rate duration fuel)
  /\ (forall t,
        RissetExponential.rate_law duration base_freq
          (pow2 (IZR layer_index / IZR num_layers)) accelerating t
        = Ok (1 / (base_freq * pow2 (IZR layer_index / IZR num_layers)
                   * pow2 (if accelerating then t / duration else - (t / duration))),
              sin (PI * (t / duration))))
  /\ (forall fuel sample_rate,
        RissetStronger.generate_layer fuel duration base_freq layer_index num_layers
          accelerating sample_rate
        = run_layer
            (RissetStronger.rate_law duration base_freq
               (pow2 (IZR layer_index / IZR num_layers)) accelerating)
            (RissetStronger.make_hit sample_rate 40 (120 + IZR layer_index * 40))
            sample_rate duration fuel)
  /\ (forall t,
        RissetStronger.rate_law duration base_freq
          (pow2 (IZR layer_index / IZR num_layers)) accelerating t
        = Ok (1 / (if accelerating
                   then base_freq * pow2 (IZR layer_index / IZR num_layers)
                        * pow2 (t / duration * 3)
                   else base_freq * pow2 (IZR layer_index / IZR num_layers)
                        * pow2 (- (t / duration) * 3)),
              smoothed_gate (t / duration) 1.3
              * RissetStronger.loudness accelerating (t / duration)))
  /\ Shepard.frequency g octave_index num_samples =
     map (fun i =>
            Shepard.base_frequency g * 2 ^ octave_index
            * pow2 ((match Shepard.dir g with Shepard.Up => 1 | Shepard.Down => -1 end)
                    * (INR i / INR num_samples) * Shepard.rise_rate g))
       (seq 0 num_samples).
Proof.
  pose proof (pow2_pos (IZR layer_index / IZR num_layers)) as Ho.
  split; [| split; [| split; [| split]]].
  - intros fuel sample_rate. unfold RissetExponential.generate_layer, run_layer.
    rewrite float_div_ok by (apply IZR_nonzero; exact Hn).
    destruct (np_zeros _); reflexivity.
  - intros t. apply exponential_rate_law_value; assumption.
  - intros fuel sample_rate. apply stronger_generate_layer_unfold. exact Hn.
  - intros t. rewrite stronger_rate_law_value by assumption.
    unfold RissetStronger.freq_at, RissetStronger.EXP_RANGE.
    destruct accelerating; reflexivity.
  - apply shepard_frequency_table. exact Hg.
Qed.

Lemma exponential_frequency_law_witness :
  (20 <> 0 /\ 0 < 4 / 3 /\ 3%Z <> 0%Z)
  /\ forall t,
       RissetExponential.rate_law 20 (4 / 3) (pow2 (IZR 1 / IZR 3)) true t
       = Ok (1 / (4 / 3 * pow2 (IZR 1 / IZR 3) * pow2 (t / 20)), sin (PI * (t / 20))).
Proof.
  split; [split; [lra | split; [lra | lia]] |].
  exact (proj1 (proj2 (exponential_frequency_law 20 (4 / 3) 1 3 true
                         (Shepard.mk_config 30 55 8 1 Shepard.Up 44100) 1 4
                         ltac:(lra) ltac:(lra) ltac:(lia) ltac:(simpl; lra)))).
Defined.

(** C5 as stated fails for the Shepard oscillator: with base 55 Hz and 8
    octaves, layer 1 starts at 110 Hz, one whole octave above the base, and
    not at [55 * 2^(1/8)]. *)
Lemma shepard_octave_offset_counterexample :
  nth 0 (Shepard.frequency (Shepard.mk_config 30 55 8 1 Shepard.Up 44100) 1 4) 0 = 110
  /\ 110 <> 55 * pow2 (1 / 8) * pow2 (0 * 1).
Proof.
  split.
  - rewrite shepard_frequency_table by (simpl; lra).
    cbn [seq map nth Shepard.base_frequency Shepard.dir Shepard.rise_rate].
    replace (1 * (INR 0 / INR 4) * 1) with 0 by (cbn [INR]; lra).
    rewrite pow2_0. lra.
  - replace (0 * 1) with 0 by lra. rewrite pow2_0.
    assert (pow2 (1 / 8) < 2) by (rewrite <- pow2_1; apply pow2_lt; lra). lra.
Qed.

(** ** The tempo ramp: a phase accumulator *)

Lemma beats_0 sr bpm : beats sr bpm 0 = 0.
Proof. reflexivity. Qed.

Lemma beats_cons sr b rest k :
  beats sr (b :: rest) (S k) = b / 60 / IZR sr + beats sr rest k.
Proof. reflexivity. Qed.

Lemma floor_step (B inc : R) :
  0 <= inc < 1 ->
  (1 <= float_mod1 B + inc ->
     Zfloor (B + inc) = (Zfloor B + 1)%Z
     /\ float_mod1 (B + inc) = float_mod1 B + inc - 1)
  /\ (float_mod1 B + inc < 1 ->
        Zfloor (B + inc) = Zfloor B /\ float_mod1 (B + inc) = float_mod1 B + inc).
Proof.
  intros Hinc. pose proof (float_mod1_range B) as Hr. unfold float_mod1 in *.
  split; intros H.
  - assert (E : Zfloor (B + inc) = (Zfloor B + 1)%Z).
    { apply Zfloor_eq. rewrite plus_IZR. lra. }
    split; [exact E |]. rewrite E, plus_IZR. lra.
  - assert (E : Zfloor (B + inc) = Zfloor B).
    { apply Zfloor_eq. lra. }
    split; [exact E |]. rewrite E. lra.
Qed.

Section Accumulator.

Variable beep : list R.
Variable beep_samples sample_rate : Z.
Hypothesis beep_length : Z.of_nat (length beep) = beep_samples.

Lemma ramp_step_quiet (st : TempoRamp.ramp_state) (i : Z) (b : R) :
  TempoRamp.phase st + b / 60 / IZR sample_rate < 1 ->
  TempoRamp.ramp_step beep beep_samples sample_rate st i b
  = Ok (TempoRamp.mk_ramp (TempoRamp.phase st + b / 60 / IZR sample_rate)
          (TempoRamp.signal st) (TempoRamp.beeps st)).
Proof.
  intros H. unfold TempoRamp.ramp_step.
  destruct (Rle_dec 1 (TempoRamp.phase st + b / 60 / IZR sample_rate)); [lra | reflexivity].
Qed.

Lemma ramp_step_beep (st : TempoRamp.ramp_state) (i : Z) (b : R) :
  1 <= TempoRamp.phase st + b / 60 / IZR sample_rate ->
  (0 <= i <= Z.of_nat (length (TempoRamp.signal st)))%Z ->
  exists signal',
    length signal' = length (TempoRamp.signal st)
    /\ TempoRamp.ramp_step beep beep_samples sample_rate st i b
       = Ok (TempoRamp.mk_ramp (TempoRamp.phase st + b / 60 / IZR sample_rate - 1)
               signal' (TempoRamp.beeps st ++ [i])).
Proof.
  intros H Hi. unfold TempoRamp.ramp_step.
  destruct (Rle_dec 1 (TempoRamp.phase st + b / 60 / IZR sample_rate)); [| lra].
  set (stop := Z.min (i + beep_samples) (Z.of_nat (length (TempoRamp.signal st)))).
  assert (Hstop : (i <= stop)%Z) by (unfold stop; lia).
  rewrite py_prefix_length by (unfold stop; lia).
  destruct (slice_iadd_inside (TempoRamp.signal st)
              (firstn (Z.to_nat (stop - i)) beep) i stop) as [signal' [E [Hl _]]].
  - lia.
  - unfold stop. lia.
  - rewrite length_firstn. unfold stop. lia.
  - exists signal'. split; [exact Hl |]. rewrite E. reflexivity.
Qed.

(** The loop against the integrated beat count [B]: the phase it keeps is
    the fractional part of the count, and a beep falls on the samples where
    the integer part of the count advances. *)
Lemma ramp_loop_invariant (rest : list R) :
  forall st i B,
    Forall (fun b => 0 <= b / 60 / IZR sample_rate < 1) rest ->
    TempoRamp.phase st = float_mod1 B ->
    (0 <= i)%Z ->
    (i + Z.of_nat (length rest) <= Z.of_nat (length (TempoRamp.signal st)))%Z ->
    exists st',
      TempoRamp.ramp_loop beep beep_samples sample_rate st i rest = Ok st'
      /\ length (TempoRamp.signal st') = length (TempoRamp.signal st)
      /\ TempoRamp.phase st' = float_mod1 (B + beats sample_rate rest (length rest))
      /\ exists new,
           TempoRamp.beeps st' = TempoRamp.beeps st ++ new
           /\ (forall j, In j new <->
                 exists k, (k < length rest)%nat /\ j = (i + Z.of_nat k)%Z
                   /\ Zfloor (B + beats sample_rate rest (S k))
                      = (Zfloor (B + beats sample_rate rest k) + 1)%Z)
           /\ Z.of_nat (length new)
              = (Zfloor (B + beats sample_rate rest (length rest)) - Zfloor B)%Z.
Proof.
  induction rest as [| b rest IH]; intros st i B Hall Hph Hi Hlen.
  - exists st. cbn [TempoRamp.ramp_loop length]. rewrite beats_0, Rplus_0_r.
    split; [reflexivity |]. split; [reflexivity |]. split; [exact Hph |].
    exists []. split; [now rewrite app_nil_r |]. split.
    + intros j. split; [intros [] | intros [k [Hk _]]; simpl in Hk; lia].
    + simpl. lia.
  - apply Forall_cons_iff in Hall. destruct Hall as [Hb Hrest].
    set (inc := b / 60 / IZR sample_rate) in *.
    destruct (floor_step B inc Hb) as [Hbeep Hquiet].
    cbn [TempoRamp.ramp_loop length] in *.
    assert (Hcount : forall k, B + beats sample_rate (b :: rest) (S k)
                               = B + inc + beats sample_rate rest k).
    { intros k. rewrite beats_cons. fold inc. lra. }
    destruct (Rle_lt_dec 1 (TempoRamp.phase st + inc)) as [Hge | Hlt].
    + destruct (ramp_step_beep st i b Hge ltac:(lia)) as [signal' [Hl Hstep]].
      fold inc in Hstep. rewrite Hstep. cbn [bind].
      rewrite Hph in Hge. destruct (Hbeep Hge) as [Hfl Hfr].
      destruct (IH (TempoRamp.mk_ramp (TempoRamp.phase st + inc - 1) signal'
                      (TempoRamp.beeps st ++ [i])) (i + 1)%Z (B + inc) Hrest)
        as [st' [Hrun [Hsl [Hp [new [Hnew [Hin Hcnt]]]]]]].
      * simpl. rewrite Hph. symmetry. exact Hfr.
      * lia.
      * simpl. rewrite Hl. lia.
      * exists st'. split; [exact Hrun |]. simpl in Hsl.
        split; [now rewrite Hsl |]. split; [rewrite Hcount; exact Hp |].
        exists (i :: new). split; [simpl in Hnew; rewrite Hnew, <- app_assoc; reflexivity |].
        split.
        -- intros j. split.
           ++ intros [<- | Hj].
              ** exists 0%nat. split; [lia |]. split; [lia |].
                 rewrite Hcount, !beats_0, !Rplus_0_r. exact Hfl.
              ** apply Hin in Hj. destruct Hj as [k [Hk [-> Hf]]].
                 exists (S k). split; [lia |]. split; [lia |].
                 rewrite !Hcount. exact Hf.
           ++ intros [k [Hk [-> Hf]]]. destruct k as [| k].
              ** left. lia.
              ** right. apply Hin. exists k. split; [lia |]. split; [lia |].
                 rewrite !Hcount in Hf. exact Hf.
        -- rewrite Hcount. cbn [length]. lia.
    + rewrite (ramp_step_quiet st i b Hlt). cbn [bind].
      rewrite Hph in Hlt. destruct (Hquiet Hlt) as [Hfl Hfr].
      destruct (IH (TempoRamp.mk_ramp (TempoRamp.phase st + inc) (TempoRamp.signal st)
                      (TempoRamp.beeps st)) (i + 1)%Z (B + inc) Hrest)
        as [st' [Hrun [Hsl [Hp [new [Hnew [Hin Hcnt]]]]]]].
      * simpl. rewrite Hph. symmetry. exact Hfr.
      * lia.
      * simpl. lia.
      * exists st'. split; [exact Hrun |]. simpl in Hsl.
        split; [exact Hsl |]. split; [rewrite Hcount; exact Hp |].
        exists new. split; [exact Hnew |]. split.
        -- intros j. split.
           ++ intros Hj. apply Hin in Hj. destruct Hj as [k [Hk [-> Hf]]].
              exists (S k). split; [lia |]. split; [lia |].
              rewrite !Hcount. exact Hf.
           ++ intros [k [Hk [-> Hf]]]. destruct k as [| k].
              ** exfalso. rewrite Hcount, !beats_0, !Rplus_0_r in Hf. lia.
              ** apply Hin. exists k. split; [lia |]. split; [lia |].
                 rewrite !Hcount in Hf. exact Hf.
        -- rewrite Hcount. lia.
Qed.

(** A ramp too slow to complete one beat stamps nothing. *)
Lemma ramp_loop_silent (c : R) (rest : list R) :
  forall st i,
    Forall (fun b => 0 <= b / 60 / IZR sample_rate <= c) rest ->
    TempoRamp.phase st + INR (length rest) * c < 1 ->
    exists p,
      TempoRamp.ramp_loop beep beep_samples sample_rate st i rest
      = Ok (TempoRamp.mk_ramp p (TempoRamp.signal st) (TempoRamp.beeps st)).
Proof.
  induction rest as [| b rest IH]; intros st i Hall Hsum.
  - exists (TempoRamp.phase st). destruct st; reflexivity.
  - apply Forall_cons_iff in Hall. destruct Hall as [Hb Hrest].
    cbn [length] in Hsum. rewrite S_INR in Hsum.
    assert (Hc : 0 <= c) by lra.
    pose proof (pos_INR (length rest)) as Hn.
    cbn [TempoRamp.ramp_loop]. rewrite ramp_step_quiet by nra. cbn [bind].
    destruct (IH (TempoRamp.mk_ramp (TempoRamp.phase st + b / 60 / IZR sample_rate)
                    (TempoRamp.signal st) (TempoRamp.beeps st)) (i + 1)%Z Hrest)
      as [p Hp].
    + simpl. nra.
    + exists p. exact Hp.
Qed.

End Accumulator.

(** *** The ramp and the beep *)

Lemma linspace_between (a b : R) (n : nat) (x : R) :
  In x (linspace a b n) -> Rmin a b <= x <= Rmax a b.
Proof.
  unfold linspace. intros H. apply in_map_iff in H. destruct H as [i [<- Hi]].
  apply in_seq in Hi.
  pose proof (Rmin_l a b). pose proof (Rmin_r a b).
  pose proof (Rmax_l a b). pose proof (Rmax_r a b).
  destruct (Nat.eq_dec n 1) as [-> | Hn1].
  - assert (i = 0%nat) by lia. subst. simpl. lra.
  - assert (Hd : 0 < INR (n - 1)) by (apply lt_0_INR; lia).
    assert (Hi' : 0 <= INR i <= INR (n - 1)).
    { split; [apply pos_INR | apply le_INR; lia]. }
    set (lam := INR i / INR (n - 1)).
    assert (Hlam : 0 <= lam <= 1).
    { unfold lam. split.
      - apply Rle_mult_inv_pos; lra.
      - apply (Rmult_le_reg_r (INR (n - 1))); [exact Hd |].
        unfold Rdiv. rewrite Rmult_assoc, Rinv_l by lra. lra. }
    replace (a + INR i * ((b - a) / INR (n - 1))) with (a + lam * (b - a))
      by (unfold lam; field; lra).
    split; nra.
Qed.

Lemma np_hanning_length (M : nat) : length (TempoRamp.np_hanning M) = M.
Proof.
  destruct M as [| [| M]]; [reflexivity | reflexivity |].
  unfold TempoRamp.np_hanning. now rewrite length_map, length_seq.
Qed.

Lemma make_beep_ok (beep_freq beep_duration : R) (beep_samples : Z) :
  (0 <= beep_samples)%Z ->
  exists beep,
    TempoRamp.make_beep beep_freq beep_duration beep_samples = Ok beep
    /\ Z.of_nat (length beep) = beep_samples.
Proof.
  intros H. unfold TempoRamp.make_beep.
  destruct (Z.ltb_spec beep_samples 0); [lia |].
  eexists. split; [reflexivity |].
  rewrite vmul_length; rewrite length_map, linspace_open_length;
    [lia | now rewrite np_hanning_length].
Qed.

Lemma ramp_increments_in_unit (bpm_start bpm_end : R) (sample_rate : Z) (n : nat) :
  (0 < sample_rate)%Z ->
  0 <= bpm_start < 60 * IZR sample_rate -> 0 <= bpm_end < 60 * IZR sample_rate ->
  Forall (fun b => 0 <= b / 60 / IZR sample_rate < 1) (linspace bpm_start bpm_end n).
Proof.
  intros Hsr Hs He. apply Forall_forall. intros b Hb.
  apply linspace_between in Hb.
  assert (Hr : 0 < IZR sample_rate) by (apply IZR_lt; exact Hsr).
  assert (H0 : 0 <= b).
  { destruct Hb as [Hb _]. unfold Rmin in Hb. destruct (Rle_dec bpm_start bpm_end); lra. }
  assert (H1 : b < 60 * IZR sample_rate).
  { destruct Hb as [_ Hb]. unfold Rmax in Hb. destruct (Rle_dec bpm_start bpm_end); lra. }
  split.
  - apply Rle_mult_inv_pos; [lra | exact Hr].
  - apply (Rmult_lt_reg_r (IZR sample_rate)); [exact Hr |].
    unfold Rdiv. rewrite Rmult_assoc, Rinv_l by lra. lra.
Qed.

(** C10, as amended.  The tempo-ramp generator is a single layer of
    unit-gain beeps on the linear BPM ramp, but its clock is a per-sample
    phase accumulator, not the event clock: it integrates
    [bpm[i] / 60 / sample_rate] sample by sample and wraps the phase at 1.
    On a ramp whose partial beat counts keep clear of the whole numbers by
    more than the rounding of the accumulator, a beep is stamped on exactly
    the samples where the integer part of the integrated beat count
    advances, the number of beeps is the integer part of the total beat
    count, the phase the loop ends on is the fractional part of that count,
    and no beep falls on the first sample. *)
Theorem tempo_ramp_is_phase_accumulator
  (bpm_start bpm_end duration beep_freq beep_duration : R) (sample_rate : Z)
  (Hsr : (0 < sample_rate)%Z) (Hd : 0 <= duration)
  (Hbd : 0 <= beep_duration /\ beep_duration * IZR sample_rate <= 2 ^ 50)
  (Hs : 0 <= bpm_start < 60 * IZR sample_rate)
  (He : 0 <= bpm_end < 60 * IZR sample_rate)
  (Hclear : clear_of_integers
              (rounding_margin (Z.to_nat (py_int (IZR sample_rate * duration))))
              sample_rate
              (linspace bpm_start bpm_end
                 (Z.to_nat (py_int (IZR sample_rate * duration))))) :
  let n := Z.to_nat (py_int (IZR sample_rate * duration)) in
  let bpm := linspace bpm_start bpm_end n in
  exists st,
    TempoRamp.ramp_signal bpm_start bpm_end duration beep_freq beep_duration sample_rate
    = Ok st
    /\ TempoRamp.generate_ramp bpm_start bpm_end duration beep_freq beep_duration
         sample_rate = normalize_guarded (TempoRamp.signal st)
    /\ length (TempoRamp.signal st) = n
    /\ (forall j, In j (TempoRamp.beeps st) <->
          exists k, (k < n)%nat /\ j = Z.of_nat k
            /\ Zfloor (beats sample_rate bpm (S k))
               = (Zfloor (beats sample_rate bpm k) + 1)%Z)
    /\ Z.of_nat (length (TempoRamp.beeps st)) = Zfloor (beats sample_rate bpm n)
    /\ TempoRamp.phase st = float_mod1 (beats sample_rate bpm n)
    /\ ((0 < n)%nat ->
        rounding_margin n <= TempoRamp.phase st <= 1 - rounding_margin n)
    /\ ~ In 0%Z (TempoRamp.beeps st).
Proof.
  intros n bpm. fold n in Hclear. fold bpm in Hclear. destruct Hbd as [Hbd _].
  assert (Hr : 0 < IZR sample_rate) by (apply IZR_lt; exact Hsr).
  assert (Hbs : (0 <= py_int (beep_duration * IZR sample_rate))%Z)
    by (apply py_int_ge_0; nra).
  assert (Hn : (0 <= py_int (IZR sample_rate * duration))%Z)
    by (apply py_int_ge_0; nra).
  destruct (make_beep_ok beep_freq beep_duration _ Hbs) as [beep [Hbeep Hbl]].
  pose proof (ramp_increments_in_unit bpm_start bpm_end sample_rate n Hsr Hs He) as Hall.
  fold bpm in Hall.
  assert (Hlb : length bpm = n) by apply linspace_length.
  destruct (ramp_loop_invariant beep _ sample_rate Hbl bpm
              (TempoRamp.mk_ramp 0 (repeat 0 n) []) 0%Z 0 Hall)
    as [st [Hrun [Hsl [Hphase [new [Hnew [Hin Hcnt]]]]]]].
  - simpl. rewrite float_mod1_small; lra.
  - lia.
  - simpl. rewrite repeat_length, Hlb. lia.
  - assert (Hsig : TempoRamp.ramp_signal bpm_start bpm_end duration beep_freq
                     beep_duration sample_rate = Ok st).
    { unfold TempoRamp.ramp_signal. rewrite Hbeep. cbn [bind].
      destruct (Z.ltb_spec (py_int (IZR sample_rate * duration)) 0); [lia |].
      rewrite linspace_length. exact Hrun. }
    simpl in Hnew, Hsl. rewrite repeat_length in Hsl.
    rewrite Hlb in Hcnt, Hin, Hphase. rewrite Rplus_0_l in Hphase.
    assert (Hchar : forall j, In j (TempoRamp.beeps st) <->
              exists k, (k < n)%nat /\ j = Z.of_nat k
                /\ Zfloor (beats sample_rate bpm (S k))
                   = (Zfloor (beats sample_rate bpm k) + 1)%Z).
    { intros j. rewrite Hnew, Hin. split; intros [k [Hk [-> Hf]]]; exists k;
        (split; [exact Hk |]); (split; [lia |]); rewrite !Rplus_0_l in *; exact Hf. }
    exists st. split; [exact Hsig |]. split.
    + unfold TempoRamp.generate_ramp. rewrite Hsig. reflexivity.
    + split; [exact Hsl |]. split; [exact Hchar |]. split; [| split; [| split]].
      * rewrite Hnew, Hcnt, Rplus_0_l. rewrite (ZfloorZ 0). lia.
      * exact Hphase.
      * intros Hpos. rewrite Hphase. apply Hclear. rewrite Hlb. lia.
      * intros H0. apply Hchar in H0. destruct H0 as [k [Hk [Hk0 Hf]]].
        assert (k = 0%nat) by lia. subst k.
        rewrite beats_0, (ZfloorZ 0) in Hf.
        destruct bpm as [| b rest] eqn:Eb; [simpl in Hlb; lia |].
        rewrite beats_cons, beats_0, Rplus_0_r in Hf.
        apply Forall_cons_iff in Hall. destruct Hall as [Hb _].
        rewrite (Zfloor_eq 0) in Hf by (simpl; lra). lia.
Qed.

(** A ramp from 40 to 60 BPM over 2 s at 4 samples per second: its eight
    partial beat counts keep clear of the whole numbers. *)
Lemma short_ramp_clear :
  clear_of_integers (rounding_margin 8) 4 (linspace 40 60 8).
Proof.
  assert (Hm : 0 < rounding_margin 8 < 1 / 100).
  { unfold rounding_margin. simpl INR. split.
    - apply Rdiv_lt_0_compat; [lra | apply pow_lt; lra].
    - assert (H : 2 ^ 10 <= 2 ^ 50) by (apply Rle_pow; [lra | lia]).
      apply (Rmult_lt_reg_r (2 ^ 50)); [apply pow_lt; lra |].
      unfold Rdiv at 1. rewrite Rmult_assoc, Rinv_l by (apply pow_nonzero; lra).
      lra. }
  intros k Hk. rewrite linspace_length in Hk.
  unfold float_mod1, beats, linspace.
  assert (Hcase : (k = 1 \/ k = 2 \/ k = 3 \/ k = 4 \/ k = 5 \/ k = 6 \/ k = 7 \/ k = 8)%nat)
    by lia.
  destruct Hcase as [-> | [-> | [-> | [-> | [-> | [-> | [-> | ->]]]]]]];
    cbn [seq map firstn fold_right Nat.sub INR];
    match goal with |- context [Zfloor ?e] =>
      first [ rewrite (Zfloor_eq 0 e) by (simpl; lra)
            | rewrite (Zfloor_eq 1 e) by (simpl; lra) ]
    end; simpl; lra.
Qed.

Lemma tempo_ramp_is_phase_accumulator_witness :
  exists st,
    TempoRamp.ramp_signal 40 60 2 800 0.1 4 = Ok st
    /\ TempoRamp.generate_ramp 40 60 2 800 0.1 4
       = normalize_guarded (TempoRamp.signal st)
    /\ ~ In 0%Z (TempoRamp.beeps st).
Proof.
  assert (Hn : Z.to_nat (py_int (IZR 4 * 2)) = 8%nat).
  { replace (IZR 4 * 2) with (IZR 8) by lra. rewrite py_int_IZR. reflexivity. }
  assert (Hclear : clear_of_integers
                     (rounding_margin (Z.to_nat (py_int (IZR 4 * 2)))) 4
                     (linspace 40 60 (Z.to_nat (py_int (IZR 4 * 2))))).
  { rewrite Hn. exact short_ramp_clear. }
  destruct (tempo_ramp_is_phase_accumulator 40 60 2 800 0.1 4
              ltac:(lia) ltac:(lra) ltac:(split; lra) ltac:(lra) ltac:(lra) Hclear)
    as [st [H1 [H2 [_ [_ [_ [_ [_ H3]]]]]]]].
  exists st. split; [exact H1 |]. split; [exact H2 | exact H3].
Defined.

(** *** A steady 60 BPM *)

Lemma steady_clock_law (t : R) : spec_linear_bpm_law 60 60 2 t = Ok (1, 1).
Proof.
  unfold spec_linear_bpm_law. rewrite float_div_ok by lra. cbn [bind].
  rewrite float_div_ok by lra. cbn [bind]. do 2 f_equal.
  replace ((60 + (60 - 60) * (t / 2)) / 60) with 1 by lra. lra.
Qed.

Lemma steady_clock_onsets :
  spec_event_clock (spec_linear_bpm_law 60 60 2) 2 3 0
  = Ok [mk_onset 0 1; mk_onset (0 + 1) 1].
Proof.
  cbn [spec_event_clock].
  destruct (Rlt_dec 0 2); [| lra]. rewrite steady_clock_law. cbn [bind].
  destruct (Rlt_dec (0 + 1) 2); [| lra]. rewrite steady_clock_law. cbn [bind].
  destruct (Rlt_dec (0 + 1 + 1) 2); [lra |]. reflexivity.
Qed.

Ltac quiet_step Hinc :=
  match goal with
  | |- context [TempoRamp.ramp_step ?bp ?bs ?sr ?st ?i ?b] =>
      rewrite (ramp_step_quiet bp bs sr st i b)
        by (cbn [TempoRamp.phase]; rewrite ?Hinc; lra);
      cbn [bind]
  end.

Ltac beep_step Hinc Hbl :=
  match goal with
  | |- context [TempoRamp.ramp_step ?bp ?bs ?sr ?st ?i ?b] =>
      let s := fresh "signal" in
      let Hl := fresh "Hl" in
      let E := fresh "E" in
      destruct (ramp_step_beep bp bs sr Hbl st i b) as [s [Hl E]];
      [ cbn [TempoRamp.phase]; rewrite ?Hinc; lra
      | cbn [TempoRamp.signal]; rewrite ?repeat_length; lia
      | cbn [TempoRamp.signal] in Hl; rewrite ?repeat_length in Hl;
        rewrite E; clear E; cbn [bind] ]
  end.

Lemma steady_ramp_beeps :
  exists st,
    TempoRamp.ramp_signal 60 60 2 800 0.1 4 = Ok st
    /\ TempoRamp.beeps st = [3; 7]%Z.
Proof.
  unfold TempoRamp.ramp_signal.
  assert (Hbs : py_int (0.1 * IZR 4) = 0%Z) by (apply py_int_value; simpl; lra).
  assert (Hn : py_int (IZR 4 * 2) = 8%Z) by (apply py_int_value; simpl; lra).
  rewrite Hbs, Hn.
  destruct (make_beep_ok 800 0.1 0 ltac:(lia)) as [beep [-> Hbl]].
  cbn [bind Z.ltb Z.compare]. rewrite linspace_length.
  change (Z.to_nat 8) with 8%nat.
  unfold linspace. cbn [seq map Nat.sub TempoRamp.ramp_loop].
  assert (Hinc : forall i : nat,
            (60 + INR i * ((60 - 60) / INR 7)) / 60 / IZR 4 = 1 / 4).
  { intros i. replace (60 + INR i * ((60 - 60) / INR 7)) with 60; [lra |].
    unfold Rdiv. ring. }
  do 3 quiet_step Hinc. beep_step Hinc Hbl. do 3 quiet_step Hinc. beep_step Hinc Hbl.
  eexists. split; reflexivity.
Qed.

(** C10 as stated fails: at a steady 60 BPM over 2 s (4 samples per
    second) the event clock of the specification puts its onsets at 0 s and
    1 s, samples 0 and 4, while the generator stamps its beeps on samples 3
    and 7, each three samples away from its onset. *)
Lemma tempo_ramp_counterexample :
  exists st,
    TempoRamp.ramp_signal 60 60 2 800 0.1 4 = Ok st
    /\ TempoRamp.beeps st = [3; 7]%Z
    /\ spec_event_clock (spec_linear_bpm_law 60 60 2) 2 3 0
       = Ok [mk_onset 0 1; mk_onset (0 + 1) 1]
    /\ ~ onsets_match 4 (TempoRamp.beeps st) [mk_onset 0 1; mk_onset (0 + 1) 1].
Proof.
  destruct steady_ramp_beeps as [st [Hst Hb]].
  exists st. split; [exact Hst |]. split; [exact Hb |].
  split; [exact steady_clock_onsets |].
  rewrite Hb. unfold onsets_match. intros HF.
  inversion HF as [| ? ? ? ? [Hhead _] _]; subst.
  cbn [onset_time] in Hhead. rewrite Rmult_0_l, Rminus_0_r in Hhead.
  rewrite Rabs_pos_eq in Hhead by lra. lra.
Qed.

(** ** A silent buffer under the two normalisers *)

Lemma peak_zeros (n : nat) : peak (repeat 0 n) = 0.
Proof.
  apply peak_zero_iff. apply Forall_forall. intros x Hx.
  apply repeat_spec in Hx. exact Hx.
Qed.

Lemma zeros_nonempty (n : nat) : (0 < n)%nat -> repeat 0 n <> [].
Proof. intros Hn E. destruct n; [lia | discriminate]. Qed.

Lemma normalize_unguarded_silent (n : nat) :
  (0 < n)%nat -> normalize_unguarded (repeat 0 n) = Ok (repeat NaN n).
Proof.
  intros Hn. unfold normalize_unguarded.
  rewrite np_max_abs by (apply zeros_nonempty; exact Hn).
  rewrite peak_zeros. cbn [bind]. rewrite map_repeat, np_true_divide_nan. reflexivity.
Qed.

Lemma normalize_guarded_silent (n : nat) :
  (0 < n)%nat -> normalize_guarded (repeat 0 n) = Ok (repeat (Fin 0) n).
Proof.
  intros Hn. rewrite normalize_guarded_value by (apply zeros_nonempty; exact Hn).
  rewrite !map_repeat. do 3 f_equal. unfold Rdiv. apply Rmult_0_l.
Qed.

(** The ramp from 0 to 4 BPM over the script's 12 s at 44100 Hz integrates
    to less than one beat: nothing is stamped. *)
Lemma slow_ramp_is_silent :
  exists st,
    TempoRamp.ramp_signal 0 4 12 1000 0.02 44100 = Ok st
    /\ TempoRamp.signal st = repeat 0 (Z.to_nat 529200).
Proof.
  unfold TempoRamp.ramp_signal.
  assert (Hbs : py_int (0.02 * IZR 44100) = 882%Z) by (apply py_int_value; simpl; lra).
  assert (Hn : py_int (IZR 44100 * 12) = 529200%Z) by (apply py_int_value; simpl; lra).
  rewrite Hbs, Hn.
  destruct (make_beep_ok 1000 0.02 882 ltac:(lia)) as [beep [-> Hbl]].
  cbn [bind Z.ltb Z.compare]. rewrite linspace_length.
  assert (HnR : INR (Z.to_nat 529200) = 529200) by (rewrite INR_IZR_INZ, Z2Nat.id by lia; reflexivity).
  set (n := Z.to_nat 529200) in *.
  destruct (ramp_loop_silent beep 882 44100 (4 / 60 / 44100) (linspace 0 4 n)
              (TempoRamp.mk_ramp 0 (repeat 0 n) []) 0%Z) as [p Hp].
  - apply Forall_forall. intros b Hb. apply linspace_between in Hb.
    rewrite Rmin_left, Rmax_right in Hb by lra. lra.
  - rewrite linspace_length, HnR. simpl. lra.
  - eexists. split; [exact Hp | reflexivity].
Qed.

Lemma normalize_shepard_silent (n : nat) :
  (0 < n)%nat -> normalize_shepard (repeat 0 n) = Ok (repeat NaN n).
Proof.
  intros Hn. unfold normalize_shepard.
  rewrite np_max_abs by (apply zeros_nonempty; exact Hn).
  rewrite peak_zeros. cbn [bind]. rewrite map_repeat, np_true_divide_nan. reflexivity.
Qed.

(** A Shepard generator with no octave to layer mixes nothing. *)
Lemma shepard_without_octaves :
  Shepard.generate (Shepard.mk_config 1 55 0 1 Shepard.Up 4) = Ok (repeat NaN 4).
Proof.
  unfold Shepard.generate, mix_and_normalize.
  cbn [Shepard.duration_seconds Shepard.sample_rate Shepard.num_octaves].
  assert (Hn : py_int (1 * IZR 4) = 4%Z) by (apply py_int_value; simpl; lra).
  rewrite Hn. change (range 0) with (@nil Z).
  change (np_zeros 4) with (Ok (repeat 0 4)).
  cbn [map mix_into bind].
  apply normalize_shepard_silent. lia.
Qed.

(** C3 fails on the paths that normalise without the guard.  On the tempo
    range (0, 4) BPM, where no beep is stamped, the older tempo-ramp script
    turns the silent buffer into [nan] throughout, while [generate_ramp],
    which has the guard, returns silence on the same input; the Shepard
    generator, asked for no octave, returns [nan] throughout as well. *)
Theorem silent_ramp_normalisers_diverge :
  TempoRamp.tempo_ramp_script 0 4 12 1000 0.02 44100
  = Ok (repeat NaN (Z.to_nat 529200))
  /\ TempoRamp.generate_ramp 0 4 12 1000 0.02 44100
     = Ok (repeat (Fin 0) (Z.to_nat 529200))
  /\ Shepard.generate (Shepard.mk_config 1 55 0 1 Shepard.Up 4) = Ok (repeat NaN 4).
Proof.
  destruct slow_ramp_is_silent as [st [Hst Hsig]].
  unfold TempoRamp.tempo_ramp_script, TempoRamp.generate_ramp.
  rewrite Hst. cbn [bind]. rewrite Hsig.
  split; [apply normalize_unguarded_silent; lia |].
  split; [apply normalize_guarded_silent; lia | exact shepard_without_octaves].
Qed.

(** * Further properties of the generators *)

(** ** The percussive hit *)

(** X1.  The hit of the cyclic generator (risset_true_cyclical.py lines 18-24)
    for a sample rate, a duration and a decay that are not negative: it has
    [int(sample_rate * duration_ms / 1000)] samples; sample [i] is the sine
    at [t = i / sample count * duration], raised by the transient 0.5 on
    the first five samples, times [exp(-t * decay)]; so the first sample is
    0.5 and, because of the transient, the samples are bounded by 3/2
    rather than by 1.  The hit of the stronger exponential generator is the
    same with its decay [HIT_DECAY]. *)
Theorem make_hit_samples (sample_rate : Z) (duration_ms freq decay : R)
  (Hsr : (0 <= sample_rate)%Z) (Hms : 0 <= duration_ms) (Hdecay : 0 <= decay) :
  let n := Z.to_nat (py_int (IZR sample_rate * duration_ms / 1000)) in
  (exists hit,
     RissetCyclic.make_hit sample_rate duration_ms freq decay = Ok hit
     /\ length hit = n
     /\ (forall i, (i < n)%nat ->
           let t := INR i * (duration_ms / 1000 / INR n) in
           nth i hit 0
           = (sin (2 * PI * freq * t) + (if Nat.ltb i 5 then 0.5 else 0))
             * exp (- t * decay))
     /\ ((0 < n)%nat -> nth 0 hit 0 = 0.5)
     /\ (forall i, Rabs (nth i hit 0) <= 3 / 2))
  /\ RissetStronger.make_hit sample_rate duration_ms freq
     = RissetCyclic.make_hit sample_rate duration_ms freq RissetStronger.HIT_DECAY.
Proof.
  intros n. split; [| reflexivity].
  assert (Hlen : (0 <= py_int (IZR sample_rate * duration_ms / 1000))%Z).
  { apply py_int_ge_0. assert (0 <= IZR sample_rate) by (apply IZR_le; exact Hsr).
    apply Rmult_le_pos; [nra | lra]. }
  unfold RissetCyclic.make_hit.
  destruct (Z.ltb_spec (py_int (IZR sample_rate * duration_ms / 1000)) 0); [lia |].
  fold n. rewrite transient_value. cbn [bind].
  set (ts := linspace_open 0 (duration_ms / 1000) n).
  set (signal := map (fun x => sin (2 * PI * freq * x)) ts).
  set (envelope := map (fun x => exp (- x * decay)) ts).
  assert (Hts : length ts = n) by apply linspace_open_length.
  assert (Hsig : length signal = n) by (unfold signal; now rewrite length_map).
  assert (Henv : length envelope = n) by (unfold envelope; now rewrite length_map).
  assert (Hnth : forall i, (i < n)%nat ->
            nth i (vmul (map (fun x => x + 0.5) (firstn 5 signal) ++ skipn 5 signal)
                     envelope) 0
            = (sin (2 * PI * freq * (INR i * (duration_ms / 1000 / INR n)))
               + (if Nat.ltb i 5 then 0.5 else 0))
              * exp (- (INR i * (duration_ms / 1000 / INR n)) * decay)).
  { intros i Hi.
    rewrite vmul_nth by (rewrite transient_length; lia).
    rewrite transient_nth by lia.
    unfold signal, envelope.
    rewrite !(map_nth_in _ _ _ 0) by lia.
    unfold ts. rewrite linspace_open_nth by exact Hi.
    replace (0 + INR i * ((duration_ms / 1000 - 0) / INR n))
      with (INR i * (duration_ms / 1000 / INR n)) by (unfold Rdiv; ring).
    reflexivity. }
  eexists. split; [reflexivity |]. split; [| split; [| split]].
  - rewrite vmul_length; rewrite transient_length; lia.
  - intros i Hi. apply Hnth. exact Hi.
  - intros Hn. rewrite Hnth by exact Hn. cbn [Nat.ltb Nat.leb INR].
    rewrite Rmult_0_l, Rmult_0_r, sin_0.
    replace (- 0 * decay) with 0 by ring. rewrite exp_0. lra.
  - intros i. destruct (Nat.lt_ge_cases i n) as [Hi | Hi].
    + rewrite Hnth by exact Hi.
      set (t := INR i * (duration_ms / 1000 / INR n)).
      assert (Ht : 0 <= t).
      { unfold t. apply Rmult_le_pos; [apply pos_INR |].
        apply Rle_mult_inv_pos; [lra | apply lt_0_INR; lia]. }
      pose proof (exp_decay_unit t decay Ht Hdecay) as [He0 He1].
      pose proof (SIN_bound (2 * PI * freq * t)) as [Hs0 Hs1].
      rewrite Rabs_mult, (Rabs_pos_eq (exp _)) by lra.
      assert (Hb : Rabs (sin (2 * PI * freq * t) + (if Nat.ltb i 5 then 0.5 else 0))
                   <= 3 / 2).
      { apply Rabs_le. destruct (Nat.ltb i 5); lra. }
      pose proof (Rabs_pos (sin (2 * PI * freq * t) + (if Nat.ltb i 5 then 0.5 else 0))).
      nra.
    + rewrite nth_overflow; [rewrite Rabs_R0; lra |].
      rewrite vmul_length; rewrite transient_length; lia.
Qed.

Lemma make_hit_samples_witness :
  exists hit,
    RissetCyclic.make_hit 44100 35 120 45 = Ok hit
    /\ length hit = Z.to_nat (py_int (IZR 44100 * 35 / 1000))
    /\ (forall i, Rabs (nth i hit 0) <= 3 / 2).
Proof.
  destruct (make_hit_samples 44100 35 120 45 ltac:(lia) ltac:(lra) ltac:(lra))
    as [[hit [H1 [H2 [_ [_ H3]]]]] _].
  exists hit. split; [exact H1 |]. split; [exact H2 | exact H3].
Defined.

(** X2.  The hit of the exponential generator (Exponential Increase Version.py
    lines 640-647) for a sample rate and a duration that are not negative:
    it has [int(sample_rate * duration_ms / 1000)] samples, sample [i] is
    the sine at [t = i / sample count * duration] times [exp(-30 t)],
    every sample lies in [[-1, 1]] and the first one is 0. *)
Theorem exponential_hit_samples (sample_rate : Z) (duration_ms freq : R)
  (Hsr : (0 <= sample_rate)%Z) (Hms : 0 <= duration_ms) :
  let n := Z.to_nat (py_int (IZR sample_rate * duration_ms / 1000)) in
  exists hit,
    RissetExponential.make_hit sample_rate duration_ms freq = Ok hit
    /\ length hit = n
    /\ (forall i, (i < n)%nat ->
          let t := INR i * (duration_ms / 1000 / INR n) in
          nth i hit 0 = sin (2 * PI * freq * t) * exp (- t * 30))
    /\ (forall i, Rabs (nth i hit 0) <= 1)
    /\ nth 0 hit 0 = 0.
Proof.
  intros n.
  assert (Hlen : (0 <= py_int (IZR sample_rate * duration_ms / 1000))%Z).
  { apply py_int_ge_0. assert (0 <= IZR sample_rate) by (apply IZR_le; exact Hsr).
    apply Rmult_le_pos; [nra | lra]. }
  unfold RissetExponential.make_hit.
  destruct (Z.ltb_spec (py_int (IZR sample_rate * duration_ms / 1000)) 0); [lia |].
  fold n.
  set (ts := linspace_open 0 (duration_ms / 1000) n).
  assert (Hts : length ts = n) by apply linspace_open_length.
  assert (Hnth : forall i, (i < n)%nat ->
            nth i (vmul (map (fun x => sin (2 * PI * freq * x)) ts)
                     (map (fun x => exp (- x * 30)) ts)) 0
            = sin (2 * PI * freq * (INR i * (duration_ms / 1000 / INR n)))
              * exp (- (INR i * (duration_ms / 1000 / INR n)) * 30)).
  { intros i Hi.
    rewrite vmul_nth by (rewrite !length_map; lia).
    rewrite !(map_nth_in _ _ _ 0) by lia.
    unfold ts. rewrite linspace_open_nth by exact Hi.
    replace (0 + INR i * ((duration_ms / 1000 - 0) / INR n))
      with (INR i * (duration_ms / 1000 / INR n)) by (unfold Rdiv; ring).
    reflexivity. }
  assert (Hl : length (vmul (map (fun x => sin (2 * PI * freq * x)) ts)
                         (map (fun x => exp (- x * 30)) ts)) = n).
  { rewrite vmul_length; rewrite !length_map; lia. }
  eexists. split; [reflexivity |]. split; [exact Hl |]. split; [| split].
  - intros i Hi. apply Hnth. exact Hi.
  - intros i. destruct (Nat.lt_ge_cases i n) as [Hi | Hi].
    + rewrite Hnth by exact Hi.
      set (t := INR i * (duration_ms / 1000 / INR n)).
      assert (Ht : 0 <= t).
      { unfold t. apply Rmult_le_pos; [apply pos_INR |].
        apply Rle_mult_inv_pos; [lra | apply lt_0_INR; lia]. }
      pose proof (exp_decay_unit t 30 Ht ltac:(lra)) as [He0 He1].
      pose proof (SIN_bound (2 * PI * freq * t)) as [Hs0 Hs1].
      rewrite Rabs_mult, (Rabs_pos_eq (exp _)) by lra.
      assert (Hb : Rabs (sin (2 * PI * freq * t)) <= 1) by (apply Rabs_le; lra).
      pose proof (Rabs_pos (sin (2 * PI * freq * t))).
      nra.
    + rewrite nth_overflow by lia. rewrite Rabs_R0. lra.
  - destruct (Nat.eq_dec n 0) as [E0 | N0].
    + rewrite nth_overflow by lia. reflexivity.
    + rewrite Hnth by lia. simpl INR. rewrite Rmult_0_l, Rmult_0_r, sin_0. ring.
Qed.

Lemma exponential_hit_samples_witness :
  exists hit,
    RissetExponential.make_hit 44100 60 80 = Ok hit
    /\ length hit = Z.to_nat (py_int (IZR 44100 * 60 / 1000))
    /\ nth 0 hit 0 = 0.
Proof.
  destruct (exponential_hit_samples 44100 60 80 ltac:(lia) ltac:(lra))
    as [hit [H1 [H2 [_ [_ H3]]]]].
  exists hit. split; [exact H1 |]. split; [exact H2 | exact H3].
Defined.


(** ** The event clock: budget, gains, number of onsets *)

(** A run that returned returns the same with a larger budget. *)
Lemma while_loop_more_fuel rate_law make_hit_call sample_rate samples total_duration
  (fuel : nat) :
  forall st st',
    while_loop rate_law make_hit_call sample_rate samples total_duration fuel st = Ok st' ->
    forall extra,
      while_loop rate_law make_hit_call sample_rate samples total_duration
        (fuel + extra) st = Ok st'.
Proof.
  induction fuel as [| fuel IH]; intros st st' H extra; [discriminate |].
  cbn [while_loop Nat.add] in *.
  destruct (Rlt_dec (cursor st) total_duration); [| exact H].
  destruct (loop_body rate_law make_hit_call sample_rate samples st) as [st1 | e |];
    cbn [bind] in *; try discriminate.
  apply IH. exact H.
Qed.

Lemma run_clock_more_fuel rate_law make_hit_call sample_rate samples total_duration
  fuel layer r :
  run_clock rate_law make_hit_call sample_rate samples total_duration fuel layer = Ok r ->
  forall extra,
    run_clock rate_law make_hit_call sample_rate samples total_duration
      (fuel + extra) layer = Ok r.
Proof.
  unfold run_clock. intros H extra.
  apply bind_ok in H. destruct H as [st [Hrun H]].
  rewrite (while_loop_more_fuel _ _ _ _ _ _ _ _ Hrun). exact H.
Qed.

Lemma run_layer_more_fuel rate_law make_hit_call sample_rate total_duration fuel r :
  run_layer rate_law make_hit_call sample_rate total_duration fuel = Ok r ->
  forall extra,
    run_layer rate_law make_hit_call sample_rate total_duration (fuel + extra) = Ok r.
Proof.
  unfold run_layer. intros H extra.
  destruct (np_zeros _) as [layer | e |]; cbn [bind] in *; try discriminate.
  apply run_clock_more_fuel. exact H.
Qed.

(** ** The exponential generator *)

Lemma exponential_make_hit_ok (sample_rate : Z) (duration_ms freq : R) :
  (0 <= sample_rate)%Z -> 0 <= duration_ms ->
  exists hit, RissetExponential.make_hit sample_rate duration_ms freq = Ok hit.
Proof.
  intros Hsr Hms. unfold RissetExponential.make_hit.
  assert (Hlen : (0 <= py_int (IZR sample_rate * duration_ms / 1000))%Z).
  { apply py_int_ge_0. assert (0 <= IZR sample_rate) by (apply IZR_le; exact Hsr).
    apply Rmult_le_pos; [nra | lra]. }
  destruct (Z.ltb_spec (py_int (IZR sample_rate * duration_ms / 1000)) 0); [lia |].
  eexists. reflexivity.
Qed.

Lemma exponential_generate_layer_unfold fuel duration base_freq layer_index num_layers
  accelerating sample_rate :
  num_layers <> 0%Z ->
  RissetExponential.generate_layer fuel duration base_freq layer_index num_layers
    accelerating sample_rate =
  run_layer
    (RissetExponential.rate_law duration base_freq
       (pow2 (IZR layer_index / IZR num_layers)) accelerating)
    (RissetExponential.make_hit sample_rate 60 (80 + IZR layer_index * 30))
    sample_rate duration fuel.
Proof.
  intros Hn. unfold RissetExponential.generate_layer, run_layer.
  rewrite float_div_ok by (apply IZR_nonzero; exact Hn).
  destruct (np_zeros _); reflexivity.
Qed.

Lemma exponential_interval_bounds (duration base_freq freq_offset : R)
  (accelerating : bool) (t : R) :
  0 < duration -> 0 < base_freq -> 0 < freq_offset -> 0 <= t < duration ->
  1 / (2 * (base_freq * freq_offset))
  <= 1 / (base_freq * freq_offset
          * pow2 (if accelerating then t / duration else - (t / duration)))
  <= 2 / (base_freq * freq_offset).
Proof.
  intros Hd Hb Ho Ht.
  pose proof (progress_in_unit t duration Hd Ht) as Hp.
  assert (Hbo : 0 < base_freq * freq_offset) by (apply Rmult_lt_0_compat; assumption).
  set (e := if accelerating then t / duration else - (t / duration)).
  assert (He : 1 / 2 <= pow2 e <= 2).
  { unfold e. destruct accelerating.
    - pose proof (pow2_unit_interval _ Hp). lra.
    - assert (H1 : pow2 (-1) <= pow2 (- (t / duration))) by (apply pow2_le; lra).
      assert (H2 : pow2 (- (t / duration)) <= pow2 0) by (apply pow2_le; lra).
      rewrite pow2_0 in H2.
      assert (H3 : pow2 (-1) * pow2 1 = 1).
      { rewrite <- pow2_add. replace (-1 + 1) with 0 by lra. apply pow2_0. }
      rewrite pow2_1 in H3. lra. }
  assert (Hpos : 0 < base_freq * freq_offset * pow2 e) by nra.
  split.
  - unfold Rdiv. rewrite !Rmult_1_l. apply Rinv_le_contravar; nra.
  - apply (Rmult_le_reg_r (base_freq * freq_offset * pow2 e)); [exact Hpos |].
    unfold Rdiv at 1. rewrite Rmult_1_l, Rinv_l by lra.
    replace (2 / (base_freq * freq_offset) * (base_freq * freq_offset * pow2 e))
      with (2 * pow2 e) by (field; lra).
    lra.
Qed.

Lemma exponential_law_value_at (duration base_freq : R) (layer_index num_layers : Z)
  (accelerating : bool) (t : R) :
  0 < duration -> 0 < base_freq ->
  RissetExponential.rate_law duration base_freq
    (pow2 (IZR layer_index / IZR num_layers)) accelerating t =
  Ok (1 / (base_freq * pow2 (IZR layer_index / IZR num_layers)
           * pow2 (if accelerating then t / duration else - (t / duration))),
      sin (PI * (t / duration))).
Proof.
  intros Hd Hb. apply exponential_rate_law_value; [lra | exact Hb | apply pow2_pos].
Qed.

Lemma exponential_interval_pos (duration base_freq : R) (layer_index num_layers : Z)
  (accelerating : bool) (t iv g : R) :
  0 < duration -> 0 < base_freq ->
  RissetExponential.rate_law duration base_freq
    (pow2 (IZR layer_index / IZR num_layers)) accelerating t = Ok (iv, g) ->
  0 < iv.
Proof.
  intros Hd Hb E. rewrite exponential_law_value_at in E by assumption.
  injection E as <- _.
  pose proof (pow2_pos (IZR layer_index / IZR num_layers)).
  apply Rdiv_lt_0_compat; [lra |].
  apply Rmult_lt_0_compat; [apply Rmult_lt_0_compat; assumption | apply pow2_pos].
Qed.

Lemma exponential_layer_returns duration base_freq layer_index num_layers
  accelerating sample_rate :
  0 < duration -> 0 < base_freq -> num_layers <> 0%Z -> (0 < sample_rate)%Z ->
  exists fuel layer tr,
    RissetExponential.generate_layer fuel duration base_freq layer_index num_layers
      accelerating sample_rate = Ok (layer, tr).
Proof.
  intros Hd Hb Hn Hsr.
  pose proof (pow2_pos (IZR layer_index / IZR num_layers)) as Ho.
  destruct (exponential_make_hit_ok sample_rate 60 (80 + IZR layer_index * 30))
    as [hit Hhit]; [lia | lra |].
  destruct (run_layer_terminates
              (RissetExponential.rate_law duration base_freq
                 (pow2 (IZR layer_index / IZR num_layers)) accelerating)
              (RissetExponential.make_hit sample_rate 60 (80 + IZR layer_index * 30))
              sample_rate duration
              (1 / (2 * (base_freq * pow2 (IZR layer_index / IZR num_layers))))
              hit Hsr)
    as [fuel [layer [tr H]]].
  - lra.
  - apply Rdiv_lt_0_compat; [lra |].
    apply Rmult_lt_0_compat; [lra | apply Rmult_lt_0_compat; assumption].
  - exact Hhit.
  - intros t Ht. rewrite exponential_law_value_at by assumption.
    eexists _, _. split; [reflexivity |].
    apply exponential_interval_bounds; assumption.
  - exists fuel, layer, tr.
    rewrite exponential_generate_layer_unfold by exact Hn. exact H.
Qed.

Lemma exponential_layer_sound fuel duration base_freq layer_index num_layers
  accelerating sample_rate layer tr :
  0 < duration -> 0 < base_freq -> num_layers <> 0%Z ->
  RissetExponential.generate_layer fuel duration base_freq layer_index num_layers
    accelerating sample_rate = Ok (layer, tr) ->
  onsets_from
    (RissetExponential.rate_law duration base_freq
       (pow2 (IZR layer_index / IZR num_layers)) accelerating) duration 0 tr
  /\ strictly_increasing (map onset_time tr)
  /\ ((0 < sample_rate)%Z ->
      Z.of_nat (length layer) = py_int (duration * IZR sample_rate)).
Proof.
  intros Hd Hb Hn H. rewrite exponential_generate_layer_unfold in H by exact Hn.
  destruct (run_layer_sound _ _ _ _ _ _ _ H) as [Hon Hlen].
  split; [exact Hon |]. split.
  - eapply onsets_from_increasing; [| exact Hon | lra].
    intros t iv g _ E. exact (exponential_interval_pos _ _ _ _ _ _ _ _ Hd Hb E).
  - intros Hsr. apply Hlen; [exact Hsr |].
    intros t iv g _ E. left. exact (exponential_interval_pos _ _ _ _ _ _ _ _ Hd Hb E).
Qed.

(** X3.  The exponential generator (Exponential Increase Version.py): with
    positive duration and base frequency and parameters inside the range of
    the doubles it returns, and what it returns is a layer of
    [int(duration * sample_rate)] samples whose onsets come strictly later
    and later, with gaps that shrink from one onset to the next when
    accelerating and grow when decelerating; every hit is scaled by a gain
    in [[0, 1]], and the first hit, at [t = 0], by 0; the loop has made at
    most [2 ^ 50 + 1] passes. *)
Theorem exponential_layer_rhythm (duration base_freq : R)
  (layer_index num_layers sample_rate : Z) (accelerating : bool)
  (Hd : 0 < duration) (Hb : 0 < base_freq) (Hsr : (0 < sample_rate)%Z)
  (Hr : layer_in_range (2 * (base_freq * pow2 (IZR layer_index / IZR num_layers)))
          duration duration layer_index num_layers sample_rate) :
  (exists fuel layer tr,
     RissetExponential.generate_layer fuel duration base_freq layer_index num_layers
       accelerating sample_rate = Ok (layer, tr))
  /\ (forall fuel layer tr,
        RissetExponential.generate_layer fuel duration base_freq layer_index num_layers
          accelerating sample_rate = Ok (layer, tr) ->
        Z.of_nat (length layer) = py_int (duration * IZR sample_rate)
        /\ strictly_increasing (map onset_time tr)
        /\ (forall i, (S (S i) < length tr)%nat ->
              let gap := fun k => nth (S k) (map onset_time tr) 0
                                  - nth k (map onset_time tr) 0 in
              if accelerating then gap (S i) < gap i else gap i < gap (S i))
        /\ Forall (fun o => 0 <= onset_gain o <= 1) tr
        /\ (exists rest, tr = mk_onset 0 0 :: rest)
        /\ INR (length tr) <= 2 ^ 50 + 1).
Proof.
  apply layer_in_range_clock in Hr. destruct Hr as [Hr Hn].
  split; [apply exponential_layer_returns; assumption |].
  intros fuel layer tr H.
  destruct (exponential_layer_sound _ _ _ _ _ _ _ _ _ Hd Hb Hn H) as [Hon [Hinc Hlen]].
  set (off := pow2 (IZR layer_index / IZR num_layers)) in *.
  set (law := RissetExponential.rate_law duration base_freq off accelerating) in *.
  pose proof (pow2_pos (IZR layer_index / IZR num_layers)) as Ho. fold off in Ho.
  assert (Hval : forall t, law t =
            Ok (1 / (base_freq * off
                     * pow2 (if accelerating then t / duration else - (t / duration))),
                sin (PI * (t / duration)))).
  { intros t. unfold law, off. apply exponential_law_value_at; assumption. }
  split; [exact (Hlen Hsr) | split; [exact Hinc | split; [| split; [| split]]]].
  - intros i Hi gap.
    destruct (onsets_from_gap law duration 0 tr Hon i ltac:(lia)) as [g0 E0].
    destruct (onsets_from_gap law duration 0 tr Hon (S i) ltac:(lia)) as [g1 E1].
    rewrite Hval in E0, E1. injection E0 as E0 _. injection E1 as E1 _.
    assert (Hlt : nth i (map onset_time tr) 0 < nth (S i) (map onset_time tr) 0).
    { apply Hinc. rewrite length_map. lia. }
    assert (Hp : nth i (map onset_time tr) 0 / duration
                 < nth (S i) (map onset_time tr) 0 / duration).
    { unfold Rdiv. apply Rmult_lt_compat_r; [apply Rinv_0_lt_compat; exact Hd | exact Hlt]. }
    unfold gap. rewrite <- E0, <- E1.
    set (p := nth i (map onset_time tr) 0 / duration) in *.
    set (q := nth (S i) (map onset_time tr) 0 / duration) in *.
    destruct accelerating.
    + assert (Hpq : pow2 p < pow2 q) by (apply pow2_lt; exact Hp).
      pose proof (pow2_pos p).
      unfold Rdiv. rewrite !Rmult_1_l. apply Rinv_lt_contravar.
      * repeat apply Rmult_lt_0_compat; lra.
      * apply Rmult_lt_compat_l; [apply Rmult_lt_0_compat |]; lra.
    + assert (Hpq : pow2 (- q) < pow2 (- p)) by (apply pow2_lt; lra).
      pose proof (pow2_pos (- q)).
      unfold Rdiv. rewrite !Rmult_1_l. apply Rinv_lt_contravar.
      * repeat apply Rmult_lt_0_compat; lra.
      * apply Rmult_lt_compat_l; [apply Rmult_lt_0_compat |]; lra.
  - apply (onsets_from_gains law duration (fun g => 0 <= g <= 1)) with (t := 0);
      [| exact Hon | lra].
    intros t iv g Ht E. split.
    + left. unfold law, off in E.
      exact (exponential_interval_pos _ _ _ _ _ _ _ _ Hd Hb E).
    + rewrite Hval in E. injection E as _ <-.
      apply sine_fade_range. pose proof (progress_in_unit t duration Hd Ht). lra.
  - destruct (onsets_from_first law duration tr _ _ Hd (Hval 0) Hon) as [rest ->].
    exists rest. f_equal. f_equal.
    replace (0 / duration) with 0 by (unfold Rdiv; ring).
    rewrite Rmult_0_r. apply sin_0.
  - assert (Hbo : 0 < base_freq * off) by (apply Rmult_lt_0_compat; assumption).
    apply (passes_in_range (2 * (base_freq * off)) duration); [lra | exact Hr |].
    assert (Hlo : 0 < 1 / (2 * (base_freq * off))) by (apply Rdiv_lt_0_compat; lra).
    destruct tr as [| o rest]; [simpl; nra |].
    pose proof (onsets_from_passes law duration _ Hlo) as Hp.
    specialize (Hp ltac:(intros t iv g Ht E; rewrite Hval in E; injection E as <- _;
                         apply exponential_interval_bounds; assumption)
                  0 (o :: rest) Hon ltac:(lra) ltac:(discriminate)).
    lra.
Qed.

Lemma exponential_layer_rhythm_witness :
  exists fuel layer tr,
    RissetExponential.generate_layer fuel 20 (4 / 3) 1 3 true 44100 = Ok (layer, tr).
Proof.
  assert (Hr : layer_in_range (2 * (4 / 3 * pow2 (IZR 1 / IZR 3))) 20 20 1 3 44100).
  { assert (H : 1 <= pow2 (IZR 1 / IZR 3) < 2) by (apply pow2_unit_interval; lra).
    apply layer_in_range_small; (nra || lia). }
  apply (exponential_layer_rhythm 20 (4 / 3) 1 3 44100 true
           ltac:(lra) ltac:(lra) ltac:(lia) Hr).
Defined.

(** ** The stronger exponential generator *)

Lemma loudness_range (accelerating : bool) (p : R) :
  0 <= p <= 1 -> 0.6 <= RissetStronger.loudness accelerating p <= 1.
Proof. intros Hp. unfold RissetStronger.loudness. destruct accelerating; lra. Qed.

Lemma smoothed_gate_at_0 (k : R) : smoothed_gate 0 k = 0.
Proof.
  unfold smoothed_gate, np_clip. rewrite Rmult_0_l.
  rewrite (Rmax_left 0 0) by lra. rewrite (Rmin_left 0 1) by lra. ring.
Qed.

(** X4.  The stronger exponential generator (Stronger Exponential Increase.py),
    for parameters inside the range of the doubles: in every layer it returns,
    the gaps between successive onsets shrink from one onset to the next
    when accelerating and grow when decelerating; every hit is scaled by a
    gain in [[0, 1]], and the first hit, at [t = 0], by 0; the loop has made
    at most [2 ^ 50 + 1] passes. *)
Theorem stronger_layer_rhythm (duration base_freq : R)
  (layer_index num_layers sample_rate : Z) (accelerating : bool)
  (Hd : 0 < duration) (Hb : 0 < base_freq) (Hsr : (0 < sample_rate)%Z)
  (Hr : layer_in_range (8 * (base_freq * pow2 (IZR layer_index / IZR num_layers)))
          duration duration layer_index num_layers sample_rate) :
  (exists fuel layer tr,
     RissetStronger.generate_layer fuel duration base_freq layer_index num_layers
       accelerating sample_rate = Ok (layer, tr))
  /\ (forall fuel layer tr,
        RissetStronger.generate_layer fuel duration base_freq layer_index num_layers
          accelerating sample_rate = Ok (layer, tr) ->
        (forall i, (S (S i) < length tr)%nat ->
           let gap := fun k => nth (S k) (map onset_time tr) 0
                               - nth k (map onset_time tr) 0 in
           if accelerating then gap (S i) < gap i else gap i < gap (S i))
        /\ Forall (fun o => 0 <= onset_gain o <= 1) tr
        /\ (exists rest, tr = mk_onset 0 0 :: rest)
        /\ INR (length tr) <= 2 ^ 50 + 1).
Proof.
  apply layer_in_range_clock in Hr. destruct Hr as [Hr Hn].
  split; [apply stronger_layer_returns; assumption |].
  intros fuel layer tr H.
  destruct (stronger_layer_steps _ _ _ _ _ _ _ _ _ Hd Hb Hn H) as [_ Hcount].
  destruct (stronger_layer_sound _ _ _ _ _ _ _ _ _ Hd Hb Hn H) as [Hinc _].
  rewrite stronger_generate_layer_unfold in H by exact Hn.
  pose proof (pow2_pos (IZR layer_index / IZR num_layers)) as Ho.
  set (off := pow2 (IZR layer_index / IZR num_layers)) in *.
  set (law := RissetStronger.rate_law duration base_freq off accelerating) in *.
  assert (Hbo : 0 < base_freq * off) by (apply Rmult_lt_0_compat; assumption).
  assert (Hval : forall t, law t =
            Ok (1 / RissetStronger.freq_at base_freq off accelerating (t / duration),
                smoothed_gate (t / duration) 1.3
                * RissetStronger.loudness accelerating (t / duration))).
  { intros t. unfold law. apply stronger_rate_law_value; lra. }
  destruct (run_layer_sound _ _ _ _ _ _ _ H) as [Hon _].
  split; [| split; [| split]].
  - intros i Hi gap.
    destruct (onsets_from_gap law duration 0 tr Hon i ltac:(lia)) as [g0 E0].
    destruct (onsets_from_gap law duration 0 tr Hon (S i) ltac:(lia)) as [g1 E1].
    rewrite Hval in E0, E1. injection E0 as E0 _. injection E1 as E1 _.
    assert (Hlt : nth i (map onset_time tr) 0 < nth (S i) (map onset_time tr) 0).
    { apply Hinc. rewrite length_map. lia. }
    assert (Hp : nth i (map onset_time tr) 0 / duration
                 < nth (S i) (map onset_time tr) 0 / duration).
    { unfold Rdiv. apply Rmult_lt_compat_r; [apply Rinv_0_lt_compat; exact Hd | exact Hlt]. }
    unfold gap. rewrite <- E0, <- E1.
    set (p := nth i (map onset_time tr) 0 / duration) in *.
    set (q := nth (S i) (map onset_time tr) 0 / duration) in *.
    pose proof (stronger_freq_pos base_freq off accelerating p Hb Ho) as Hfp.
    pose proof (stronger_freq_pos base_freq off accelerating q Hb Ho) as Hfq.
    unfold RissetStronger.freq_at, RissetStronger.EXP_RANGE in *.
    destruct accelerating.
    + assert (Hpq : pow2 (p * 3) < pow2 (q * 3)) by (apply pow2_lt; lra).
      unfold Rdiv. rewrite !Rmult_1_l. apply Rinv_lt_contravar.
      * apply Rmult_lt_0_compat; assumption.
      * apply Rmult_lt_compat_l; lra.
    + assert (Hpq : pow2 (- q * 3) < pow2 (- p * 3)) by (apply pow2_lt; lra).
      unfold Rdiv. rewrite !Rmult_1_l. apply Rinv_lt_contravar.
      * apply Rmult_lt_0_compat; assumption.
      * apply Rmult_lt_compat_l; lra.
  - apply (onsets_from_gains law duration (fun g => 0 <= g <= 1)) with (t := 0);
      [| exact Hon | lra].
    intros t iv g Ht E. rewrite Hval in E. injection E as <- <-. split.
    + left. apply Rdiv_lt_0_compat; [lra | apply stronger_freq_pos; assumption].
    + pose proof (progress_in_unit t duration Hd Ht) as Hp.
      pose proof (smoothed_gate_range (t / duration) 1.3).
      pose proof (loudness_range accelerating (t / duration) ltac:(lra)).
      nra.
  - destruct (onsets_from_first law duration tr _ _ Hd (Hval 0) Hon) as [rest ->].
    exists rest. f_equal. f_equal.
    replace (0 / duration) with 0 by (unfold Rdiv; ring).
    rewrite smoothed_gate_at_0. ring.
  - apply (passes_in_range (8 * (base_freq * off)) duration);
      [nra | exact Hr | exact Hcount].
Qed.

Lemma stronger_layer_rhythm_witness :
  exists fuel layer tr,
    RissetStronger.generate_layer fuel 8 1 0 3 true 44100 = Ok (layer, tr).
Proof.
  assert (Hr : layer_in_range (8 * (1 * pow2 (IZR 0 / IZR 3))) 8 8 0 3 44100).
  { replace (IZR 0 / IZR 3) with 0 by lra. rewrite pow2_0.
    apply layer_in_range_small; (lra || lia). }
  apply (stronger_layer_rhythm 8 1 0 3 44100 true
           ltac:(lra) ltac:(lra) ltac:(lia) Hr).
Defined.

(** ** The cyclic generator *)

(** X5.  The cyclic generator (risset_true_cyclical.py), for parameters inside
    the range of the doubles: the event rate stays between the base
    frequency and twice the base frequency, so a layer of duration [D] has
    between [base_freq * D] and [2 * base_freq * D + 1] hits, at most
    [2 ^ 50 + 1]; each is stamped at a time in [[0, D)] with a gain in
    [[0, 1]], the first one at [t = 0] with the gain of the layer's phase
    offset. *)
Theorem cyclic_layer_density (total_duration base_freq cycle_duration : R)
  (layer_index num_layers sample_rate : Z) (accelerating : bool)
  (Hd : 0 < total_duration) (Hb : 0 < base_freq) (Hc : cycle_duration <> 0)
  (Hsr : (0 < sample_rate)%Z)
  (Hr : layer_in_range (2 * base_freq) total_duration cycle_duration
          layer_index num_layers sample_rate) :
  (exists fuel layer tr,
     RissetCyclic.generate_layer fuel total_duration base_freq layer_index num_layers
       cycle_duration accelerating sample_rate = Ok (layer, tr))
  /\ (forall fuel layer tr,
        RissetCyclic.generate_layer fuel total_duration base_freq layer_index num_layers
          cycle_duration accelerating sample_rate = Ok (layer, tr) ->
        base_freq * total_duration <= INR (length tr)
                                   < 2 * base_freq * total_duration + 1
        /\ INR (length tr) <= 2 ^ 50 + 1
        /\ Forall (fun o => 0 <= onset_time o < total_duration
                            /\ 0 <= onset_gain o <= 1) tr
        /\ (exists rest,
              tr = mk_onset 0 (sin (PI * float_mod1 (IZR layer_index / IZR num_layers)))
                     :: rest)).
Proof.
  apply layer_in_range_clock in Hr. destruct Hr as [Hr Hn].
  split; [apply cyclic_layer_returns; (assumption || lra) |].
  intros fuel layer tr H.
  destruct (cyclic_layer_sound _ _ _ _ _ _ _ _ _ _ Hb Hc Hn H) as [Hon _].
  set (law := RissetCyclic.rate_law base_freq (IZR layer_index / IZR num_layers)
                cycle_duration (if accelerating then 1 else -1)) in *.
  assert (Hbounds : forall t iv g, law t = Ok (iv, g) ->
            1 / (2 * base_freq) <= iv <= 1 / base_freq).
  { intros t iv g E. apply (cyclic_interval_bounds _ _ _ _ _ _ _ Hc Hb E). }
  assert (Hlo : 0 < 1 / (2 * base_freq)) by (apply Rdiv_lt_0_compat; lra).
  assert (Hiv : forall t iv g, 0 <= t -> law t = Ok (iv, g) -> 0 < iv).
  { intros t iv g _ E. pose proof (Hbounds t iv g E). lra. }
  assert (Hfirst : exists rest,
            tr = mk_onset 0 (sin (PI * float_mod1 (IZR layer_index / IZR num_layers)))
                   :: rest).
  { pose proof (cyclic_rate_law_value base_freq (IZR layer_index / IZR num_layers)
                  cycle_duration (if accelerating then 1 else -1) 0 Hc ltac:(lra)) as E.
    destruct (onsets_from_first law total_duration tr _ _ Hd E Hon) as [rest ->].
    exists rest. f_equal. f_equal. f_equal. f_equal. unfold cyclic_phase.
    f_equal. unfold Rdiv. ring. }
  assert (Hcnt : base_freq * total_duration <= INR (length tr)
                                            < 2 * base_freq * total_duration + 1).
  { destruct (onsets_from_count law total_duration (1 / (2 * base_freq)) (1 / base_freq)
                Hlo (fun t iv g _ E => Hbounds t iv g E) 0 tr Hon ltac:(lra))
      as [Hup Hdown].
    destruct Hfirst as [rest Etr].
    specialize (Hdown ltac:(rewrite Etr; discriminate)).
    rewrite Rminus_0_r in Hup, Hdown.
    split.
    + apply (Rmult_le_compat_l base_freq) in Hup; [| lra].
      replace (base_freq * (INR (length tr) * (1 / base_freq)))
        with (INR (length tr)) in Hup by (field; lra).
      exact Hup.
    + apply (Rmult_lt_compat_l (2 * base_freq)) in Hdown; [| lra].
      replace (2 * base_freq * ((INR (length tr) - 1) * (1 / (2 * base_freq))))
        with (INR (length tr) - 1) in Hdown by (field; lra).
      lra. }
  split; [exact Hcnt |]. split; [destruct Hr as [_ Hr]; lra |].
  split; [| exact Hfirst].
  - pose proof (onsets_from_before_duration _ _ _ _ Hon) as Hbefore.
    pose proof (onsets_from_after_start law total_duration Hiv 0 tr Hon ltac:(lra))
      as Hafter.
    pose proof (onsets_from_gains law total_duration (fun g => 0 <= g <= 1)) as Hg.
    specialize (Hg ltac:(
      intros t iv g Ht E; split; [left; eapply Hiv; [apply Ht | exact E] |];
      unfold law in E; rewrite cyclic_rate_law_value in E by lra;
      injection E as _ <-; apply sine_fade_range;
      pose proof (float_mod1_range
                    ((if accelerating then 1 else -1) * t / cycle_duration
                     + IZR layer_index / IZR num_layers));
      unfold cyclic_phase; lra) 0 tr Hon ltac:(lra)).
    rewrite Forall_forall in *. intros o Ho.
    specialize (Hbefore o Ho). specialize (Hafter o Ho). specialize (Hg o Ho).
    simpl in *. lra.
Qed.

Lemma cyclic_layer_density_witness :
  exists fuel layer tr,
    RissetCyclic.generate_layer fuel 30 1.5 0 6 6 true 44100 = Ok (layer, tr).
Proof.
  assert (Hr : layer_in_range (2 * 1.5) 30 6 0 6 44100)
    by (apply layer_in_range_small; (lra || lia)).
  apply (cyclic_layer_density 30 1.5 6 0 6 44100 true
           ltac:(lra) ltac:(lra) ltac:(lra) ltac:(lia) Hr).
Defined.

(** ** The mix of the layers, end to end *)

Lemma range_bounds (n i : Z) : In i (range n) -> (0 <= i < n)%Z.
Proof.
  unfold range. intros H. apply in_map_iff in H. destruct H as [k [<- Hk]].
  apply in_seq in Hk. lia.
Qed.

(** The guarded normalisation of a buffer that is not empty returns finite
    samples, all strictly inside (-1, 1). *)
Lemma normalize_guarded_bounded (x : list R) :
  x <> [] ->
  exists out,
    normalize_guarded x = Ok (map Fin out)
    /\ length out = length x
    /\ Forall (fun v => Rabs v < 1) out.
Proof.
  intros Hne. rewrite normalize_guarded_value by exact Hne.
  eexists. split; [reflexivity |]. split; [apply length_map |].
  apply Forall_forall. intros v Hv. apply in_map_iff in Hv.
  destruct Hv as [y [<- Hy]].
  pose proof (peak_upper _ _ Hy) as Hp. pose proof (Rabs_pos y) as Hy0.
  unfold Rdiv. rewrite Rabs_mult, Rabs_inv.
  rewrite (Rabs_pos_eq (peak _ + 1e-9)) by lra.
  apply (Rmult_lt_reg_r (peak x + 1e-9)); [lra |].
  rewrite Rmult_assoc, Rinv_l by lra. lra.
Qed.

Section MixOfLayers.

(** A family of layer generators, by budget and layer index. *)
Variable gen : nat -> Z -> result (list R * list onset).
Variable n : nat.
Variable idx : list Z.

Hypothesis gen_returns :
  forall i, In i idx -> exists fuel layer tr, gen fuel i = Ok (layer, tr).
Hypothesis gen_more_fuel :
  forall fuel i r, gen fuel i = Ok r -> forall extra, gen (fuel + extra) i = Ok r.
Hypothesis gen_length :
  forall fuel i layer tr, In i idx -> gen fuel i = Ok (layer, tr) -> length layer = n.

(** One budget serves all the layers. *)
Lemma layers_common_fuel :
  exists fuel layers,
    Forall (fun l => length l = n) layers
    /\ forall extra,
         map (fun i => r <- gen (fuel + extra) i ;; Ok (fst r)) idx = map Ok layers.
Proof.
  revert gen_returns gen_length.
  induction idx as [| i rest IH]; intros Hret Hlen.
  - exists 0%nat, []. split; [constructor | reflexivity].
  - destruct (Hret i (or_introl eq_refl)) as [fi [layer [tr Hi]]].
    destruct IH as [fr [layers [Hall Hmap]]].
    + intros j Hj. apply Hret. right. exact Hj.
    + intros f j l t Hj. apply Hlen. right. exact Hj.
    + exists (fi + fr)%nat, (layer :: layers). split.
      * constructor; [| exact Hall]. eapply Hlen; [left; reflexivity | exact Hi].
      * intros extra. cbn [map]. f_equal.
        -- rewrite <- Nat.add_assoc.
           rewrite (gen_more_fuel _ _ _ Hi). reflexivity.
        -- replace (fi + fr + extra)%nat with (fr + (fi + extra))%nat by lia.
           apply Hmap.
Qed.

(** The guarded normalisation of a mix of at least one sample returns
    finite samples, all strictly inside (-1, 1). *)
Lemma normalised_mix_returns (samples : Z) :
  Z.of_nat n = samples -> (0 < n)%nat ->
  exists fuel out,
    mix_and_normalize normalize_guarded samples
      (map (fun i => r <- gen fuel i ;; Ok (fst r)) idx) = Ok (map Fin out)
    /\ length out = n
    /\ Forall (fun v => Rabs v < 1) out.
Proof.
  intros Hs Hn. destruct layers_common_fuel as [fuel [layers [Hall Hmap]]].
  exists fuel. specialize (Hmap 0%nat). rewrite Nat.add_0_r in Hmap.
  rewrite Hmap, <- Hs, mix_and_normalize_layers by exact Hall.
  pose proof (layer_sum_nonempty n layers Hn Hall) as Hne.
  destruct (normalize_guarded_bounded _ Hne) as [out [E [Hl Hb]]].
  exists out. split; [exact E |]. split; [| exact Hb].
  rewrite Hl. unfold layer_sum. apply layer_sum_length; [| exact Hall].
  apply repeat_length.
Qed.

End MixOfLayers.

Lemma positive_sample_count (duration : R) (sample_rate : Z) :
  (0 < sample_rate)%Z -> 1 <= duration * IZR sample_rate ->
  (0 < Z.to_nat (py_int (duration * IZR sample_rate)))%nat
  /\ Z.of_nat (Z.to_nat (py_int (duration * IZR sample_rate)))
     = py_int (duration * IZR sample_rate).
Proof.
  intros Hsr H1.
  assert (H : (1 <= py_int (duration * IZR sample_rate))%Z).
  { rewrite <- (py_int_IZR 1). apply py_int_le; lra. }
  lia.
Qed.

Lemma cyclic_layer_more_fuel fuel total_duration base_freq layer_index num_layers
  cycle_duration accelerating sample_rate r :
  RissetCyclic.generate_layer fuel total_duration base_freq layer_index num_layers
    cycle_duration accelerating sample_rate = Ok r ->
  forall extra,
    RissetCyclic.generate_layer (fuel + extra) total_duration base_freq layer_index
      num_layers cycle_duration accelerating sample_rate = Ok r.
Proof.
  unfold RissetCyclic.generate_layer. intros H extra.
  destruct (np_zeros _) as [layer | e |]; cbn [bind] in *; try discriminate.
  destruct (float_div _ _) as [q | e |]; cbn [bind] in *; try discriminate.
  apply run_clock_more_fuel. exact H.
Qed.

Lemma exponential_layer_more_fuel fuel duration base_freq layer_index num_layers
  accelerating sample_rate r :
  RissetExponential.generate_layer fuel duration base_freq layer_index num_layers
    accelerating sample_rate = Ok r ->
  forall extra,
    RissetExponential.generate_layer (fuel + extra) duration base_freq layer_index
      num_layers accelerating sample_rate = Ok r.
Proof.
  unfold RissetExponential.generate_layer. intros H extra.
  destruct (np_zeros _) as [layer | e |]; cbn [bind] in *; try discriminate.
  destruct (float_div _ _) as [q | e |]; cbn [bind] in *; try discriminate.
  apply run_clock_more_fuel. exact H.
Qed.

Lemma stronger_layer_more_fuel fuel duration base_freq layer_index num_layers
  accelerating sample_rate r :
  RissetStronger.generate_layer fuel duration base_freq layer_index num_layers
    accelerating sample_rate = Ok r ->
  forall extra,
    RissetStronger.generate_layer (fuel + extra) duration base_freq layer_index
      num_layers accelerating sample_rate = Ok r.
Proof.
  unfold RissetStronger.generate_layer. intros H extra.
  destruct (np_zeros _) as [layer | e |]; cbn [bind] in *; try discriminate.
  destruct (float_div _ _) as [q | e |]; cbn [bind] in *; try discriminate.
  apply run_clock_more_fuel. exact H.
Qed.

(** X6.  The three event generators, end to end: with a positive sample rate,
    base tempo and duration and at least one sample, [generate_risset]
    returns a mix of [int(duration * sample_rate)] finite samples, each
    strictly inside (-1, 1), whatever the number of layers. *)
Theorem generate_risset_returns (duration base_tempo cycle_duration : R)
  (num_layers sample_rate : Z) (accelerating : bool)
  (Hsr : (0 < sample_rate)%Z) (Hd : 1 <= duration * IZR sample_rate)
  (Hb : 0 < base_tempo) (Hc : cycle_duration <> 0) :
  let good := fun (r : result (list npfloat)) =>
    exists out, r = Ok (map Fin out)
      /\ Z.of_nat (length out) = py_int (duration * IZR sample_rate)
      /\ Forall (fun v => Rabs v < 1) out in
  (exists fuel, good (RissetCyclic.generate_risset fuel duration base_tempo num_layers
                        accelerating cycle_duration sample_rate))
  /\ (exists fuel, good (RissetExponential.generate_risset fuel duration base_tempo
                           num_layers accelerating sample_rate))
  /\ (exists fuel, good (RissetStronger.generate_risset fuel duration base_tempo
                           num_layers accelerating sample_rate)).
Proof.
  intros good.
  destruct (positive_sample_count duration sample_rate Hsr Hd) as [Hn Hs].
  assert (Hdur : 0 < duration).
  { assert (0 < IZR sample_rate) by (apply IZR_lt; exact Hsr).
    destruct (Rlt_dec 0 duration) as [H0 | H0]; [exact H0 | nra]. }
  assert (Hbf : 0 < base_tempo / 60) by lra.
  assert (Hidx : forall i, In i (range num_layers) -> num_layers <> 0%Z).
  { intros i Hi. apply range_bounds in Hi. lia. }
  split; [| split].
  - destruct (normalised_mix_returns
                (fun fuel i => RissetCyclic.generate_layer fuel duration (base_tempo / 60)
                                 i num_layers cycle_duration accelerating sample_rate)
                (Z.to_nat (py_int (duration * IZR sample_rate))) (range num_layers))
      with (samples := py_int (duration * IZR sample_rate))
      as [fuel [out [E [Hl Hb1]]]].
    + intros i Hi. apply cyclic_layer_returns; try assumption; try lra.
      exact (Hidx i Hi).
    + intros fuel i r. apply cyclic_layer_more_fuel.
    + intros fuel i layer tr Hi E.
      destruct (cyclic_layer_sound _ _ _ _ _ _ _ _ _ _ Hbf Hc (Hidx i Hi) E)
        as [_ [_ Hlen]].
      specialize (Hlen Hsr). lia.
    + exact Hs.
    + exact Hn.
    + exists fuel, out. split; [exact E |]. split; [lia | exact Hb1].
  - destruct (normalised_mix_returns
                (fun fuel i => RissetExponential.generate_layer fuel duration
                                 (base_tempo / 60) i num_layers accelerating sample_rate)
                (Z.to_nat (py_int (duration * IZR sample_rate))) (range num_layers))
      with (samples := py_int (duration * IZR sample_rate))
      as [fuel [out [E [Hl Hb1]]]].
    + intros i Hi. apply exponential_layer_returns; try assumption.
      exact (Hidx i Hi).
    + intros fuel i r. apply exponential_layer_more_fuel.
    + intros fuel i layer tr Hi E.
      destruct (exponential_layer_sound _ _ _ _ _ _ _ _ _ Hdur Hbf (Hidx i Hi) E)
        as [_ [_ Hlen]].
      specialize (Hlen Hsr). lia.
    + exact Hs.
    + exact Hn.
    + exists fuel, out. split; [exact E |]. split; [lia | exact Hb1].
  - destruct (normalised_mix_returns
                (fun fuel i => RissetStronger.generate_layer fuel duration
                                 (base_tempo / 60) i num_layers accelerating sample_rate)
                (Z.to_nat (py_int (duration * IZR sample_rate))) (range num_layers))
      with (samples := py_int (duration * IZR sample_rate))
      as [fuel [out [E [Hl Hb1]]]].
    + intros i Hi. apply stronger_layer_returns; try assumption.
      exact (Hidx i Hi).
    + intros fuel i r. apply stronger_layer_more_fuel.
    + intros fuel i layer tr Hi E.
      destruct (stronger_layer_sound _ _ _ _ _ _ _ _ _ Hdur Hbf (Hidx i Hi) E)
        as [_ [_ Hlen]].
      specialize (Hlen Hsr). lia.
    + exact Hs.
    + exact Hn.
    + exists fuel, out. split; [exact E |]. split; [lia | exact Hb1].
Qed.

Lemma generate_risset_returns_witness :
  exists fuel out,
    RissetCyclic.generate_risset fuel 30 90 6 true 6 44100 = Ok (map Fin out)
    /\ Z.of_nat (length out) = py_int (30 * IZR 44100)
    /\ Forall (fun v => Rabs v < 1) out.
Proof.
  destruct (generate_risset_returns 30 90 6 6 44100 true ltac:(lia) ltac:(lra)
              ltac:(lra) ltac:(lra)) as [[fuel [out H]] _].
  exists fuel, out. exact H.
Defined.

(** ** The mix without samples, and without layers *)

Lemma py_int_nonpositive (x : R) : x <= 0 -> (py_int x <= 0)%Z.
Proof.
  intros Hx. unfold py_int. destruct (Rle_dec 0 x) as [H0 | H0].
  - replace x with (IZR 0) by lra. rewrite ZfloorZ. lia.
  - assert ((0 <= Zfloor (- x))%Z) by (apply (Zfloor_lub 0); lra). lia.
Qed.

Lemma mix_into_empty_layers (gens : list (result (list R))) :
  Forall (fun g => g = Ok []) gens -> mix_into [] gens = Ok [].
Proof.
  induction 1 as [| g rest Hg _ IH]; [reflexivity |].
  cbn [mix_into]. rewrite Hg. cbn [bind]. exact IH.
Qed.

Lemma empty_mix_raises (samples : Z) (gens : list (result (list R))) :
  (samples <= 0)%Z -> Forall (fun g => g = Ok []) gens ->
  mix_and_normalize normalize_guarded samples gens = Raise ValueError.
Proof.
  intros Hs Hall. unfold mix_and_normalize, np_zeros.
  destruct (Z.ltb_spec samples 0) as [Hneg | Hpos]; [reflexivity |].
  replace samples with 0%Z by lia. cbn [bind Z.to_nat repeat].
  rewrite mix_into_empty_layers by exact Hall. reflexivity.
Qed.

Lemma clock_not_entered rate_law make_hit_call sample_rate samples total_duration
  (fuel : nat) (layer : list R) :
  total_duration <= 0 ->
  run_clock rate_law make_hit_call sample_rate samples total_duration (S fuel) layer
  = Ok (layer, []).
Proof.
  intros Hd. unfold run_clock. cbn [while_loop cursor].
  destruct (Rlt_dec 0 total_duration); [lra | reflexivity].
Qed.

(** X7.  Without a sample there is nothing to normalise: for a duration that is
    zero or negative (and a sample rate that is not negative) the three
    [generate_risset] raise [ValueError], from [np.zeros] on a negative
    size or from [np.max] on the empty mix, whatever the other
    parameters. *)
Theorem generate_risset_without_samples (fuel : nat)
  (duration base_tempo cycle_duration : R) (num_layers sample_rate : Z)
  (accelerating : bool)
  (Hd : duration <= 0) (Hsr : (0 <= sample_rate)%Z) :
  RissetCyclic.generate_risset (S fuel) duration base_tempo num_layers accelerating
    cycle_duration sample_rate = Raise ValueError
  /\ RissetExponential.generate_risset (S fuel) duration base_tempo num_layers
       accelerating sample_rate = Raise ValueError
  /\ RissetStronger.generate_risset (S fuel) duration base_tempo num_layers
       accelerating sample_rate = Raise ValueError.
Proof.
  assert (Hs : (py_int (duration * IZR sample_rate) <= 0)%Z).
  { apply py_int_nonpositive. assert (0 <= IZR sample_rate) by (apply IZR_le; exact Hsr).
    nra. }
  destruct (Z.ltb_spec (py_int (duration * IZR sample_rate)) 0) as [Hneg | Hpos].
  - assert (E : np_zeros (py_int (duration * IZR sample_rate)) = Raise ValueError).
    { unfold np_zeros.
      destruct (Z.ltb_spec (py_int (duration * IZR sample_rate)) 0); [reflexivity | lia]. }
    unfold RissetCyclic.generate_risset, RissetExponential.generate_risset,
      RissetStronger.generate_risset, mix_and_normalize.
    rewrite E. cbn [bind]. auto.
  - assert (E : np_zeros (py_int (duration * IZR sample_rate)) = Ok []).
    { replace (py_int (duration * IZR sample_rate)) with 0%Z by lia. reflexivity. }
    split; [| split]; apply empty_mix_raises; try exact Hs;
      apply Forall_forall; intros g Hg; apply in_map_iff in Hg;
      destruct Hg as [i [<- Hi]]; apply range_bounds in Hi.
    + unfold RissetCyclic.generate_layer. rewrite E. cbn [bind].
      rewrite float_div_ok by (apply IZR_nonzero; lia). cbn [bind].
      rewrite clock_not_entered by exact Hd. reflexivity.
    + unfold RissetExponential.generate_layer. rewrite E. cbn [bind].
      rewrite float_div_ok by (apply IZR_nonzero; lia). cbn [bind].
      rewrite clock_not_entered by exact Hd. reflexivity.
    + unfold RissetStronger.generate_layer. rewrite E. cbn [bind].
      rewrite float_div_ok by (apply IZR_nonzero; lia). cbn [bind].
      rewrite clock_not_entered by exact Hd. reflexivity.
Qed.

Lemma generate_risset_without_samples_witness :
  RissetCyclic.generate_risset 1 0 90 6 true 6 44100 = Raise ValueError.
Proof.
  apply (generate_risset_without_samples 0 0 90 6 6 44100 true); [lra | lia].
Defined.

(** X8.  Without a layer the mix is silence: for a layer count that is zero or
    negative and at least one sample, the three [generate_risset] return
    [int(duration * sample_rate)] zeros (the guard keeps the division
    finite), whatever the budget and the other parameters. *)
Theorem generate_risset_without_layers (fuel : nat)
  (duration base_tempo cycle_duration : R) (num_layers sample_rate : Z)
  (accelerating : bool)
  (Hn : (num_layers <= 0)%Z) (Hs : (1 <= py_int (duration * IZR sample_rate))%Z) :
  let silence := Ok (repeat (Fin 0) (Z.to_nat (py_int (duration * IZR sample_rate)))) in
  RissetCyclic.generate_risset fuel duration base_tempo num_layers accelerating
    cycle_duration sample_rate = silence
  /\ RissetExponential.generate_risset fuel duration base_tempo num_layers
       accelerating sample_rate = silence
  /\ RissetStronger.generate_risset fuel duration base_tempo num_layers
       accelerating sample_rate = silence.
Proof.
  intros silence.
  assert (Hr : range num_layers = []).
  { unfold range. replace (Z.to_nat num_layers) with 0%nat by lia. reflexivity. }
  assert (E : forall gens : list (result (list R)), gens = [] ->
            mix_and_normalize normalize_guarded (py_int (duration * IZR sample_rate)) gens
            = silence).
  { intros gens ->. unfold mix_and_normalize, np_zeros.
    destruct (Z.ltb_spec (py_int (duration * IZR sample_rate)) 0); [lia |].
    cbn [bind mix_into]. apply normalize_guarded_silent. lia. }
  unfold RissetCyclic.generate_risset, RissetExponential.generate_risset,
    RissetStronger.generate_risset.
  rewrite Hr. cbn [map]. repeat split; apply E; reflexivity.
Qed.

Lemma generate_risset_without_layers_witness :
  RissetCyclic.generate_risset 0 1 90 0 true 6 4 = Ok (repeat (Fin 0) 4).
Proof.
  assert (H : py_int (1 * IZR 4) = 4%Z).
  { rewrite Rmult_1_l. apply py_int_IZR. }
  pose proof (generate_risset_without_layers 0 1 90 6 0 4 true ltac:(lia)
                ltac:(rewrite H; lia)) as [E _].
  rewrite H in E. exact E.
Defined.

(** ** The tempo ramp, end to end *)

(** X9.  [generate_ramp] (backup.py lines 408-430) for a positive sample rate, a
    beep duration that is not negative and a ramp with
    [0 <= bpm < 60 * sample_rate]: with at least one sample it returns
    [int(sample_rate * duration)] finite samples, all strictly inside
    (-1, 1); with a duration too short for one sample the signal is empty
    and the normalisation raises [ValueError]. *)
Theorem generate_ramp_returns (bpm_start bpm_end duration beep_freq beep_duration : R)
  (sample_rate : Z)
  (Hsr : (0 < sample_rate)%Z) (Hbd : 0 <= beep_duration)
  (Hb0 : 0 <= bpm_start < 60 * IZR sample_rate)
  (Hb1 : 0 <= bpm_end < 60 * IZR sample_rate) :
  (1 <= IZR sample_rate * duration ->
   exists out,
     TempoRamp.generate_ramp bpm_start bpm_end duration beep_freq beep_duration
       sample_rate = Ok (map Fin out)
     /\ Z.of_nat (length out) = py_int (IZR sample_rate * duration)
     /\ Forall (fun v => Rabs v < 1) out)
  /\ (0 <= IZR sample_rate * duration < 1 ->
      TempoRamp.generate_ramp bpm_start bpm_end duration beep_freq beep_duration
        sample_rate = Raise ValueError).
Proof.
  assert (Hsr0 : 0 < IZR sample_rate) by (apply IZR_lt; exact Hsr).
  assert (Hbs : (0 <= py_int (beep_duration * IZR sample_rate))%Z).
  { apply py_int_ge_0. nra. }
  destruct (make_beep_ok beep_freq beep_duration _ Hbs) as [beep [Ebeep Hbl]].
  split.
  - intros Hd.
    assert (Hn : (1 <= py_int (IZR sample_rate * duration))%Z).
    { rewrite <- (py_int_IZR 1). apply py_int_le; lra. }
    set (n := Z.to_nat (py_int (IZR sample_rate * duration))).
    set (bpm := linspace bpm_start bpm_end (length (linspace 0 duration n))).
    destruct (ramp_loop_invariant beep _ sample_rate Hbl bpm
                (TempoRamp.mk_ramp 0 (repeat 0 (length (linspace 0 duration n))) [])
                0%Z 0)
      as [st [Eloop [Hlen _]]].
    + apply ramp_increments_in_unit; assumption.
    + cbn [TempoRamp.phase]. symmetry. apply (float_mod1_integer 0).
    + lia.
    + cbn [TempoRamp.signal]. unfold bpm.
      rewrite repeat_length, !linspace_length. lia.
    + cbn [TempoRamp.signal] in Hlen. rewrite repeat_length, linspace_length in Hlen.
      assert (Hne : TempoRamp.signal st <> []).
      { intros E. rewrite E in Hlen. simpl in Hlen. lia. }
      destruct (normalize_guarded_bounded _ Hne) as [out [E [Hl Hb]]].
      exists out. split; [| split; [lia | exact Hb]].
      unfold TempoRamp.generate_ramp, TempoRamp.ramp_signal.
      rewrite Ebeep. cbn [bind].
      destruct (Z.ltb_spec (py_int (IZR sample_rate * duration)) 0); [lia |].
      fold n. fold bpm. rewrite Eloop. cbn [bind]. exact E.
  - intros Hd.
    assert (Hn : py_int (IZR sample_rate * duration) = 0%Z).
    { apply py_int_value; [lra |]. simpl. lra. }
    unfold TempoRamp.generate_ramp, TempoRamp.ramp_signal.
    rewrite Ebeep. cbn [bind]. rewrite Hn. reflexivity.
Qed.

Lemma generate_ramp_returns_witness :
  exists out,
    TempoRamp.generate_ramp 60 120 10 1000 0.02 44100 = Ok (map Fin out)
    /\ Z.of_nat (length out) = py_int (IZR 44100 * 10)
    /\ Forall (fun v => Rabs v < 1) out.
Proof.
  apply (generate_ramp_returns 60 120 10 1000 0.02 44100); (lia || lra).
Defined.

(** ** The kick *)

Lemma peak_rescaled (x : list R) :
  peak x <> 0 -> peak (map (fun v => v / peak x * 0.8) x) = 0.8.
Proof.
  intros Hp. pose proof (peak_nonneg x).
  rewrite (map_ext _ (fun v => v / (peak x / 0.8))) by (intros v; field; lra).
  rewrite peak_scaled by (apply Rdiv_lt_0_compat; lra).
  field. lra.
Qed.

(** X10.  [make_kick] (backup.py lines 44-54, risset_rhythm_generator.py lines
    67-83) for a sample rate above 300 Hz and a duration of at least one
    sample: the kick is not silent (its first sample is
    [sin(2 pi 150 / sample_rate) > 0]), so the division by the peak is
    finite, and the normalised kick has [int(duration_ms / 1000 *
    sample_rate)] samples with peak exactly 0.8, so that the scaling by
    32767 stays within 16 bits.  With a duration shorter than one sample the
    kick is empty and [np.max] raises [ValueError]. *)
Theorem kick_peak (sample_rate : Z) (duration_ms : R)
  (Hsr : (300 < sample_rate)%Z) (Hms : 0 <= duration_ms) :
  (1 <= duration_ms / 1000 * IZR sample_rate ->
   exists out,
     RissetRhythm.make_kick sample_rate duration_ms = Ok (map Fin out)
     /\ Z.of_nat (length out) = py_int (duration_ms / 1000 * IZR sample_rate)
     /\ peak out = 0.8
     /\ Forall (fun v => Rabs (v * 32767) < 32767) out)
  /\ (duration_ms / 1000 * IZR sample_rate < 1 ->
      RissetRhythm.make_kick sample_rate duration_ms = Raise ValueError).
Proof.
  assert (Hsr0 : 300 < IZR sample_rate) by (apply IZR_lt; exact Hsr).
  split.
  - intros Hd.
    assert (Hn : (1 <= py_int (duration_ms / 1000 * IZR sample_rate))%Z).
    { rewrite <- (py_int_IZR 1). apply py_int_le; lra. }
    unfold RissetRhythm.make_kick.
    destruct (Z.ltb_spec (py_int (duration_ms / 1000 * IZR sample_rate)) 0); [lia |].
    set (n := Z.to_nat (py_int (duration_ms / 1000 * IZR sample_rate))).
    set (t := linspace 0 (duration_ms / 1000) n).
    set (freq := map (fun x => 150 * exp (- x * 10)) t).
    set (wave := map sin (map (fun c => 2 * PI * c / IZR sample_rate) (cumsum freq))).
    set (envelope := map (fun x => exp (- x * 7)) t).
    assert (Ht : length t = n) by apply linspace_length.
    assert (Hf : length freq = n) by (unfold freq; now rewrite length_map).
    assert (Hw : length wave = n).
    { unfold wave, cumsum. rewrite !length_map, cumsum_from_length. exact Hf. }
    assert (He : length envelope = n) by (unfold envelope; now rewrite length_map).
    assert (Hk : length (vmul wave envelope) = n) by (rewrite vmul_length; lia).
    assert (Hn0 : (0 < n)%nat) by (unfold n; lia).
    assert (Ht0 : nth 0 t 0 = 0).
    { unfold t, linspace. rewrite (map_nth_in _ _ _ 0%nat) by (rewrite length_seq; lia).
      rewrite seq_nth by lia. simpl INR. ring. }
    assert (Hfirst : nth 0 (vmul wave envelope) 0 = sin (2 * PI * 150 / IZR sample_rate)).
    { rewrite vmul_nth by lia. unfold wave.
      rewrite integrated_phase_nth by lia. unfold envelope, freq.
      cbn [sum_f_R0].
      rewrite !(map_nth_in _ _ _ 0) by lia. rewrite Ht0.
      replace (- 0 * 10) with 0 by ring. replace (- 0 * 7) with 0 by ring.
      rewrite exp_0. rewrite Rmult_1_r. f_equal. f_equal. ring. }
    assert (Hsin : 0 < sin (2 * PI * 150 / IZR sample_rate)).
    { pose proof PI_RGT_0 as Hpi.
      assert (Hx : 2 * PI * 150 / IZR sample_rate = PI * (300 / IZR sample_rate))
        by (field; lra).
      rewrite Hx.
      assert (H01 : 0 < 300 / IZR sample_rate < 1).
      { split; [apply Rdiv_lt_0_compat; lra |].
        apply (Rmult_lt_reg_r (IZR sample_rate)); [lra |].
        unfold Rdiv. rewrite Rmult_assoc, Rinv_l by lra. lra. }
      apply sin_gt_0; nra. }
    assert (Hpeak : peak (vmul wave envelope) <> 0).
    { assert (Hin : In (nth 0 (vmul wave envelope) 0) (vmul wave envelope))
        by (apply nth_In; lia).
      pose proof (peak_upper _ _ Hin) as Hup. rewrite Hfirst in Hup.
      rewrite Rabs_pos_eq in Hup by lra. lra. }
    rewrite normalize_shepard_value by exact Hpeak.
    eexists. split; [reflexivity |]. split; [| split].
    + rewrite length_map, Hk. unfold n. lia.
    + apply peak_rescaled. exact Hpeak.
    + apply Forall_forall. intros v Hv.
      pose proof (peak_upper _ _ Hv) as Hup. rewrite peak_rescaled in Hup by exact Hpeak.
      rewrite Rabs_mult, (Rabs_pos_eq 32767) by lra. lra.
  - intros Hd.
    assert (Hn : py_int (duration_ms / 1000 * IZR sample_rate) = 0%Z).
    { apply py_int_value; [| simpl]; nra. }
    unfold RissetRhythm.make_kick. rewrite Hn. reflexivity.
Qed.

Lemma kick_peak_witness :
  exists out,
    RissetRhythm.make_kick 44100 150 = Ok (map Fin out)
    /\ Z.of_nat (length out) = py_int (150 / 1000 * IZR 44100)
    /\ peak out = 0.8
    /\ Forall (fun v => Rabs (v * 32767) < 32767) out.
Proof.
  apply (kick_peak 44100 150); (lia || lra).
Defined.

(** ** The Shepard layer: position in the band, envelope, sweep *)

Lemma ln2_pos : 0 < ln 2.
Proof. rewrite <- ln_1. apply ln_increasing; lra. Qed.

Lemma np_log2_pow2 (x : R) : np_log2 (pow2 x) = x.
Proof.
  unfold np_log2, pow2, Rpower. rewrite ln_exp. field.
  pose proof ln2_pos. lra.
Qed.

Lemma np_log2_mult (x y : R) : 0 < x -> 0 < y -> np_log2 (x * y) = np_log2 x + np_log2 y.
Proof.
  intros Hx Hy. unfold np_log2. rewrite ln_mult by assumption. field.
  pose proof ln2_pos. lra.
Qed.

(** With a number of octaves that is not zero, the position is the
    fractional part of the octave count divided by the band. *)
Lemma freq_position_value (g : Shepard.config) (f : R) :
  Shepard.num_octaves g <> 0%Z ->
  Shepard.freq_position g f
  = float_mod1 (np_log2 (f / Shepard.base_frequency g) / IZR (Shepard.num_octaves g)).
Proof.
  intros Hn. unfold Shepard.freq_position, np_mod, float_mod1.
  field. apply IZR_nonzero. exact Hn.
Qed.

Lemma gaussian_floor (x : R) :
  0 <= x <= 1 -> exp (- (25 / 18)) <= gaussian_envelope x 0.5 0.3.
Proof.
  intros Hx. unfold gaussian_envelope.
  destruct (Req_dec (- (25 / 18)) (- (x - 0.5) ^ 2 / (2 * 0.3 ^ 2))) as [E | N];
    [right; rewrite <- E; reflexivity | left].
  apply exp_increasing. revert N.
  assert (Hc : 2 * 0.3 ^ 2 = 9 / 50) by (cbn [pow]; lra).
  rewrite Hc.
  assert ((x - 0.5) ^ 2 <= 1 / 4) by nra.
  intros N. lra.
Qed.

(** X11.  Where a frequency stands in the band of all octaves
    (shepard_tone_generator.py line 91): for a number of octaves that is
    not zero and a frequency on the side of the base frequency, the
    position lies in [[0, 1)]; it is the same for a frequency and for the
    frequency [num_octaves] octaves above it; and the Gaussian envelope
    taken there lies between [exp(-25/18)] (about 0.249) and 1, so no
    layer is ever faded out completely. *)
Theorem shepard_position_wraps (g : Shepard.config) (f : R)
  (Hn : Shepard.num_octaves g <> 0%Z) (Hf : 0 < f / Shepard.base_frequency g) :
  0 <= Shepard.freq_position g f < 1
  /\ Shepard.freq_position g (f * pow2 (IZR (Shepard.num_octaves g)))
     = Shepard.freq_position g f
  /\ exp (- (25 / 18)) <= gaussian_envelope (Shepard.freq_position g f) 0.5 0.3 <= 1.
Proof.
  assert (Hr : 0 <= Shepard.freq_position g f < 1).
  { rewrite freq_position_value by exact Hn. apply float_mod1_range. }
  split; [exact Hr |]. split.
  - rewrite !freq_position_value by exact Hn.
    replace (f * pow2 (IZR (Shepard.num_octaves g)) / Shepard.base_frequency g)
      with (f / Shepard.base_frequency g * pow2 (IZR (Shepard.num_octaves g)))
      by (unfold Rdiv; ring).
    rewrite np_log2_mult by (exact Hf || apply pow2_pos).
    rewrite np_log2_pow2.
    replace ((np_log2 (f / Shepard.base_frequency g) + IZR (Shepard.num_octaves g))
             / IZR (Shepard.num_octaves g))
      with (np_log2 (f / Shepard.base_frequency g) / IZR (Shepard.num_octaves g) + IZR 1)
      by (field; apply IZR_nonzero; exact Hn).
    apply float_mod1_shift.
  - split; [apply gaussian_floor; lra |].
    apply gaussian_range. lra.
Qed.

Lemma shepard_position_wraps_witness :
  0 <= Shepard.freq_position (Shepard.mk_config 10 55 8 1 Shepard.Up 44100) 110 < 1.
Proof.
  apply (shepard_position_wraps (Shepard.mk_config 10 55 8 1 Shepard.Up 44100) 110).
  - simpl. lia.
  - simpl. lra.
Defined.

Lemma shepard_frequency_nth (g : Shepard.config) (octave_index num_samples i : nat) :
  Shepard.duration_seconds g <> 0 -> (i < num_samples)%nat ->
  nth i (Shepard.frequency g octave_index num_samples) 0
  = Shepard.base_frequency g * 2 ^ octave_index
    * pow2 (match Shepard.dir g with Shepard.Up => 1 | Shepard.Down => -1 end
            * (INR i / INR num_samples) * Shepard.rise_rate g).
Proof.
  intros Hd Hi. rewrite shepard_frequency_table by exact Hd.
  rewrite (map_nth_in _ _ _ 0%nat) by (rewrite length_seq; exact Hi).
  rewrite seq_nth by exact Hi. reflexivity.
Qed.

(** X12.  The frequency sweep of one octave layer (lines 76-83), for a positive
    base frequency and rise rate: the layer starts on its octave,
    [base_frequency * 2 ** octave_index]; going up the frequency rises
    strictly from sample to sample and stays below the start times
    [2 ** rise_rate]; going down it falls strictly and stays above the start
    divided by [2 ** rise_rate]. *)
Theorem shepard_sweep_monotone (g : Shepard.config) (octave_index num_samples : nat)
  (Hd : Shepard.duration_seconds g <> 0) (Hb : 0 < Shepard.base_frequency g)
  (Hr : 0 < Shepard.rise_rate g) :
  let freqs := Shepard.frequency g octave_index num_samples in
  let start := Shepard.base_frequency g * 2 ^ octave_index in
  ((0 < num_samples)%nat -> nth 0 freqs 0 = start)
  /\ (forall i j, (i < j < num_samples)%nat ->
        match Shepard.dir g with
        | Shepard.Up => nth i freqs 0 < nth j freqs 0
        | Shepard.Down => nth j freqs 0 < nth i freqs 0
        end)
  /\ (forall i, (i < num_samples)%nat ->
        match Shepard.dir g with
        | Shepard.Up => start <= nth i freqs 0 < start * pow2 (Shepard.rise_rate g)
        | Shepard.Down => start / pow2 (Shepard.rise_rate g) < nth i freqs 0 <= start
        end).
Proof.
  intros freqs start.
  assert (Hs : 0 < start).
  { unfold start. apply Rmult_lt_0_compat; [exact Hb | apply pow_lt; lra]. }
  assert (Hfrac : forall i, (i < num_samples)%nat -> 0 <= INR i / INR num_samples < 1).
  { intros i Hi. assert (0 < INR num_samples) by (apply lt_0_INR; lia).
    split; [apply Rle_mult_inv_pos; [apply pos_INR | assumption] |].
    apply (Rmult_lt_reg_r (INR num_samples)); [assumption |].
    unfold Rdiv. rewrite Rmult_assoc, Rinv_l by lra.
    rewrite Rmult_1_r, Rmult_1_l. apply lt_INR. exact Hi. }
  assert (Hinv : start / pow2 (Shepard.rise_rate g)
                 = start * pow2 (- Shepard.rise_rate g)).
  { unfold Rdiv. f_equal. apply Rmult_eq_reg_l with (pow2 (Shepard.rise_rate g));
      [| apply Rgt_not_eq; apply pow2_pos].
    rewrite Rinv_r by (apply Rgt_not_eq; apply pow2_pos).
    rewrite <- pow2_add, <- pow2_0. f_equal. lra. }
  split; [| split].
  - intros Hpos. unfold freqs. rewrite shepard_frequency_nth by assumption.
    fold start. replace (INR 0 / INR num_samples) with 0 by (simpl; unfold Rdiv; ring).
    replace (_ * 0 * _) with 0 by ring. rewrite pow2_0. ring.
  - intros i j Hij. unfold freqs.
    rewrite !shepard_frequency_nth by (assumption || lia). fold start.
    assert (Hlt : INR i / INR num_samples < INR j / INR num_samples).
    { unfold Rdiv. apply Rmult_lt_compat_r;
        [apply Rinv_0_lt_compat; apply lt_0_INR; lia | apply lt_INR; lia]. }
    destruct (Shepard.dir g); apply Rmult_lt_compat_l; try exact Hs; apply pow2_lt; nra.
  - intros i Hi. unfold freqs. rewrite shepard_frequency_nth by assumption. fold start.
    pose proof (Hfrac i Hi) as Hp.
    set (x := INR i / INR num_samples) in *.
    pose proof pow2_0 as H0.
    destruct (Shepard.dir g).
    + assert (H1 : pow2 0 <= pow2 (1 * x * Shepard.rise_rate g)) by (apply pow2_le; nra).
      assert (H2 : pow2 (1 * x * Shepard.rise_rate g) < pow2 (Shepard.rise_rate g))
        by (apply pow2_lt; nra).
      split; [nra |]. apply Rmult_lt_compat_l; [exact Hs | exact H2].
    + rewrite Hinv.
      assert (H1 : pow2 (-1 * x * Shepard.rise_rate g) <= pow2 0) by (apply pow2_le; nra).
      assert (H2 : pow2 (- Shepard.rise_rate g) < pow2 (-1 * x * Shepard.rise_rate g))
        by (apply pow2_lt; nra).
      split; [apply Rmult_lt_compat_l; [exact Hs | exact H2] | nra].
Qed.

Lemma shepard_sweep_monotone_witness :
  nth 0 (Shepard.frequency (Shepard.mk_config 10 55 8 1 Shepard.Up 44100) 1 4) 0
  = 55 * 2 ^ 1.
Proof.
  apply (shepard_sweep_monotone (Shepard.mk_config 10 55 8 1 Shepard.Up 44100) 1 4);
    simpl; (lra || lia).
Defined.

(** X13.  One octave layer (lines 70-96), for parameters inside the range
    of the doubles (among them a number of octaves and a duration that are
    not zero and a positive base frequency and sample rate): it has
    [num_samples] samples, all in [[-1, 1]], and sample [i] is the sine of
    the integrated frequency times an envelope value between
    [exp(-25/18)] and 1. *)
Theorem shepard_layer_bounded (g : Shepard.config) (octave_index num_samples : nat)
  (Hr : sweep_in_range g octave_index num_samples) :
  let layer := Shepard.generate_shepard_layer g octave_index num_samples in
  let freqs := Shepard.frequency g octave_index num_samples in
  length layer = num_samples
  /\ (forall i, Rabs (nth i layer 0) <= 1)
  /\ (forall i, (i < num_samples)%nat ->
        exists e, exp (- (25 / 18)) <= e <= 1
          /\ nth i layer 0
             = sin (2 * PI * sum_f_R0 (fun k => nth k freqs 0) i
                    / IZR (Shepard.sample_rate g)) * e).
Proof.
  intros layer freqs. destruct Hr as [_ [_ [_ [_ [_ [Hn _]]]]]].
  assert (Hfl : length freqs = num_samples) by apply shepard_frequency_length.
  set (wave := map sin (map (fun c => 2 * PI * c / IZR (Shepard.sample_rate g))
                          (cumsum freqs))).
  set (envelope := map (fun f => gaussian_envelope (Shepard.freq_position g f) 0.5 0.3)
                     freqs).
  assert (Hw : length wave = num_samples).
  { unfold wave, cumsum. rewrite !length_map, cumsum_from_length. exact Hfl. }
  assert (He : length envelope = num_samples) by (unfold envelope; now rewrite length_map).
  assert (Hl : length layer = num_samples).
  { unfold layer, Shepard.generate_shepard_layer. fold freqs. fold wave. fold envelope.
    rewrite vmul_length; lia. }
  assert (Hnth : forall i, (i < num_samples)%nat ->
            exists e, exp (- (25 / 18)) <= e <= 1
              /\ nth i layer 0
                 = sin (2 * PI * sum_f_R0 (fun k => nth k freqs 0) i
                        / IZR (Shepard.sample_rate g)) * e).
  { intros i Hi.
    exists (gaussian_envelope (Shepard.freq_position g (nth i freqs 0)) 0.5 0.3). split.
    - assert (Hr : 0 <= Shepard.freq_position g (nth i freqs 0) < 1).
      { rewrite freq_position_value by exact Hn. apply float_mod1_range. }
      split; [apply gaussian_floor; lra | apply gaussian_range; lra].
    - unfold layer, Shepard.generate_shepard_layer.
      fold freqs. fold wave. fold envelope.
      rewrite vmul_nth by lia. unfold wave.
      rewrite integrated_phase_nth by lia. unfold envelope.
      rewrite (map_nth_in _ _ _ 0) by lia. reflexivity. }
  split; [exact Hl |]. split; [| exact Hnth].
  intros i. destruct (Nat.lt_ge_cases i num_samples) as [Hi | Hi].
  - destruct (Hnth i Hi) as [e [[He0 He1] ->]].
    assert (0 < exp (- (25 / 18))) by apply exp_pos.
    pose proof (SIN_bound (2 * PI * sum_f_R0 (fun k => nth k freqs 0) i
                           / IZR (Shepard.sample_rate g))) as [Hs0 Hs1].
    rewrite Rabs_mult, (Rabs_pos_eq e) by lra.
    assert (Rabs (sin (2 * PI * sum_f_R0 (fun k => nth k freqs 0) i
                       / IZR (Shepard.sample_rate g))) <= 1) by (apply Rabs_le; lra).
    pose proof (Rabs_pos (sin (2 * PI * sum_f_R0 (fun k => nth k freqs 0) i
                               / IZR (Shepard.sample_rate g)))).
    nra.
  - rewrite nth_overflow by lia. rewrite Rabs_R0. lra.
Qed.

Lemma shepard_layer_bounded_witness :
  length (Shepard.generate_shepard_layer
            (Shepard.mk_config 10 55 8 1 Shepard.Up 44100) 2 16) = 16%nat.
Proof.
  apply (shepard_layer_bounded (Shepard.mk_config 10 55 8 1 Shepard.Up 44100) 2 16).
  unfold sweep_in_range.
  cbn [Shepard.base_frequency Shepard.duration_seconds Shepard.rise_rate
       Shepard.sample_rate Shepard.num_octaves].
  rewrite !Rabs_pos_eq by lra.
  assert (H16 : INR 16 = 16) by (simpl; lra).
  rewrite H16. repeat split; try lra; lia.
Defined.

(** ** The loop-based generators: tempo ranges, speed factor, volume *)

Lemma powerRZ_2_succ (z : Z) : powerRZ 2 (z + 1) = 2 * powerRZ 2 z.
Proof. rewrite powerRZ_add by lra. rewrite powerRZ_1. ring. Qed.

Lemma powerRZ_2_pos (z : Z) : 0 < powerRZ 2 z.
Proof. apply powerRZ_lt. lra. Qed.

(** X14.  The tempo ranges of the layers (backup.py lines 111-119,
    risset_rhythm_generator.py lines 134-135) tile the octaves above the
    base tempo: an accelerating layer ends an octave above its start, where
    the next layer starts, and layer 0 starts at the base tempo; the
    decelerating range of a layer is the accelerating range of the layer
    mirrored in the stack, run backwards, so that the last decelerating
    layer ends at the base tempo. *)
Theorem tempo_ranges_tile (base_tempo : R) (num_layers layer_index : Z) :
  let acc := RissetRhythm.tempo_range base_tempo num_layers RissetRhythm.Accelerating in
  let dec := RissetRhythm.tempo_range base_tempo num_layers RissetRhythm.Decelerating in
  snd (acc layer_index) = 2 * fst (acc layer_index)
  /\ fst (acc (layer_index + 1)%Z) = snd (acc layer_index)
  /\ fst (acc 0%Z) = base_tempo
  /\ dec layer_index = (snd (acc (num_layers - 1 - layer_index)%Z),
                        fst (acc (num_layers - 1 - layer_index)%Z))
  /\ fst (dec layer_index) = 2 * snd (dec layer_index)
  /\ snd (dec (num_layers - 1)%Z) = base_tempo
  /\ RissetRhythm.voice_tempo_range base_tempo layer_index = acc layer_index.
Proof.
  intros acc dec. unfold acc, dec, RissetRhythm.tempo_range,
    RissetRhythm.voice_tempo_range. cbn [fst snd].
  repeat split.
  - rewrite powerRZ_2_succ. ring.
  - cbn [powerRZ]. ring.
  - f_equal; f_equal; f_equal; lia.
  - replace (num_layers - layer_index)%Z with (num_layers - layer_index - 1 + 1)%Z by lia.
    rewrite powerRZ_2_succ.
    replace (num_layers - layer_index - 1 + 1 - 1)%Z
      with (num_layers - layer_index - 1)%Z by lia.
    ring.
  - replace (num_layers - (num_layers - 1) - 1)%Z with 0%Z by lia.
    cbn [powerRZ]. ring.
Qed.

(** X15.  The speed factor handed to [speedup] (backup.py lines 127-134), for a
    base tempo that is not zero: on an accelerating layer it is
    [2 ** layer_index * (1 + progress)], on a decelerating one
    [2 ** (num_layers - layer_index) * (1 - progress / 2)]; for a progress
    in [[0, 1]] it stays within the layer's octave. *)
Theorem speed_factor_in_octave (base_tempo progress : R) (num_layers layer_index : Z)
  (Hb : base_tempo <> 0) (Hp : 0 <= progress <= 1) :
  let factor := fun d =>
    RissetRhythm.speed_factor base_tempo
      (fst (RissetRhythm.tempo_range base_tempo num_layers d layer_index))
      (snd (RissetRhythm.tempo_range base_tempo num_layers d layer_index)) progress in
  factor RissetRhythm.Accelerating = Ok (powerRZ 2 layer_index * (1 + progress))
  /\ factor RissetRhythm.Decelerating
     = Ok (powerRZ 2 (num_layers - layer_index) * (1 - progress / 2))
  /\ powerRZ 2 layer_index <= powerRZ 2 layer_index * (1 + progress)
                           <= powerRZ 2 (layer_index + 1)
  /\ powerRZ 2 (num_layers - layer_index - 1)
     <= powerRZ 2 (num_layers - layer_index) * (1 - progress / 2)
     <= powerRZ 2 (num_layers - layer_index).
Proof.
  intros factor. unfold factor, RissetRhythm.speed_factor, RissetRhythm.current_tempo,
    RissetRhythm.tempo_range. cbn [fst snd].
  rewrite !float_div_ok by exact Hb.
  pose proof (powerRZ_2_pos layer_index) as H1.
  pose proof (powerRZ_2_pos (num_layers - layer_index - 1)) as H2.
  assert (E : powerRZ 2 (num_layers - layer_index)
              = 2 * powerRZ 2 (num_layers - layer_index - 1)).
  { rewrite <- powerRZ_2_succ. f_equal. lia. }
  split; [| split; [| split]].
  - f_equal. rewrite powerRZ_2_succ. field. exact Hb.
  - f_equal. rewrite E. field. exact Hb.
  - rewrite powerRZ_2_succ. nra.
  - rewrite E. nra.
Qed.

Lemma speed_factor_in_octave_witness :
  RissetRhythm.speed_factor 80
    (fst (RissetRhythm.tempo_range 80 2 RissetRhythm.Accelerating 1))
    (snd (RissetRhythm.tempo_range 80 2 RissetRhythm.Accelerating 1)) (1 / 2)
  = Ok (powerRZ 2 1 * (1 + 1 / 2)).
Proof.
  apply (speed_factor_in_octave 80 (1 / 2) 2 1); lra.
Defined.

Lemma ln10_pos : 0 < ln 10.
Proof. rewrite <- ln_1. apply ln_increasing; lra. Qed.

(** X16.  The volume in decibels (backup.py lines 138-149): for a progress in
    [[0, 1]] it is never above 0 dB; it is 0 dB exactly on the plateau
    [[0.25, 0.75]] of the linear fade; it is -100 dB at both ends, where
    the fade is 0; and -100 dB is not its floor: close to the ends the
    logarithm gives less. *)
Theorem volume_db_profile (progress : R) (Hp : 0 <= progress <= 1) :
  RissetRhythm.volume_db progress <= 0
  /\ (RissetRhythm.volume_db progress = 0 <-> 0.25 <= progress <= 0.75)
  /\ RissetRhythm.volume_db 0 = -100
  /\ RissetRhythm.volume_db 1 = -100
  /\ (exists p, 0 < p < 1 /\ RissetRhythm.volume_db p < -100).
Proof.
  pose proof ln10_pos as H10.
  assert (Hlog : forall v, 0 < v -> v < 1 -> 20 * (ln v / ln 10) < 0).
  { intros v Hv0 Hv1. assert (ln v < 0) by (rewrite <- ln_1; apply ln_increasing; lra).
    assert (0 < / ln 10) by (apply Rinv_0_lt_compat; lra).
    unfold Rdiv. nra. }
  assert (Hone : 20 * (ln 1 / ln 10) = 0) by (rewrite ln_1; unfold Rdiv; ring).
  split; [| split; [| split; [| split]]].
  - unfold RissetRhythm.volume_db, linear_fade.
    destruct (Rlt_dec progress 0.25); [| destruct (Rlt_dec 0.75 progress)].
    + destruct (Rlt_dec 0 (progress / 0.25)) as [H0 | H0]; [| lra].
      left. apply Hlog; lra.
    + destruct (Rlt_dec 0 ((1 - progress) / 0.25)) as [H0 | H0]; [| lra].
      left. apply Hlog; lra.
    + destruct (Rlt_dec 0 1); lra.
  - unfold RissetRhythm.volume_db, linear_fade.
    destruct (Rlt_dec progress 0.25); [| destruct (Rlt_dec 0.75 progress)].
    + destruct (Rlt_dec 0 (progress / 0.25)) as [H0 | H0].
      * pose proof (Hlog (progress / 0.25) H0 ltac:(lra)). split; intros; lra.
      * split; intros; lra.
    + destruct (Rlt_dec 0 ((1 - progress) / 0.25)) as [H0 | H0].
      * pose proof (Hlog ((1 - progress) / 0.25) H0 ltac:(lra)). split; intros; lra.
      * split; intros; lra.
    + destruct (Rlt_dec 0 1); [| lra]. split; intros; lra.
  - unfold RissetRhythm.volume_db, linear_fade.
    destruct (Rlt_dec 0 0.25); [| lra].
    destruct (Rlt_dec 0 (0 / 0.25)); [lra | reflexivity].
  - unfold RissetRhythm.volume_db, linear_fade.
    destruct (Rlt_dec 1 0.25); [lra |].
    destruct (Rlt_dec 0.75 1); [| lra].
    destruct (Rlt_dec 0 ((1 - 1) / 0.25)); [lra | reflexivity].
  - set (v := exp (- 6 * ln 10)).
    assert (Hv0 : 0 < v) by apply exp_pos.
    assert (Hv1 : v < 1).
    { unfold v. rewrite <- exp_0. apply exp_increasing. lra. }
    exists (v * 0.25). split; [lra |].
    unfold RissetRhythm.volume_db, linear_fade.
    destruct (Rlt_dec (v * 0.25) 0.25); [| lra].
    replace (v * 0.25 / 0.25) with v by lra.
    destruct (Rlt_dec 0 v); [| lra].
    unfold v. rewrite ln_exp.
    replace (- 6 * ln 10 / ln 10) with (-6) by (field; lra). lra.
Qed.

Lemma volume_db_profile_witness : RissetRhythm.volume_db (1 / 2) <= 0.
Proof. apply (volume_db_profile (1 / 2)). lra. Defined.

(** ** Ratings: the normalised row and the summary *)

Lemma fold_left_Rmin_le (l : list R) (a : R) : fold_left Rmin l a <= a.
Proof.
  revert a. induction l as [| x l IH]; intros a; simpl; [lra |].
  eapply Rle_trans; [apply IH | apply Rmin_l].
Qed.

Lemma fold_left_Rmin_lower (l : list R) (a x : R) : In x l -> fold_left Rmin l a <= x.
Proof.
  revert a. induction l as [| y l IH]; intros a H; [contradiction |].
  simpl. destruct H as [-> | H].
  - eapply Rle_trans; [apply fold_left_Rmin_le | apply Rmin_r].
  - apply IH. exact H.
Qed.

Lemma fold_left_Rmin_in (l : list R) (a : R) : In (fold_left Rmin l a) (a :: l).
Proof.
  revert a. induction l as [| y l IH]; intros a; [left; reflexivity |].
  cbn [fold_left]. destruct (IH (Rmin a y)) as [H | H].
  - rewrite <- H. unfold Rmin. destruct (Rle_dec a y); [left | right; left]; reflexivity.
  - right. right. exact H.
Qed.

Lemma row_bounds (x : R) (xs : list R) (v : R) :
  In v (x :: xs) -> DataAnalysis.row_min x xs <= v <= DataAnalysis.row_max x xs.
Proof.
  unfold DataAnalysis.row_min, DataAnalysis.row_max. intros [<- | H]; split.
  - apply fold_left_Rmin_le.
  - apply fold_left_Rmax_ge.
  - apply fold_left_Rmin_lower. exact H.
  - apply fold_left_Rmax_upper. exact H.
Qed.

(** X17.  The normalisation of one participant's ratings (Data Analysis.py lines
    392-401): the row keeps its length; every normalised value lies in
    [[0, 10]]; when the ratings are not all the same, the lowest becomes 0
    and the highest 10; when they are all the same, the division is
    skipped and every value becomes 0. *)
Theorem normalize_row_range (x : R) (xs : list R) :
  let out := DataAnalysis.normalize_row x xs in
  length out = S (length xs)
  /\ Forall (fun v => 0 <= v <= 10) out
  /\ (DataAnalysis.row_min x xs <> DataAnalysis.row_max x xs -> In 0 out /\ In 10 out)
  /\ (DataAnalysis.row_min x xs = DataAnalysis.row_max x xs ->
      out = repeat 0 (S (length xs))).
Proof.
  intros out. unfold out, DataAnalysis.normalize_row.
  set (lo := DataAnalysis.row_min x xs). set (hi := DataAnalysis.row_max x xs).
  assert (Hlohi : lo <= hi).
  { destruct (row_bounds x xs x (or_introl eq_refl)). unfold lo, hi. lra. }
  destruct (Req_dec_T (hi - lo) 0) as [E | N].
  - split; [now rewrite length_map |]. split; [| split].
    + apply Forall_forall. intros v Hv. apply in_map_iff in Hv.
      destruct Hv as [_ [<- _]]. lra.
    + intros Hne. lra.
    + intros _. change (S (length xs)) with (length (x :: xs)).
      induction (x :: xs) as [| y l IH]; [reflexivity |].
      cbn [map length repeat]. f_equal. exact IH.
  - assert (Hpos : 0 < hi - lo) by lra.
    split; [now rewrite length_map |]. split; [| split].
    + apply Forall_forall. intros v Hv. apply in_map_iff in Hv.
      destruct Hv as [w [<- Hw]].
      pose proof (row_bounds x xs w Hw) as Hb. fold lo hi in Hb.
      assert (H01 : 0 <= (w - lo) / (hi - lo) <= 1).
      { split; [apply Rle_mult_inv_pos; lra |].
        apply (Rmult_le_reg_r (hi - lo)); [exact Hpos |].
        unfold Rdiv. rewrite Rmult_assoc, Rinv_l by lra. lra. }
      lra.
    + intros _. split.
      * apply in_map_iff. exists lo. split.
        -- unfold Rdiv. ring.
        -- unfold lo, DataAnalysis.row_min. apply fold_left_Rmin_in.
      * apply in_map_iff. exists hi. split.
        -- field. lra.
        -- unfold hi, DataAnalysis.row_max. apply fold_left_Rmax_in.
    + intros Heq. lra.
Qed.

Lemma fold_left_Rplus_acc (l : list R) (a : R) :
  fold_left Rplus l a = a + fold_left Rplus l 0.
Proof.
  revert a. induction l as [| x l IH]; intros a; simpl; [lra |].
  rewrite (IH (a + x)), (IH (0 + x)). lra.
Qed.

Lemma sum_between (l : list R) (lo hi : R) :
  Forall (fun r => lo <= r <= hi) l ->
  INR (length l) * lo <= fold_left Rplus l 0 <= INR (length l) * hi.
Proof.
  induction 1 as [| x l Hx _ IH].
  - simpl. lra.
  - change (length (x :: l)) with (S (length l)). rewrite S_INR.
    cbn [fold_left]. rewrite fold_left_Rplus_acc. lra.
Qed.

(** X18.  The summary [save_ratings] writes (Audio Rating.py lines 332-335):
    with no file there is none; otherwise the highest and the lowest
    rating are among the ratings, bound all of them, and the average lies
    between the two. *)
Theorem summary_between (ratings : list R) :
  (ratings = [] -> AudioRating.summary ratings = None)
  /\ (ratings <> [] ->
      exists avg hi lo,
        AudioRating.summary ratings = Some (avg, hi, lo)
        /\ In hi ratings /\ In lo ratings
        /\ Forall (fun r => lo <= r <= hi) ratings
        /\ lo <= avg <= hi).
Proof.
  split; [intros ->; reflexivity |].
  intros Hne. destruct ratings as [| r rs]; [contradiction |].
  unfold AudioRating.summary.
  set (hi := fold_left Rmax rs r). set (lo := fold_left Rmin rs r).
  assert (Hall : Forall (fun v => lo <= v <= hi) (r :: rs)).
  { apply Forall_forall. intros v Hv. apply (row_bounds r rs v Hv). }
  eexists _, hi, lo. split; [reflexivity |].
  split; [apply fold_left_Rmax_in |]. split; [apply fold_left_Rmin_in |].
  split; [exact Hall |].
  pose proof (sum_between _ _ _ Hall) as [H1 H2].
  assert (Hn : 0 < INR (length (r :: rs))) by (apply lt_0_INR; simpl; lia).
  split.
  - apply (Rmult_le_reg_r (INR (length (r :: rs)))); [exact Hn |].
    unfold Rdiv. rewrite Rmult_assoc, Rinv_l by lra. lra.
  - apply (Rmult_le_reg_r (INR (length (r :: rs)))); [exact Hn |].
    unfold Rdiv. rewrite Rmult_assoc, Rinv_l by lra. lra.
Qed.

(** ** The player of the rating application *)

Lemma set_button_length (buttons : list bool) (i : nat) (b : bool) :
  length (AudioRating.set_button buttons i b) = length buttons.
Proof.
  revert i. induction buttons as [| x rest IH]; intros i; [reflexivity |].
  destruct i; simpl; [reflexivity | now rewrite IH].
Qed.

Lemma set_button_nth (buttons : list bool) (i j : nat) (b : bool) :
  (i < length buttons)%nat ->
  nth j (AudioRating.set_button buttons i b) false
  = if Nat.eqb j i then b else nth j buttons false.
Proof.
  revert i j. induction buttons as [| x rest IH]; intros i j Hi; [simpl in Hi; lia |].
  destruct i, j; simpl; try reflexivity.
  apply IH. simpl in Hi. lia.
Qed.

Lemma player_start (s : AudioRating.player) (index : nat) (mixer : option nat) :
  player_consistent s -> (index < length (AudioRating.pause_shown s))%nat ->
  (forall c, AudioRating.current_playing s = Some c -> c <> index ->
     player_consistent (AudioRating.mk_player (Some index)
                   (AudioRating.set_button
                      (AudioRating.set_button (AudioRating.pause_shown s) c false)
                      index true) mixer))
  /\ (AudioRating.current_playing s = None ->
      player_consistent (AudioRating.mk_player (Some index)
                    (AudioRating.set_button (AudioRating.pause_shown s) index true)
                    mixer)).
Proof.
  intros [Hin Hbtn] Hi. split.
  - intros c Hc Hne. pose proof (Hin c Hc) as Hcl.
    split; cbn [AudioRating.current_playing AudioRating.pause_shown].
    + intros c' E. injection E as <-. rewrite !set_button_length. exact Hi.
    + intros j Hj. rewrite !set_button_length in Hj.
      rewrite set_button_nth by (rewrite set_button_length; exact Hi).
      destruct (Nat.eqb_spec j index) as [-> | Hji]; [tauto |].
      rewrite set_button_nth by exact Hcl.
      destruct (Nat.eqb_spec j c) as [-> | Hjc].
      * split; [discriminate | intros E; injection E as E; congruence].
      * rewrite (Hbtn j Hj), Hc.
        split; intros E; injection E as E; congruence.
  - intros Hnone.
    split; cbn [AudioRating.current_playing AudioRating.pause_shown].
    + intros c' E. injection E as <-. rewrite set_button_length. exact Hi.
    + intros j Hj. rewrite set_button_length in Hj.
      rewrite set_button_nth by exact Hi.
      destruct (Nat.eqb_spec j index) as [-> | Hji]; [tauto |].
      rewrite (Hbtn j Hj), Hnone.
      split; [discriminate | intros E; injection E as E; congruence].
Qed.

Lemma player_stop (s : AudioRating.player) (index : nat) :
  player_consistent s -> AudioRating.current_playing s = Some index ->
  player_consistent (AudioRating.mk_player None
                (AudioRating.set_button (AudioRating.pause_shown s) index false) None).
Proof.
  intros [Hin Hbtn] Hc. pose proof (Hin index Hc) as Hi.
  split; cbn [AudioRating.current_playing AudioRating.pause_shown].
  - discriminate.
  - intros j Hj. rewrite set_button_length in Hj.
    rewrite set_button_nth by exact Hi.
    destruct (Nat.eqb_spec j index) as [-> | Hji].
    + split; discriminate.
    + rewrite (Hbtn j Hj), Hc.
      split; [intros E; injection E as E; congruence | discriminate].
Qed.

(** An index past the list of files leaves the player as it was and ends
    in the error box. *)
Lemma toggle_play_out_of_range (loads : nat -> bool) (index : nat)
  (s : AudioRating.player) :
  (length (AudioRating.pause_shown s) <= index)%nat ->
  AudioRating.toggle_play loads index s = (s, true).
Proof.
  intros H. unfold AudioRating.toggle_play.
  destruct (Nat.ltb_spec index (length (AudioRating.pause_shown s))); [lia | reflexivity].
Qed.

(** What [toggle_play] does with a file that exists and loads. *)
Lemma toggle_play_loaded (loads : nat -> bool) (index : nat)
  (s : AudioRating.player)
  (Hs : player_consistent s) (Hi : (index < length (AudioRating.pause_shown s))%nat)
  (Hl : loads index = true) :
  let s1 := fst (AudioRating.toggle_play loads index s) in
  let s2 := fst (AudioRating.toggle_play loads index s1) in
  snd (AudioRating.toggle_play loads index s) = false
  /\ player_consistent s1
  /\ length (AudioRating.pause_shown s1) = length (AudioRating.pause_shown s)
  /\ (AudioRating.current_playing s = Some index ->
      AudioRating.current_playing s1 = None /\ AudioRating.mixer_busy s1 = None)
  /\ (AudioRating.current_playing s <> Some index ->
      AudioRating.current_playing s1 = Some index
      /\ AudioRating.mixer_busy s1 = Some index
      /\ AudioRating.current_playing s2 = None)
  /\ (forall j, player_consistent (AudioRating.check_audio_end j s)).
Proof.
  intros s1 s2.
  assert (Hpoll : forall j, player_consistent (AudioRating.check_audio_end j s)).
  { intros j. unfold AudioRating.check_audio_end.
    destruct (AudioRating.mixer_busy s); [exact Hs |].
    destruct (AudioRating.current_playing s) as [c |] eqn:Ec; [| exact Hs].
    destruct (Nat.eqb_spec c j) as [-> | Hne]; [| exact Hs].
    apply player_stop; assumption. }
  destruct (player_start s index (Some index) Hs Hi) as [Hother Hnone].
  pose proof Hs as [Hin Hbtn].
  unfold s2, s1, AudioRating.toggle_play.
  destruct (Nat.ltb_spec index (length (AudioRating.pause_shown s))) as [_ | Hge]; [| lia].
  destruct (AudioRating.current_playing s) as [c |] eqn:Ec.
  - destruct (Nat.eqb_spec c index) as [-> | Hne].
    + rewrite Ec, Nat.eqb_refl. cbn [fst snd AudioRating.current_playing
        AudioRating.pause_shown AudioRating.mixer_busy].
      split; [reflexivity |]. split; [apply player_stop; assumption |].
      split; [apply set_button_length |]. split; [auto |].
      split; [intros N; congruence | exact Hpoll].
    + pose proof (Hin c eq_refl) as Hc.
      destruct (Nat.ltb_spec c (length (AudioRating.pause_shown s))) as [_ | Hge]; [| lia].
      cbn [AudioRating.current_playing AudioRating.pause_shown].
      destruct (Nat.eqb_spec c index) as [E | _]; [contradiction |].
      rewrite Hl. cbn [fst snd AudioRating.current_playing
        AudioRating.pause_shown AudioRating.mixer_busy].
      rewrite !set_button_length.
      destruct (Nat.ltb_spec index (length (AudioRating.pause_shown s))) as [_ | Hge];
        [| lia].
      rewrite Nat.eqb_refl. cbn [fst AudioRating.current_playing].
      split; [reflexivity |]. split; [apply Hother; [reflexivity | exact Hne] |].
      split; [reflexivity |]. split; [intros E; congruence |].
      split; [intros _; repeat split; rewrite ?Nat.eqb_refl; reflexivity | exact Hpoll].
  - rewrite Ec, Hl. cbn [fst snd AudioRating.current_playing
      AudioRating.pause_shown AudioRating.mixer_busy].
    rewrite !set_button_length.
    destruct (Nat.ltb_spec index (length (AudioRating.pause_shown s))) as [_ | Hge];
      [| lia].
    rewrite Nat.eqb_refl. cbn [fst AudioRating.current_playing].
    split; [reflexivity |]. split; [apply Hnone; reflexivity |].
    split; [reflexivity |]. split; [discriminate |].
    split; [intros _; repeat split; rewrite ?Nat.eqb_refl; reflexivity | exact Hpoll].
Qed.

(** X19.  [toggle_play] and [check_audio_end] (Audio Rating.py lines 256-291) on
    a consistent player, for a file that exists and that the mixer can
    load: no error box is shown and the player stays consistent (so at
    most one button shows the pause sign); toggling the file that plays
    stops it, toggling any other file makes it the one that plays, so
    toggling the same file twice always ends with nothing playing; a poll
    of [check_audio_end] keeps the player consistent; and an index past the
    list of files leaves the player as it was and ends in the error box. *)
Theorem toggle_play_consistent (loads : nat -> bool) (index : nat)
  (s : AudioRating.player)
  (Hs : player_consistent s) (Hi : (index < length (AudioRating.pause_shown s))%nat)
  (Hl : loads index = true) :
  let s1 := fst (AudioRating.toggle_play loads index s) in
  let s2 := fst (AudioRating.toggle_play loads index s1) in
  snd (AudioRating.toggle_play loads index s) = false
  /\ player_consistent s1
  /\ length (AudioRating.pause_shown s1) = length (AudioRating.pause_shown s)
  /\ (AudioRating.current_playing s = Some index ->
      AudioRating.current_playing s1 = None /\ AudioRating.mixer_busy s1 = None)
  /\ (AudioRating.current_playing s <> Some index ->
      AudioRating.current_playing s1 = Some index
      /\ AudioRating.mixer_busy s1 = Some index
      /\ AudioRating.current_playing s2 = None)
  /\ (forall j, player_consistent (AudioRating.check_audio_end j s))
  /\ (forall k, (length (AudioRating.pause_shown s) <= k)%nat ->
        AudioRating.toggle_play loads k s = (s, true)).
Proof.
  intros s1 s2.
  pose proof (toggle_play_loaded loads index s Hs Hi Hl) as H. cbv zeta in H.
  fold s1 in H. fold s2 in H.
  destruct H as [H1 [H2 [H3 [H4 [H5 H6]]]]].
  repeat (split; [assumption |]).
  intros k Hk. apply toggle_play_out_of_range. exact Hk.
Qed.

Lemma toggle_play_consistent_witness :
  AudioRating.current_playing
    (fst (AudioRating.toggle_play (fun _ => true) 1
            (AudioRating.mk_player (Some 0%nat) [true; false] (Some 0%nat))))
  = Some 1%nat.
Proof.
  apply (toggle_play_consistent (fun _ => true) 1
           (AudioRating.mk_player (Some 0%nat) [true; false] (Some 0%nat))).
  - split; simpl.
    + intros c E. injection E as <-. lia.
    + intros [| [| j]] Hj; simpl; [tauto | | lia].
      split; [discriminate | intros E; discriminate].
  - simpl. lia.
  - reflexivity.
  - simpl. discriminate.
Defined.
